(** * MAZE_GAME: the room server ([server.js]) as a shallow embedding

    The server keeps a table of rooms, generates a maze per round and reacts to
    socket events.  The embedding follows the source function by function:

    - [Maze]: [generateMaze], the randomized depth-first backtracker;
    - [Server]: [generateRoomCode], [startRound] and the socket handlers, as
      functions from the room table to the new room table and the list of
      messages sent;
    - [Scenario]: a small match on which the handlers can be run.

    Conventions.  A JavaScript number that the code keeps integral is a [Z];
    where [parseInt] may have produced [NaN] it is an [option Z].  A finish
    time, [(Date.now() - startTime) / 1000], is the exact rational [Q]: the
    rounding of the quotient to a double is not modelled.  A field that an
    object does not have yet is [None].  The handlers mutate room and player
    objects in place; here they return the table with the room replaced
    under its code, and a player is written through its index in the list.
    What the runtime supplies (the results of [Math.random], the order in
    which [sort] leaves the directions under a random comparator, [Date.now],
    the room left on the call stack, the enumeration order of the keys) is an
    input of the functions. *)

From stdpp Require Import gmap strings list fin_maps sorting.
From Stdlib Require Import ZArith QArith Qround Lia Lqa Ascii.

(** ** The maze generator *)

Module Maze.

Local Open Scope Z_scope.

(** [maze[y][x]]: a list of rows, [1] is a wall and [0] a path cell. *)
Abbreviation Grid := (list (list Z)).

(** A position [{x, y}], also used for the direction offsets. *)
Abbreviation Pos := (Z * Z)%type.

(** An entry of [validNeighbors]: [{nx, ny, dx, dy}]. *)
Record Neighbor := mkNeighbor { nx : Z; ny : Z; dx : Z; dy : Z }.

(** Reading [maze[y][x]].  [None] stands for a read outside the grid, which
    the source never makes: each read is behind the range test. *)
Definition cell (maze : Grid) (x y : Z) : option Z :=
  if bool_decide (0 ≤ x ∧ 0 ≤ y)
  then row ← maze !! Z.to_nat y; row !! Z.to_nat x
  else None.

(** The assignment [maze[y][x] = 0].  [None] stands for a write outside the
    grid, where JavaScript either throws (no such row) or grows the row. *)
Definition carve (maze : Grid) (x y : Z) : option Grid :=
  if bool_decide (0 ≤ x ∧ 0 ≤ y)
  then
    row ← maze !! Z.to_nat y;
    if bool_decide (Z.to_nat x < length row)%nat
    then Some (<[Z.to_nat y := <[Z.to_nat x := 0]> row]> maze)
    else None
  else None.

(** Up, down, left, right, as the array is first written. *)
Definition directions : list Pos := [(0, -2); (0, 2); (-2, 0); (2, 0)].

(** [directions.sort(() => Math.random() - 0.5)]: the comparator is random, so
    the array ends up in some order of the same four elements; which one is
    the runtime's choice, given here as a number that selects among the
    orderings of the list. *)
Definition shuffle (choice : nat) (dirs : list Pos) : list Pos :=
  let all := permutations dirs in
  default dirs (all !! (choice mod length all)%nat).

(** The body of [for (const dir of directions)]: the neighbours two cells away
    that lie strictly inside the border and are still walls, in the order of
    the shuffled directions. *)
Definition validNeighbors (width height : Z) (maze : Grid) (current : Pos)
    (dirs : list Pos) : list Neighbor :=
  omap (λ dir : Pos,
    let nx := current.1 + dir.1 in
    let ny := current.2 + dir.2 in
    if bool_decide (0 < nx ∧ nx < width - 1 ∧ 0 < ny ∧ ny < height - 1
                    ∧ cell maze nx ny = Some 1)
    then Some (mkNeighbor nx ny (dir.1 / 2) (dir.2 / 2))
    else None) dirs.

(** The state of the [while] loop: how many shuffles were made, the
    [directions] array (sorted in place, so it keeps its last order), the
    maze and the stack (its top is the head of the list). *)
Record LoopState := mkLoop {
  shuffles : nat;
  dirs : list Pos;
  maze : Grid;
  stack : list Pos
}.

(** One iteration of [while (stack.length > 0)], for a stack whose top is
    [current]. *)
Definition iteration (sh : nat → nat) (width height : Z) (st : LoopState)
    (current : Pos) (rest : list Pos) : option LoopState :=
  let dirs' := shuffle (sh (shuffles st)) (dirs st) in
  match validNeighbors width height (maze st) current dirs' with
  | next :: _ =>
      maze1 ← carve (maze st) (nx next) (ny next);
      maze2 ← carve maze1 (current.1 + dx next) (current.2 + dy next);
      Some (mkLoop (S (shuffles st)) dirs' maze2
                   ((nx next, ny next) :: current :: rest))
  | [] => Some (mkLoop (S (shuffles st)) dirs' (maze st) rest)
  end.

(** The [while] loop; [fuel] bounds the number of iterations and [None] is
    returned when it runs out before the stack is empty. *)
Fixpoint loop (sh : nat → nat) (width height : Z) (fuel : nat)
    (st : LoopState) : option Grid :=
  match stack st with
  | [] => Some (maze st)
  | current :: rest =>
      match fuel with
      | O => None
      | S fuel' =>
          st' ← iteration sh width height st current rest;
          loop sh width height fuel' st'
      end
  end.

(** [generateMaze(width, height)].  Every iteration either turns a wall into a
    path cell or pops the stack, so twice the number of cells bounds the
    iterations. *)
Definition generateMaze (sh : nat → nat) (width height : Z) : option Grid :=
  let maze := replicate (Z.to_nat height) (replicate (Z.to_nat width) 1) in
  maze ← carve maze 1 1;
  maze ← loop sh width height (2 * Z.to_nat width * Z.to_nat height)
              (mkLoop 0 directions maze [(1, 1)]);
  carve maze (width - 2) (height - 2).

(** *** What the claims speak of *)

Definition is_path (maze : Grid) (p : Pos) : Prop := cell maze p.1 p.2 = Some 0.

(** Two cells are adjacent when they share an edge. *)
Definition adjacent (p q : Pos) : Prop :=
  Z.abs (p.1 - q.1) + Z.abs (p.2 - q.2) = 1.

(** A walk over path cells, each adjacent to the one before. *)
Inductive connected (maze : Grid) : Pos → Pos → Prop :=
  | connected_here p : is_path maze p → connected maze p p
  | connected_step p q r :
      connected maze p q → adjacent q r → is_path maze r → connected maze p r.

(** The grid has [height] rows of [width] cells. *)
Definition shape (width height : Z) (maze : Grid) : Prop :=
  length maze = Z.to_nat height ∧ Forall (λ row, length row = Z.to_nat width) maze.

(** Number of wall cells, the quantity the loop consumes. *)
Definition row_walls (row : list Z) : nat := length (filter (λ v, v = 1) row).
Definition walls (maze : Grid) : nat := sum_list (row_walls <$> maze).

(** The cells the backtracker stands on: odd coordinates strictly inside the
    border. *)
Definition node (width height : Z) (p : Pos) : Prop :=
  Z.odd p.1 = true ∧ Z.odd p.2 = true
  ∧ 0 < p.1 < width - 1 ∧ 0 < p.2 < height - 1.

(** What holds at the head of every iteration of the [while] loop. *)
Record loop_invariant (width height : Z) (st : LoopState) : Prop := {
  inv_shape : shape width height (maze st);
  inv_dirs : dirs st ≡ₚ directions;
  inv_bits : ∀ x y v, cell (maze st) x y = Some v → v = 0 ∨ v = 1;
  inv_stack : Forall (λ p, node width height p ∧ is_path (maze st) p) (stack st);
  inv_start : is_path (maze st) (1, 1);
  inv_conn : ∀ p, is_path (maze st) p → connected (maze st) (1, 1) p;
  inv_done : ∀ p, node width height p → is_path (maze st) p →
    p ∈ stack st ∨
    ∀ d, d ∈ directions → node width height (p.1 + d.1, p.2 + d.2) →
         is_path (maze st) (p.1 + d.1, p.2 + d.2)
}.

Definition measure (st : LoopState) : nat :=
  (2 * walls (maze st) + length (stack st))%nat.

End Maze.

(** ** The room table and the socket handlers *)

Module Server.

Import Maze.
Local Open Scope Z_scope.

(** [room.status] *)
Inductive Status := waiting | playing | round_over | game_over.

#[global] Instance Status_eq_dec : EqDecision Status.
Proof. solve_decision. Defined.

(** A player object.  The handlers add [x], [y], [finished], [finishTime] and
    [lastFinishTime] to it later on; [None] is a field not yet written.
    [lastFinishTime] is a number of seconds; there [None] also stands for
    [NaN], which a subtraction treats alike. *)
Record Player := mkPlayer {
  p_id : string;
  p_name : string;
  p_score : Z;
  p_color : string;
  p_x : option Z;
  p_y : option Z;
  p_finished : option bool;
  p_lastFinishTime : option Q;
  p_finishTime : option Z
}.

(** A room object.  [maxPlayers] and [totalRounds] are what [parseInt] made of
    the client's fields: an integer, or [None] for [NaN].  [r_maze] is [None]
    for [null], [r_startTime] is [None] until a round has started. *)
Record Room := mkRoom {
  r_id : string;
  r_players : list Player;
  r_maxPlayers : option Z;
  r_totalRounds : option Z;
  r_currentRound : Z;
  r_status : Status;
  r_maze : option Grid;
  r_startTime : option Z
}.

(** The global [rooms] object. *)
Abbreviation Rooms := (gmap string Room).

(** The messages the server sends, with their payloads as they are when sent. *)
Inductive Message :=
  | roomCreated (roomCode : string) (isHost : bool) (room : Room)
  | playerJoined (players : list Player) (roomCode : string)
      (maxPlayers : option Z)
  | playerLeft (players : list Player)
  | gameStart (maze : Grid) (round : Z) (players : list Player)
      (startTime : Z) (roomCode : string)
  | playerMoved (id : string) (position : Pos)
  | playerFinished (playerId : string) (finishTime : option Q)
      (players : list Player)
  | roundResult (winner : Player) (players : list Player) (currentRound : Z)
      (totalRounds : option Z) (isGrandWinner : bool)
  | resetToLobby (players : list Player)
  | error (msg : string).

(** [socket.emit], [io.to(code).emit] and [socket.to(code).emit]. *)
Inductive Audience :=
  | to_sender
  | to_room (roomCode : string)
  | to_others (roomCode : string).

Abbreviation Emit := (Audience * Message)%type.

(** What the runtime decides during one handler call: the clock, the
    successive results of [Math.random()] (numbers in [0, 1)), the orders in
    which the successive [sort] calls of [generateMaze] leave [directions],
    how deep [generateRoomCode] may recurse before the call stack is
    exhausted, and the order in which [for (const code in rooms)] visits the
    keys. *)
Record Runtime := mkRuntime {
  Date_now : Z;
  Math_random : nat → Q;
  sort_order : nat → nat;
  stack_depth : nat;
  key_order : list string
}.

(** *** Comparisons of a number with a parsed field ([NaN] compares false) *)

Definition num_ge (a : Z) (b : option Z) : bool :=
  match b with Some b => bool_decide (b ≤ a) | None => false end.

Definition num_eq (a : Z) (b : option Z) : bool :=
  match b with Some b => bool_decide (a = b) | None => false end.

Definition num_lt (a : Z) (b : option Z) : bool :=
  match b with Some b => bool_decide (a < b) | None => false end.

(** [Math.ceil(totalRounds / 2)] *)
Definition Math_ceil_half (n : option Z) : option Z :=
  (λ n, Qceiling (inject_Z n / 2)) <$> n.

(** Truthiness of the [finished] field. *)
Definition truthy (b : option bool) : bool := default false b.

(** *** generateRoomCode *)

Definition characters : string := "ABCDEFGHJKLMNPQRSTUVWXYZ23456789".

(** [s.charAt(i)]: the empty string outside the string. *)
Definition charAt (s : string) (i : Z) : string :=
  if bool_decide (0 ≤ i)
  then match String.get (Z.to_nat i) s with
       | Some c => String c EmptyString
       | None => EmptyString
       end
  else EmptyString.

(** [characters.charAt(Math.floor(r * characters.length))] *)
Definition pick (r : Q) : string :=
  charAt characters (Qfloor (r * inject_Z (Z.of_nat (String.length characters)))).

(** The [for] loop that draws the four characters, for the [calls]-th and
    following results of [Math.random()]. *)
Definition draw_code (random : nat → Q) (calls : nat) : string :=
  foldl (λ result i, String.append result (pick (random (calls + i)%nat)))
        EmptyString (seq 0 4).

(** [generateRoomCode()], which calls itself again when the code is taken.
    [depth] is the number of nested calls the stack has room for; [None] is
    the [RangeError] thrown beyond it. *)
Fixpoint generateRoomCode (depth : nat) (random : nat → Q) (calls : nat)
    (rooms : Rooms) : option string :=
  match depth with
  | O => None
  | S depth' =>
      let result := draw_code random calls in
      match rooms !! result with
      | Some _ => generateRoomCode depth' random (calls + 4) rooms
      | None => Some result
      end
  end.

(** *** Field updates *)

Definition set_players (players : list Player) (r : Room) : Room :=
  mkRoom (r_id r) players (r_maxPlayers r) (r_totalRounds r)
         (r_currentRound r) (r_status r) (r_maze r) (r_startTime r).

Definition set_status (s : Status) (r : Room) : Room :=
  mkRoom (r_id r) (r_players r) (r_maxPlayers r) (r_totalRounds r)
         (r_currentRound r) s (r_maze r) (r_startTime r).

Definition set_currentRound (n : Z) (r : Room) : Room :=
  mkRoom (r_id r) (r_players r) (r_maxPlayers r) (r_totalRounds r)
         n (r_status r) (r_maze r) (r_startTime r).

Definition set_maze (m : option Grid) (r : Room) : Room :=
  mkRoom (r_id r) (r_players r) (r_maxPlayers r) (r_totalRounds r)
         (r_currentRound r) (r_status r) m (r_startTime r).

Definition set_startTime (t : option Z) (r : Room) : Room :=
  mkRoom (r_id r) (r_players r) (r_maxPlayers r) (r_totalRounds r)
         (r_currentRound r) (r_status r) (r_maze r) t.

Definition set_score (n : Z) (p : Player) : Player :=
  mkPlayer (p_id p) (p_name p) n (p_color p) (p_x p) (p_y p) (p_finished p)
           (p_lastFinishTime p) (p_finishTime p).

Definition set_position (x y : Z) (p : Player) : Player :=
  mkPlayer (p_id p) (p_name p) (p_score p) (p_color p) (Some x) (Some y)
           (p_finished p) (p_lastFinishTime p) (p_finishTime p).

(** [player.finished = true; player.lastFinishTime = finishTime] *)
Definition mark_finished (finishTime : option Q) (p : Player) : Player :=
  mkPlayer (p_id p) (p_name p) (p_score p) (p_color p) (p_x p) (p_y p)
           (Some true) finishTime (p_finishTime p).

(** The body of the [forEach] of [startRound]:
    [p.x = 1; p.y = 1; p.finished = false; p.finishTime = 0] *)
Definition reset_player (p : Player) : Player :=
  mkPlayer (p_id p) (p_name p) (p_score p) (p_color p) (Some 1) (Some 1)
           (Some false) (p_lastFinishTime p) (Some 0).

(** *** startRound *)

(** [startRound(roomCode)].  Should [generateMaze] throw, the function is left
    with only the status written. *)
Definition startRound (rt : Runtime) (roomCode : string) (rooms : Rooms)
    : Rooms * list Emit :=
  match rooms !! roomCode with
  | None => (rooms, [])
  | Some room =>
      let room := set_status playing room in
      match generateMaze (sort_order rt) 21 21 with
      | None => (<[roomCode := room]> rooms, [])
      | Some maze =>
          let room := set_maze (Some maze) room in
          let room := set_startTime (Some (Date_now rt)) room in
          let room := set_players (reset_player <$> r_players room) room in
          (<[roomCode := room]> rooms,
           [(to_room roomCode,
             gameStart maze (r_currentRound room) (r_players room)
                       (Date_now rt) roomCode)])
      end
  end.

(** *** The handlers of a connection [socket] *)

(** [socket.on('createRoom', ...)]; the numeric fields arrive parsed. *)
Definition createRoom (rt : Runtime) (socket : string) (playerName : string)
    (maxPlayers totalRounds : option Z) (rooms : Rooms) : Rooms * list Emit :=
  match generateRoomCode (stack_depth rt) (Math_random rt) 0 rooms with
  | None => (rooms, [])
  | Some roomCode =>
      let room :=
        mkRoom roomCode
               [mkPlayer socket playerName 0 "#FF4136" None None None None None]
               maxPlayers totalRounds 1 waiting None None in
      (<[roomCode := room]> rooms,
       [(to_sender, roomCreated roomCode true room)])
  end.

Definition colors : list string :=
  ["#FF4136"; "#2ECC40"; "#0074D9"; "#FFDC00"; "#B10DC9";
   "#FF851B"; "#39CCCC"; "#F012BE"; "#01FF70"; "#AAAAAA"]%string.

(** [rooms] is a plain object, [const rooms = {}], so that [rooms[roomCode]]
    also finds what every object inherits from [Object.prototype]: for one of
    these names that is no room code, the value read is a function (for
    [__proto__], the prototype itself), which is truthy and has no [status]
    and no [players].  The handlers that compare [room.status] with a status
    in the test that follows [!room] return for such a name as they do
    without a room; [joinRoom] and [requestPlayAgain] do not. *)
Definition Object_prototype : list string :=
  ["constructor"; "__defineGetter__"; "__defineSetter__"; "hasOwnProperty";
   "__lookupGetter__"; "__lookupSetter__"; "isPrototypeOf";
   "propertyIsEnumerable"; "toString"; "valueOf"; "__proto__";
   "toLocaleString"]%string.

(** [socket.on('joinRoom', ...)].  Without a room of that code, an inherited
    member passes [if (!room)] and fails [room.status !== 'waiting']. *)
Definition joinRoom (rt : Runtime) (socket : string)
    (playerName roomCode : string) (rooms : Rooms) : Rooms * list Emit :=
  match rooms !! roomCode with
  | None =>
      if bool_decide (roomCode ∈ Object_prototype)
      then (rooms, [(to_sender, error "Game already in progress")])
      else (rooms, [(to_sender, error "Room not found")])
  | Some room =>
      if negb (bool_decide (r_status room = waiting))
      then (rooms, [(to_sender, error "Game already in progress")])
      else if num_ge (Z.of_nat (length (r_players room))) (r_maxPlayers room)
      then (rooms, [(to_sender, error "Room is full")])
      else
        let playerColor :=
          default EmptyString
            (colors !! (length (r_players room) mod length colors)%nat) in
        let newPlayer :=
          mkPlayer socket playerName 0 playerColor None None None None None in
        let room := set_players (r_players room ++ [newPlayer]) room in
        let rooms := <[roomCode := room]> rooms in
        let joined :=
          (to_room roomCode,
           playerJoined (r_players room) roomCode (r_maxPlayers room)) in
        if num_eq (Z.of_nat (length (r_players room))) (r_maxPlayers room)
        then let (rooms, sent) := startRound rt roomCode rooms in
             (rooms, joined :: sent)
        else (rooms, [joined])
  end.

(** [room.players.find(p => p.id === socket.id)], with the index of the
    player found so that the object in the array can be written to. *)
Definition find_player (socket : string) (players : list Player)
    : option (nat * Player) :=
  list_find (λ p, p_id p = socket) players.

(** [socket.on('playerMove', ...)] *)
Definition playerMove (socket : string) (roomCode : string) (position : Pos)
    (rooms : Rooms) : Rooms * list Emit :=
  match rooms !! roomCode with
  | None => (rooms, [])
  | Some room =>
      if negb (bool_decide (r_status room = playing)) then (rooms, [])
      else
        let rooms :=
          match find_player socket (r_players room) with
          | Some (i, player) =>
              let player := set_position position.1 position.2 player in
              <[roomCode := set_players (<[i := player]> (r_players room)) room]>
                rooms
          | None => rooms
          end in
        (rooms, [(to_others roomCode, playerMoved socket position)])
  end.

(** [(Date.now() - room.startTime) / 1000] *)
Definition elapsed (now : Z) (startTime : option Z) : option Q :=
  (λ start, inject_Z (now - start) / 1000)%Q <$> startTime.

(** The comparator [(a, b) => a.lastFinishTime - b.lastFinishTime]; [None]
    is [NaN]. *)
Definition by_lastFinishTime (a b : Player) : option Q :=
  match p_lastFinishTime a, p_lastFinishTime b with
  | Some ta, Some tb => Some (ta - tb)%Q
  | _, _ => None
  end.

(** [sort] puts [a] behind [b] only when the comparator returns a positive
    number. *)
Definition sorts_after {A} (comparator : A → A → option Q) (a b : A) : bool :=
  match comparator a b with
  | Some d => negb (Qle_bool d 0)
  | None => false
  end.

Fixpoint place {A} (comparator : A → A → option Q) (a : A) (sorted : list A)
    : list A :=
  match sorted with
  | [] => [a]
  | b :: sorted' =>
      if sorts_after comparator a b
      then b :: place comparator a sorted'
      else a :: sorted
  end.

(** [Array.prototype.sort] is stable.  Under a comparator that orders the
    elements all stable sorts return the same array; it is computed here by
    insertion from the right. *)
Definition sort {A} (comparator : A → A → option Q) (l : list A) : list A :=
  foldr (place comparator) [] l.

(** [socket.on('playerWon', ...)].  The sorted copy holds the same player
    objects as [room.players], so each carries its index there, and the
    winner's score is written through that index. *)
Definition playerWon (rt : Runtime) (socket : string) (roomCode : string)
    (rooms : Rooms) : Rooms * list Emit :=
  match rooms !! roomCode with
  | None => (rooms, [])
  | Some room =>
      if negb (bool_decide (r_status room = playing)) then (rooms, [])
      else
        match find_player socket (r_players room) with
        | None => (rooms, [])
        | Some (i, player) =>
            if truthy (p_finished player) then (rooms, [])
            else
              let finishTime := elapsed (Date_now rt) (r_startTime room) in
              let player := mark_finished finishTime player in
              let room := set_players (<[i := player]> (r_players room)) room in
              let allFinished :=
                forallb (λ p, truthy (p_finished p)) (r_players room) in
              if allFinished then
                let room := set_status round_over room in
                match sort (λ a b, by_lastFinishTime a.2 b.2)
                           (imap pair (r_players room)) with
                | [] => (<[roomCode := room]> rooms, [])
                | (w, roundWinner) :: _ =>
                    let roundWinner :=
                      set_score (p_score roundWinner + 1) roundWinner in
                    let room :=
                      set_players (<[w := roundWinner]> (r_players room)) room in
                    let winsNeeded := Math_ceil_half (r_totalRounds room) in
                    let isGrandWinner :=
                      num_ge (p_score roundWinner) winsNeeded
                      || num_eq (r_currentRound room) (r_totalRounds room) in
                    let sent :=
                      [(to_room roomCode,
                        roundResult roundWinner (r_players room)
                          (r_currentRound room) (r_totalRounds room)
                          isGrandWinner)] in
                    let room :=
                      if isGrandWinner then set_status game_over room
                      else room in
                    (<[roomCode := room]> rooms, sent)
                end
              else
                (<[roomCode := room]> rooms,
                 [(to_room roomCode,
                   playerFinished (p_id player) finishTime (r_players room))])
        end
  end.

(** [socket.on('requestNextRound', ...)] *)
Definition requestNextRound (rt : Runtime) (roomCode : string) (rooms : Rooms)
    : Rooms * list Emit :=
  match rooms !! roomCode with
  | None => (rooms, [])
  | Some room =>
      if negb (bool_decide (r_status room = round_over)) then (rooms, [])
      else if num_lt (r_currentRound room) (r_totalRounds room)
      then
        let room := set_currentRound (r_currentRound room + 1) room in
        startRound rt roomCode (<[roomCode := room]> rooms)
      else (rooms, [])
  end.

(** [socket.on('requestPlayAgain', ...)].  [None] is [if (!room) return].
    For a code that is no room's but names a member of [Object_prototype]
    the source does not return there: it goes on to [room.players.forEach]
    and throws, which this function does not show. *)
Definition requestPlayAgain (roomCode : string) (rooms : Rooms)
    : Rooms * list Emit :=
  match rooms !! roomCode with
  | None => (rooms, [])
  | Some room =>
      let room := set_currentRound 1 room in
      let room := set_players (set_score 0 <$> r_players room) room in
      let room := set_status waiting room in
      (<[roomCode := room]> rooms,
       [(to_room roomCode, resetToLobby (r_players room))])
  end.

(** [socket.on('disconnect', ...)]: the first room, in the order the keys are
    visited, that lists the socket loses that player, and is deleted when it
    was the last one. *)
Fixpoint disconnect_from (socket : string) (codes : list string) (rooms : Rooms)
    : Rooms * list Emit :=
  match codes with
  | [] => (rooms, [])
  | code :: codes' =>
      match rooms !! code with
      | None => disconnect_from socket codes' rooms
      | Some room =>
          match find_player socket (r_players room) with
          | Some (playerIndex, _) =>
              let room := set_players (delete playerIndex (r_players room)) room in
              let sent := [(to_room code, playerLeft (r_players room))] in
              if bool_decide (length (r_players room) = 0%nat)
              then (delete code rooms, sent)
              else (<[code := room]> rooms, sent)
          | None => disconnect_from socket codes' rooms
          end
      end
  end.

Definition disconnect (rt : Runtime) (socket : string) (rooms : Rooms)
    : Rooms * list Emit :=
  disconnect_from socket (key_order rt) rooms.

(** *** The server as a machine driven by client events *)

Inductive Event :=
  | ev_createRoom (playerName : string) (maxPlayers totalRounds : option Z)
  | ev_joinRoom (playerName roomCode : string)
  | ev_playerMove (roomCode : string) (position : Pos)
  | ev_playerWon (roomCode : string)
  | ev_requestNextRound (roomCode : string)
  | ev_requestPlayAgain (roomCode : string)
  | ev_disconnect.

(** One event of connection [socket], handled to completion. *)
Definition handle (rt : Runtime) (socket : string) (ev : Event) (rooms : Rooms)
    : Rooms * list Emit :=
  match ev with
  | ev_createRoom playerName maxPlayers totalRounds =>
      createRoom rt socket playerName maxPlayers totalRounds rooms
  | ev_joinRoom playerName roomCode =>
      joinRoom rt socket playerName roomCode rooms
  | ev_playerMove roomCode position => playerMove socket roomCode position rooms
  | ev_playerWon roomCode => playerWon rt socket roomCode rooms
  | ev_requestNextRound roomCode => requestNextRound rt roomCode rooms
  | ev_requestPlayAgain roomCode => requestPlayAgain roomCode rooms
  | ev_disconnect => disconnect rt socket rooms
  end.

(** The room table after a sequence of events, each with its runtime and its
    socket. *)
Definition run (events : list (Runtime * string * Event)) (rooms : Rooms)
    : Rooms :=
  foldl (λ rooms e, (handle e.1.1 e.1.2 e.2 rooms).1) rooms events.

(** *** What the claims speak of *)

(** The player object that [joinRoom] appends to [room]. *)
Definition newcomer (socket playerName : string) (room : Room) : Player :=
  mkPlayer socket playerName 0
    (default EmptyString
       (colors !! (length (r_players room) mod length colors)%nat))
    None None None None None.

(** The players of [room] once [player], the [i]-th, has crossed the line. *)
Definition crossed (rt : Runtime) (i : nat) (player : Player) (room : Room)
    : list Player :=
  <[i := mark_finished (elapsed (Date_now rt) (r_startTime room)) player]>
    (r_players room).

Definition all_finished (players : list Player) : bool :=
  forallb (λ p, truthy (p_finished p)) players.

(** The characters of a string, for speaking of the alphabet. *)
Definition chars (s : string) : list ascii := String.list_ascii_of_string s.

(** A room whose clock fields are in order: while it is playing it has a
    start time, and a player who has finished has a finish time. *)
Definition timed (room : Room) : Prop :=
  (r_status room = playing → is_Some (r_startTime room))
  ∧ Forall (λ p, truthy (p_finished p) = true → is_Some (p_lastFinishTime p))
           (r_players room).

Definition well_timed (rooms : Rooms) : Prop :=
  ∀ code room, rooms !! code = Some room → timed room.

(** No room whose [maxPlayers] is a number has more players than that. *)
Definition within_capacity (rooms : Rooms) : Prop :=
  ∀ code room m, rooms !! code = Some room → r_maxPlayers room = Some m →
    Z.of_nat (length (r_players room)) ≤ m.

(** The rooms are created for at least one player (or for a [maxPlayers] that
    is not a number). *)
Definition sane_capacity (e : Runtime * string * Event) : Prop :=
  match e.2 with
  | ev_createRoom _ maxPlayers _ => ∀ m, maxPlayers = Some m → 1 ≤ m
  | _ => True
  end.

(** How the player list of a room may change in one event: it keeps its
    bound, and grows by one player at most, and only below the bound. *)
Definition grows_within (room room' : Room) : Prop :=
  r_maxPlayers room' = r_maxPlayers room
  ∧ ((length (r_players room') ≤ length (r_players room))%nat
     ∨ (length (r_players room') = S (length (r_players room))
        ∧ num_ge (Z.of_nat (length (r_players room))) (r_maxPlayers room)
          = false)).

(** How the status of the room [code] may change in one event [ev]. *)
Definition transition (ev : Event) (code : string) (s s' : Status) : Prop :=
  s' = s
  ∨ (s = waiting ∧ s' = playing ∧ ∃ playerName, ev = ev_joinRoom playerName code)
  ∨ (s = playing ∧ (s' = round_over ∨ s' = game_over) ∧ ev = ev_playerWon code)
  ∨ (s = round_over ∧ s' = playing ∧ ev = ev_requestNextRound code)
  ∨ (s' = waiting ∧ ev = ev_requestPlayAgain code).

Definition evolves (ev : Event) (code : string) (room room' : Room) : Prop :=
  grows_within room room'
  ∧ transition ev code (r_status room) (r_status room').

End Server.

(** ** A match of three players, for trying the handlers *)

Module Scenario.

Import Server.
Local Open Scope Z_scope.

(** A runtime whose clock shows [now], whose [Math.random()] always returns
    0 (so that the first code drawn is AAAA) and whose sorts cycle through the
    orderings. *)
Definition runtime (now : Z) : Runtime :=
  mkRuntime now (λ _, 0%Q) (λ n, n) 8 ["AAAA"%string].

Definition ann : Player :=
  mkPlayer "s1" "Ann" 0 "#FF4136" (Some 7) (Some 19) (Some false) None (Some 0).

Definition bob : Player :=
  mkPlayer "s2" "Bob" 2 "#2ECC40" (Some 19) (Some 19) (Some true)
           (Some (3200 # 1000)%Q) (Some 0).

Definition cy : Player :=
  mkPlayer "s3" "Cy" 1 "#0074D9" (Some 19) (Some 19) (Some true)
           (Some (3200 # 1000)%Q) (Some 0).

(** Round 3 of 5, started at 1000 ms: Bob and Cy are home after 3.2 s each,
    Ann is still on her way. *)
Definition race : Room :=
  mkRoom "AAAA" [ann; bob; cy] (Some 3) (Some 5) 3 playing None (Some 1000).

Definition racing : Rooms := {[ "AAAA"%string := race ]}.

(** Ann alone in the room she has created for two. *)
Definition lobby : Rooms :=
  {[ "AAAA"%string :=
       mkRoom "AAAA"
         [mkPlayer "s1" "Ann" 0 "#FF4136" None None None None None]
         (Some 2) (Some 3) 1 waiting None None ]}.

(** Ann creates a room for two and Bob joins it. *)
Definition opening : list (Runtime * string * Event) :=
  [(runtime 0, "s1"%string, ev_createRoom "Ann" (Some 2) (Some 3));
   (runtime 1000, "s2"%string, ev_joinRoom "Bob" "AAAA")].

(** The round that follows, up to Bob's finish 3.2 s after its start. *)
Definition first_home : list (Runtime * string * Event) :=
  opening ++ [(runtime 4200, "s2"%string, ev_playerWon "AAAA")].

Definition first_home_room : Room :=
  default race (run first_home ∅ !! "AAAA"%string).

Definition first_home_ann : Player :=
  default ann (r_players first_home_room !! 0%nat).

(** Ann creates a room for nobody. *)
Definition empty_room : list (Runtime * string * Event) :=
  [(runtime 0, "s1"%string, ev_createRoom "Ann" (Some 0) (Some 3))].

(** The room of Ann and Bob once Bob has joined. *)
Definition opening_room : Room := default race (run opening ∅ !! "AAAA"%string).

(** The first round to its end: Ann comes home 1.8 s after Bob. *)
Definition round_one : list (Runtime * string * Event) :=
  first_home ++ [(runtime 6000, "s1"%string, ev_playerWon "AAAA")].

Definition round_one_room : Room :=
  default race (run round_one ∅ !! "AAAA"%string).

(** Ann asks to play again while Bob and she are in their first round. *)
Definition rematch : Rooms :=
  run (opening ++ [(runtime 9000, "s1"%string, ev_requestPlayAgain "AAAA")]) ∅.

Definition rematch_room : Room := default race (rematch !! "AAAA"%string).

(** Cy tries to join, Ann asks for the next round and Bob moves. *)
Definition knocking : list (Runtime * string * Event) :=
  [(runtime 9500, "s3"%string, ev_joinRoom "Cy" "AAAA");
   (runtime 9600, "s1"%string, ev_requestNextRound "AAAA");
   (runtime 9700, "s2"%string, ev_playerMove "AAAA" (1, 2))].

(** Ann, the only one of the race still running, loses her connection. *)
Definition abandoned : Rooms := (disconnect (runtime 7000) "s1" racing).1.

Definition abandoned_room : Room :=
  mkRoom "AAAA" [bob; cy] (Some 3) (Some 5) 3 playing None (Some 1000).

(** Bob signals his finish again and asks for the next round. *)
Definition waiting_in_vain : list (Runtime * string * Event) :=
  [(runtime 8000, "s2"%string, ev_playerWon "AAAA");
   (runtime 8100, "s2"%string, ev_requestNextRound "AAAA")].

(** A maze of five by five with one way from the start to the exit. *)
Definition corridor : list (list Z) :=
  [[1; 1; 1; 1; 1];
   [1; 0; 0; 0; 1];
   [1; 1; 1; 0; 1];
   [1; 0; 0; 0; 1];
   [1; 1; 1; 1; 1]].

(** The maze of five by five that the generator returns when the sorts cycle
    through the orderings. *)
Definition maze_of_five : list (list Z) :=
  default [] (Maze.generateMaze (λ n, n) 5 5).

End Scenario.

(** ** What the further facts about the maze speak of *)

Module Walls.

Import Maze.
Local Open Scope Z_scope.

(** The cells from (1,1) to ([right], [bottom]). *)
Definition in_box (right bottom : Z) (p : Pos) : Prop :=
  1 ≤ p.1 ≤ right ∧ 1 ≤ p.2 ≤ bottom.

(** Every path cell of the loop's maze lies in the box. *)
Definition boxed (right bottom : Z) (st : LoopState) : Prop :=
  ∀ p, is_path (maze st) p → in_box right bottom p.

(** The outermost rows and columns of the grid. *)
Definition on_border (width height x y : Z) : Prop :=
  x = 0 ∨ x = width - 1 ∨ y = 0 ∨ y = height - 1.

(** The number of path cells of a grid. *)
Definition row_opens (row : list Z) : nat := length (filter (λ v, v = 0) row).
Definition opens (maze : Grid) : nat := sum_list (row_opens <$> maze).

(** The number of path cells at odd coordinates; [odd] tells whether the
    first cell (the first row) has an odd index. *)
Fixpoint row_open_nodes (odd : bool) (row : list Z) : nat :=
  match row with
  | [] => 0
  | v :: row' =>
      ((if odd && bool_decide (v = 0%Z) then 1 else 0)
       + row_open_nodes (negb odd) row')%nat
  end.

Fixpoint open_nodes_from (odd : bool) (maze : Grid) : nat :=
  match maze with
  | [] => 0
  | row :: maze' =>
      ((if odd then row_open_nodes false row else 0)
       + open_nodes_from (negb odd) maze')%nat
  end.

Definition open_nodes (maze : Grid) : nat := open_nodes_from false maze.

(** Every path cell is a node, or a passage that joins the two nodes to its
    left and right, or the two above and below. *)
Definition laid_out (maze : Grid) : Prop :=
  ∀ x y, is_path maze (x, y) →
    (Z.odd x = true ∧ Z.odd y = true)
    ∨ (Z.odd x = false ∧ Z.odd y = true
       ∧ is_path maze (x - 1, y) ∧ is_path maze (x + 1, y))
    ∨ (Z.odd x = true ∧ Z.odd y = false
       ∧ is_path maze (x, y - 1) ∧ is_path maze (x, y + 1)).

(** The maze of a loop state is laid out as a tree in the making: passages
    between nodes, one passage fewer than nodes. *)
Definition branching (st : LoopState) : Prop :=
  laid_out (maze st) ∧ (opens (maze st) + 1 = 2 * open_nodes (maze st))%nat.

End Walls.

(** ** What one event does to one room *)

Module Changes.

Import Maze Server.
Local Open Scope Z_scope.

(** The room that [createRoom] stores under [roomCode]. *)
Definition fresh_room (roomCode socket playerName : string)
    (maxPlayers totalRounds : option Z) : Room :=
  mkRoom roomCode
         [mkPlayer socket playerName 0 "#FF4136" None None None None None]
         maxPlayers totalRounds 1 waiting None None.

(** The room once [joinRoom] has pushed the new player. *)
Definition seated (socket playerName : string) (room : Room) : Room :=
  set_players (r_players room ++ [newcomer socket playerName room]) room.

(** The room as [startRound] leaves it, on the maze [maze]. *)
Definition started (rt : Runtime) (maze : Grid) (room : Room) : Room :=
  mkRoom (r_id room) (reset_player <$> r_players room) (r_maxPlayers room)
         (r_totalRounds room) (r_currentRound room) playing (Some maze)
         (Some (Date_now rt)).

(** The room as [playerWon] leaves it when the round is over: [players] are
    the players with every one finished, [roundWinner] the [w]-th of them. *)
Definition round_closed (w : nat) (roundWinner : Player)
    (players : list Player) (room : Room) : Room :=
  let roundWinner := set_score (p_score roundWinner + 1) roundWinner in
  let isGrandWinner :=
    num_ge (p_score roundWinner) (Math_ceil_half (r_totalRounds room))
    || num_eq (r_currentRound room) (r_totalRounds room) in
  mkRoom (r_id room) (<[w := roundWinner]> players) (r_maxPlayers room)
         (r_totalRounds room) (r_currentRound room)
         (if isGrandWinner then game_over else round_over)
         (r_maze room) (r_startTime room).

(** The room as [requestPlayAgain] leaves it. *)
Definition lobby_reset (room : Room) : Room :=
  set_status waiting
    (set_players (set_score 0 <$> r_players room) (set_currentRound 1 room)).

(** The ways in which an event of connection [socket] changes the room stored
    under [code], each with the tests the handler has made on the way. *)
Inductive change (rt : Runtime) (socket : string)
    : Event → string → Room → Room → Prop :=
  | change_seat playerName code room :
      r_status room = waiting →
      num_ge (Z.of_nat (length (r_players room))) (r_maxPlayers room) = false →
      num_eq (Z.of_nat (length (r_players room ++ [newcomer socket playerName room])))
             (r_maxPlayers room) = false →
      change rt socket (ev_joinRoom playerName code) code room
             (seated socket playerName room)
  | change_fill playerName code room maze :
      r_status room = waiting →
      num_ge (Z.of_nat (length (r_players room))) (r_maxPlayers room) = false →
      num_eq (Z.of_nat (length (r_players room ++ [newcomer socket playerName room])))
             (r_maxPlayers room) = true →
      generateMaze (sort_order rt) 21 21 = Some maze →
      change rt socket (ev_joinRoom playerName code) code room
             (started rt maze (seated socket playerName room))
  | change_move code position room i player :
      r_status room = playing →
      find_player socket (r_players room) = Some (i, player) →
      change rt socket (ev_playerMove code position) code room
             (set_players
                (<[i := set_position position.1 position.2 player]>
                   (r_players room)) room)
  | change_finish code room i player :
      r_status room = playing →
      find_player socket (r_players room) = Some (i, player) →
      truthy (p_finished player) = false →
      all_finished (crossed rt i player room) = false →
      change rt socket (ev_playerWon code) code room
             (set_players (crossed rt i player room) room)
  | change_close code room i player w roundWinner rest :
      r_status room = playing →
      find_player socket (r_players room) = Some (i, player) →
      truthy (p_finished player) = false →
      all_finished (crossed rt i player room) = true →
      sort (λ a b : nat * Player, by_lastFinishTime a.2 b.2)
           (imap pair (crossed rt i player room)) = (w, roundWinner) :: rest →
      change rt socket (ev_playerWon code) code room
             (round_closed w roundWinner (crossed rt i player room) room)
  | change_next code room maze :
      r_status room = round_over →
      num_lt (r_currentRound room) (r_totalRounds room) = true →
      generateMaze (sort_order rt) 21 21 = Some maze →
      change rt socket (ev_requestNextRound code) code room
             (started rt maze (set_currentRound (r_currentRound room + 1) room))
  | change_again code room :
      change rt socket (ev_requestPlayAgain code) code room (lobby_reset room)
  | change_leave code room i player :
      find_player socket (r_players room) = Some (i, player) →
      length (delete i (r_players room)) ≠ 0%nat →
      change rt socket ev_disconnect code room
             (set_players (delete i (r_players room)) room).

End Changes.

(** ** What the further facts about the server speak of *)

Module Rules.

Import Maze Server Changes.
Local Open Scope Z_scope.

(** The sum of the scores of a player list. *)
Definition total_score (players : list Player) : Z :=
  foldr (λ p sum, p_score p + sum) 0 players.

(** The rounds a room has played to the end since its scores were last zero:
    the current one counts once it is over. *)
Definition rounds_done (room : Room) : Z :=
  match r_status room with
  | waiting | playing => r_currentRound room - 1
  | round_over | game_over => r_currentRound room
  end.

(** The rooms are created for at least one round (or for a [totalRounds]
    that is not a number). *)
Definition sane_rounds (e : Runtime * string * Event) : Prop :=
  match e.2 with
  | ev_createRoom _ _ totalRounds => ∀ t, totalRounds = Some t → 1 ≤ t
  | _ => True
  end.

(** No connection is lost. *)
Definition no_departure (e : Runtime * string * Event) : Prop :=
  e.2 ≠ ev_disconnect.

(** No room is created. *)
Definition no_creation (e : Runtime * string * Event) : Prop :=
  match e.2 with ev_createRoom _ _ _ => False | _ => True end.

(** A lobby with no seat left. *)
Definition full_lobby (room : Room) : Prop :=
  r_status room = waiting
  ∧ num_ge (Z.of_nat (length (r_players room))) (r_maxPlayers room) = true.

(** A round in which nobody is left to finish. *)
Definition stalled (room : Room) : Prop :=
  r_status room = playing ∧ all_finished (r_players room) = true.

(** The identities of the players, in list order. *)
Definition roster (room : Room) : list string := p_id <$> r_players room.

(** What the lobby shows of a player: connection, name and colour. *)
Definition badge (p : Player) : string * string * string :=
  (p_id p, p_name p, p_color p).

Definition badges (room : Room) : list (string * string * string) :=
  badge <$> r_players room.

(** The room code an event carries. *)
Definition event_code (ev : Event) : option string :=
  match ev with
  | ev_joinRoom _ roomCode | ev_playerMove roomCode _ | ev_playerWon roomCode
  | ev_requestNextRound roomCode | ev_requestPlayAgain roomCode => Some roomCode
  | ev_createRoom _ _ _ | ev_disconnect => None
  end.

(** A message for the sender or for the room [roomCode]. *)
Definition addressed_within (roomCode : string) (e : Emit) : Prop :=
  e.1 = to_sender ∨ e.1 = to_room roomCode ∨ e.1 = to_others roomCode.

End Rules.

(** ** The client: moving through the maze and ranking the players *)

Module Client.

Import Maze Server.
Local Open Scope Z_scope.

(** The local player's entry of [currentState.players], as far as
    [handleInput] reads and writes it. *)
Record Me := mkMe { me_x : Z; me_y : Z; me_finished : bool }.

(** What [handleInput] sends to the server. *)
Inductive Sent :=
  | sent_playerMove (position : Pos)
  | sent_playerWon.

(** [maze.length] and [maze[0].length]; the latter is read only behind
    [nextY < maze.length], that is for a maze with a first row. *)
Definition rows (maze : Grid) : Z := Z.of_nat (length maze).
Definition cols (maze : Grid) : Z :=
  Z.of_nat (length (default [] (maze !! 0%nat))).

(** [handleInput(e)] for [e.key = key], with the local player found.  The
    result is the player, what was sent, and whether [handleInput] stays
    registered for [keydown].  Drawing and the timer are left out. *)
Definition handleInput (maze : Grid) (me : Me) (key : string)
    : Me * list Sent * bool :=
  let nextX := me_x me in
  let nextY := me_y me in
  let nextY := if bool_decide (key = "ArrowUp"%string) then nextY - 1 else nextY in
  let nextY := if bool_decide (key = "ArrowDown"%string) then nextY + 1 else nextY in
  let nextX := if bool_decide (key = "ArrowLeft"%string) then nextX - 1 else nextX in
  let nextX := if bool_decide (key = "ArrowRight"%string) then nextX + 1 else nextX in
  if bool_decide (0 ≤ nextY ∧ nextY < rows maze ∧ 0 ≤ nextX ∧ nextX < cols maze)
  then
    if bool_decide (cell maze nextX nextY = Some 0)
    then
      let me := mkMe nextX nextY (me_finished me) in
      let sent := [sent_playerMove (nextX, nextY)] in
      if bool_decide (nextY = rows maze - 2 ∧ nextX = cols maze - 2)
      then
        if negb (me_finished me)
        then (mkMe nextX nextY true, sent ++ [sent_playerWon], false)
        else (me, sent, true)
      else (me, sent, true)
    else (me, [], true)
  else (me, [], true).

(** Where a key would take the player, and what [handleInput] does once
    [nextX] and [nextY] are known. *)
Definition target (me : Me) (key : string) : Pos :=
  let nextX := me_x me in
  let nextY := me_y me in
  let nextY := if bool_decide (key = "ArrowUp"%string) then nextY - 1 else nextY in
  let nextY := if bool_decide (key = "ArrowDown"%string) then nextY + 1 else nextY in
  let nextX := if bool_decide (key = "ArrowLeft"%string) then nextX - 1 else nextX in
  let nextX := if bool_decide (key = "ArrowRight"%string) then nextX + 1 else nextX in
  (nextX, nextY).

Definition arrive (maze : Grid) (me : Me) (next : Pos) : Me * list Sent * bool :=
  if bool_decide (0 ≤ next.2 ∧ next.2 < rows maze ∧ 0 ≤ next.1 ∧ next.1 < cols maze)
  then
    if bool_decide (cell maze next.1 next.2 = Some 0)
    then
      if bool_decide (next.2 = rows maze - 2 ∧ next.1 = cols maze - 2)
      then
        if negb (me_finished me)
        then (mkMe next.1 next.2 true,
              [sent_playerMove (next.1, next.2)] ++ [sent_playerWon], false)
        else (mkMe next.1 next.2 (me_finished me),
              [sent_playerMove (next.1, next.2)], true)
      else (mkMe next.1 next.2 (me_finished me),
            [sent_playerMove (next.1, next.2)], true)
    else (me, [], true)
  else (me, [], true).

(** The client during a round: the local player, whether [handleInput] is
    registered, and everything sent so far. *)
Record Session := mkSession {
  me : Me;
  listening : bool;
  outbox : list Sent
}.

(** A key press: [handleInput] runs if it is registered. *)
Definition keydown (maze : Grid) (s : Session) (key : string) : Session :=
  if listening s
  then
    let '(me', sent, stay) := handleInput maze (me s) key in
    mkSession me' stay (outbox s ++ sent)
  else s.

(** The session after the countdown of a round: the player as [startRound]
    has sent it, and [handleInput] registered. *)
Definition kickoff : Session := mkSession (mkMe 1 1 false) true [].

Definition play (maze : Grid) (keys : list string) (s : Session) : Session :=
  foldl (keydown maze) s keys.

Definition position (s : Session) : Pos := (me_x (me s), me_y (me s)).

(** The exit as the client sees it. *)
Definition finish_line (maze : Grid) : Pos := (cols maze - 2, rows maze - 2).

#[global] Instance Sent_eq_dec : EqDecision Sent.
Proof. solve_decision. Defined.

(** How often the finish was signalled. *)
Definition wins (sent : list Sent) : nat :=
  length (filter (λ m, m = sent_playerWon) sent).

(** The two states of a round on the client: running, with nothing signalled,
    or home, with the finish signalled once and the keys switched off. *)
Definition running (s : Session) : Prop :=
  listening s = true ∧ me_finished (me s) = false ∧ wins (outbox s) = 0%nat.

Definition home (maze : Grid) (s : Session) : Prop :=
  listening s = false ∧ me_finished (me s) = true ∧ wins (outbox s) = 1%nat
  ∧ position s = finish_line maze.

(** The comparator [(a, b) => b.score - a.score] of [showGameOver]. *)
Definition by_score (a b : Player) : option Q :=
  Some (inject_Z (p_score b - p_score a)).

(** [[...players].sort((a, b) => b.score - a.score)] and its first element,
    the grand champion. *)
Definition ranking (players : list Player) : list Player := sort by_score players.

Definition champion (players : list Player) : option Player :=
  head (ranking players).

End Client.

(** ** Facts about the maze generator *)

Section maze_grid.
Import Maze.
Local Open Scope Z_scope.

Variables width height : Z.

Lemma cell_inside (m : Grid) x y v :
  shape width height m → cell m x y = Some v →
  0 ≤ x < width ∧ 0 ≤ y < height.
Proof.
  intros [Hlen Hrows]. unfold cell. case_bool_decide as Hxy; [|done].
  destruct (m !! Z.to_nat y) as [row|] eqn:Hrow; simpl; [|done].
  intros Hx.
  apply lookup_lt_Some in Hx.
  pose proof (lookup_lt_Some _ _ _ Hrow) as Hy.
  rewrite Forall_forall in Hrows.
  rewrite (Hrows row) in Hx by (eapply list_elem_of_lookup_2; eauto).
  lia.
Qed.

Lemma cell_is_Some (m : Grid) x y :
  shape width height m → 0 ≤ x < width → 0 ≤ y < height →
  is_Some (cell m x y).
Proof.
  intros [Hlen Hrows] Hx Hy. unfold cell.
  rewrite bool_decide_eq_true_2 by lia.
  destruct (lookup_lt_is_Some_2 m (Z.to_nat y)) as [row Hrow]; [lia|].
  rewrite Hrow. simpl. apply lookup_lt_is_Some_2.
  rewrite Forall_forall in Hrows.
  rewrite (Hrows row) by (eapply list_elem_of_lookup_2; eauto). lia.
Qed.

Lemma row_walls_insert (row : list Z) (i : nat) (v : Z) :
  row !! i = Some v →
  (row_walls (<[i := 0%Z]> row) + (if bool_decide (v = 1%Z) then 1 else 0)
   = row_walls row)%nat.
Proof.
  unfold row_walls. revert i. induction row as [|a row IH]; intros [|i] Hi;
    simplify_eq/=.
  - rewrite !filter_cons. case_bool_decide; subst.
    + rewrite decide_False by done. rewrite decide_True by done. simpl. lia.
    + rewrite decide_False by done. rewrite decide_False by done. simpl. lia.
  - rewrite !filter_cons. specialize (IH i Hi).
    destruct (decide (a = 1)); simpl; lia.
Qed.

Lemma walls_insert (m : Grid) (j : nat) (row row' : list Z) :
  m !! j = Some row →
  (walls (<[j := row']> m) + row_walls row = walls m + row_walls row')%nat.
Proof.
  unfold walls. revert j. induction m as [|a m IH]; intros [|j] Hj;
    simplify_eq/=; [lia|].
  specialize (IH j Hj). lia.
Qed.

Lemma walls_bound (m : Grid) :
  shape width height m → (walls m ≤ Z.to_nat width * Z.to_nat height)%nat.
Proof.
  intros [Hlen Hrows]. rewrite <- Hlen. clear Hlen. unfold walls.
  induction Hrows as [|row m Hrow _ IH]; csimpl; [lia|].
  assert (row_walls row ≤ length row)%nat by apply length_filter.
  rewrite Nat.mul_succ_r. lia.
Qed.

(** The effect of [maze[y][x] = 0] inside the grid, read back cell by cell. *)
Lemma carve_spec (m : Grid) x y :
  shape width height m → 0 ≤ x < width → 0 ≤ y < height →
  ∃ m', carve m x y = Some m' ∧ shape width height m'
    ∧ (∀ x' y', cell m' x' y' =
         if bool_decide (x' = x ∧ y' = y) then Some 0 else cell m x' y')
    ∧ (walls m' ≤ walls m)%nat
    ∧ (cell m x y = Some 1 → (walls m' < walls m)%nat).
Proof.
  intros Hshape Hx Hy. pose proof Hshape as [Hlen Hrows].
  destruct (lookup_lt_is_Some_2 m (Z.to_nat y)) as [row Hrow]; [lia|].
  assert (Hrowlen : length row = Z.to_nat width).
  { rewrite Forall_forall in Hrows. apply Hrows.
    eapply list_elem_of_lookup_2; eauto. }
  destruct (lookup_lt_is_Some_2 row (Z.to_nat x)) as [v Hv]; [lia|].
  unfold carve. rewrite bool_decide_eq_true_2 by lia. rewrite Hrow. simpl.
  rewrite bool_decide_eq_true_2 by lia.
  eexists. split; [done|]. split; [|split; [|split]].
  - split; [by rewrite length_insert|].
    apply Forall_insert; [done|]. by rewrite length_insert.
  - intros x' y'. unfold cell.
    case_bool_decide as Hnn; [|by rewrite bool_decide_eq_false_2 by lia].
    destruct (decide (y' = y)) as [->|Hne].
    + rewrite list_lookup_insert_eq by lia. simpl.
      destruct (decide (x' = x)) as [->|Hnx].
      * rewrite bool_decide_eq_true_2 by done.
        apply list_lookup_insert_eq. lia.
      * rewrite bool_decide_eq_false_2 by tauto.
        rewrite Hrow. simpl. apply list_lookup_insert_ne. lia.
    + rewrite bool_decide_eq_false_2 by tauto.
      rewrite list_lookup_insert_ne by lia. done.
  - pose proof (walls_insert m (Z.to_nat y) row (<[Z.to_nat x := 0]> row) Hrow).
    pose proof (row_walls_insert row (Z.to_nat x) v Hv). lia.
  - intros Hc. unfold cell in Hc. rewrite bool_decide_eq_true_2 in Hc by lia.
    rewrite Hrow in Hc. simpl in Hc. rewrite Hv in Hc. simplify_eq.
    pose proof (walls_insert m (Z.to_nat y) row (<[Z.to_nat x := 0]> row) Hrow).
    pose proof (row_walls_insert row (Z.to_nat x) 1 Hv) as Hw.
    rewrite bool_decide_eq_true_2 in Hw by done. lia.
Qed.

End maze_grid.

Section maze_loop.
Import Maze.
Local Open Scope Z_scope.

Variables (sh : nat → nat) (width height : Z).

Lemma shuffle_perm choice (ds : list Pos) : shuffle choice ds ≡ₚ ds.
Proof.
  unfold shuffle.
  destruct (permutations ds !! _) as [ds'|] eqn:Hds; simpl; [|done].
  symmetry. apply permutations_Permutation.
  eapply list_elem_of_lookup_2; eauto.
Qed.

Lemma directions_halves (d : Pos) :
  d ∈ directions →
  ∃ a b, d = (2 * a, 2 * b) ∧ d.1 / 2 = a ∧ d.2 / 2 = b
         ∧ ((a = 0 ∧ Z.abs b = 1) ∨ (Z.abs a = 1 ∧ b = 0)).
Proof.
  unfold directions. rewrite !elem_of_cons, elem_of_nil.
  intros [->|[->|[->|[->|[]]]]].
  - exists 0, (-1). repeat split; auto.
  - exists 0, 1. repeat split; auto.
  - exists (-1), 0. repeat split; auto.
  - exists 1, 0. repeat split; auto.
Qed.

Lemma connected_mono (m m' : Grid) p q :
  (∀ r, is_path m r → is_path m' r) → connected m p q → connected m' p q.
Proof.
  intros Hmono. induction 1.
  - apply connected_here. auto.
  - eapply connected_step; eauto.
Qed.

Lemma validNeighbors_head (m : Grid) (current : Pos) ds next tl :
  validNeighbors width height m current ds = next :: tl →
  ∃ d, d ∈ ds
    ∧ next = mkNeighbor (current.1 + d.1) (current.2 + d.2) (d.1 / 2) (d.2 / 2)
    ∧ 0 < current.1 + d.1 < width - 1 ∧ 0 < current.2 + d.2 < height - 1
    ∧ cell m (current.1 + d.1) (current.2 + d.2) = Some 1.
Proof.
  intros Hvn.
  assert (Hin : next ∈ validNeighbors width height m current ds)
    by (rewrite Hvn; left).
  unfold validNeighbors in Hin. apply list_elem_of_omap in Hin as (d & Hd & Hf).
  exists d. split; [done|]. simpl in Hf.
  case_bool_decide as Hc; [|done]. simplify_eq. intuition lia.
Qed.

Lemma validNeighbors_nil (m : Grid) (current : Pos) ds d :
  validNeighbors width height m current ds = [] → d ∈ ds →
  0 < current.1 + d.1 < width - 1 → 0 < current.2 + d.2 < height - 1 →
  cell m (current.1 + d.1) (current.2 + d.2) ≠ Some 1.
Proof.
  intros Hvn Hd Hx Hy Hc.
  assert (Hin : mkNeighbor (current.1 + d.1) (current.2 + d.2)
                  (d.1 / 2) (d.2 / 2)
                ∈ validNeighbors width height m current ds).
  { unfold validNeighbors. apply list_elem_of_omap. exists d. split; [done|].
    simpl. rewrite bool_decide_eq_true_2; [done|]. intuition lia. }
  rewrite Hvn in Hin. by apply elem_of_nil in Hin.
Qed.

(** One iteration keeps the invariant and consumes the measure. *)
Lemma iteration_invariant st current rest :
  loop_invariant width height st → stack st = current :: rest →
  ∃ st', iteration sh width height st current rest = Some st'
    ∧ loop_invariant width height st' ∧ (measure st' < measure st)%nat.
Proof.
  intros Inv Hst. unfold iteration.
  set (ds := shuffle (sh (shuffles st)) (dirs st)).
  assert (Hds : ds ≡ₚ directions).
  { unfold ds. rewrite shuffle_perm. apply Inv. }
  pose proof (inv_stack _ _ _ Inv) as Hstack. rewrite Hst in Hstack.
  apply Forall_cons in Hstack as [[Hnode Hcur] Hrest].
  destruct current as [cx cy]. destruct Hnode as (Hox & Hoy & Hcx & Hcy).
  simpl in *.
  destruct (validNeighbors width height (maze st) (cx, cy) ds)
    as [|next tl] eqn:Hvn.
  - (* no wall two cells away: pop *)
    eexists. split; [done|]. split.
    + constructor; simpl; try apply Inv; try done.
      intros p Hp Hpath.
      destruct (inv_done _ _ _ Inv p Hp Hpath) as [Hin|Hall]; [|by right].
      rewrite Hst in Hin. apply elem_of_cons in Hin as [->|Hin]; [|by left].
      right. intros d Hd (_ & _ & Hnx & Hny). simpl in *.
      assert (Hd' : d ∈ ds) by (by rewrite Hds).
      pose proof (validNeighbors_nil _ _ _ _ Hvn Hd' Hnx Hny) as Hne.
      simpl in Hne.
      destruct (cell_is_Some width height (maze st) (cx + d.1) (cy + d.2))
        as [v Hv]; [apply Inv | lia | lia |].
      unfold is_path. simpl.
      destruct (inv_bits _ _ _ Inv _ _ _ Hv) as [->| ->]; [done|].
      by destruct Hne.
    + unfold measure. simpl. rewrite Hst. simpl. lia.
  - (* carve the neighbour and the cell in between, push *)
    apply validNeighbors_head in Hvn as (d & Hd & -> & Hnx & Hny & Hwall).
    simpl in *.
    assert (Hdd : d ∈ directions) by (by rewrite <- Hds).
    apply directions_halves in Hdd as (a & b & -> & -> & -> & Hab).
    simpl in *.
    destruct (carve_spec width height (maze st) (cx + 2 * a) (cy + 2 * b))
      as (m1 & -> & Hshape1 & Hcell1 & Hw1 & Hw1'); [apply Inv | lia | lia |].
    simpl.
    destruct (carve_spec width height m1 (cx + a) (cy + b))
      as (m2 & -> & Hshape2 & Hcell2 & Hw2 & _); [done | lia | lia |].
    simpl. eexists. split; [done|].
    assert (Hcell : ∀ x y, cell m2 x y =
      if bool_decide ((x = cx + a ∧ y = cy + b)
                      ∨ (x = cx + 2 * a ∧ y = cy + 2 * b))
      then Some 0 else cell (maze st) x y).
    { intros x y. rewrite Hcell2, Hcell1.
      repeat case_bool_decide; try done; tauto. }
    assert (Hmono : ∀ r, is_path (maze st) r → is_path m2 r).
    { intros [x y]. unfold is_path. simpl. rewrite Hcell.
      by case_bool_decide. }
    assert (Hbetween : is_path m2 (cx + a, cy + b)).
    { unfold is_path. simpl. rewrite Hcell.
      rewrite bool_decide_eq_true_2; [done|]. by left. }
    assert (Hnext : is_path m2 (cx + 2 * a, cy + 2 * b)).
    { unfold is_path. simpl. rewrite Hcell.
      rewrite bool_decide_eq_true_2; [done|]. by right. }
    split.
    + constructor; simpl.
      * done.
      * done.
      * intros x y v. rewrite Hcell.
        case_bool_decide; [intros [= <-]; by left | apply Inv].
      * constructor.
        { split; [|done]. unfold node. simpl.
          rewrite !Z.odd_add_mul_2. repeat split; auto; lia. }
        rewrite <- Hst. eapply Forall_impl; [apply Inv|].
        intros r [? ?]. split; auto.
      * apply Hmono, Inv.
      * assert (Hb : connected m2 (1, 1) (cx + a, cy + b)).
        { eapply connected_step; [| |exact Hbetween].
          - eapply connected_mono; [exact Hmono|]. apply Inv. exact Hcur.
          - unfold adjacent. simpl. lia. }
        intros [x y] Hp. unfold is_path in Hp. simpl in Hp.
        rewrite Hcell in Hp. case_bool_decide as Hc.
        -- destruct Hc as [[-> ->] | [-> ->]]; [done|].
           eapply connected_step; [exact Hb| |exact Hnext].
           unfold adjacent. simpl. lia.
        -- eapply connected_mono; [exact Hmono|]. by apply Inv.
      * intros [x y] Hp Hpath. unfold is_path in Hpath. simpl in Hpath.
        rewrite Hcell in Hpath. case_bool_decide as Hc.
        -- destruct Hc as [[-> ->] | [-> ->]]; [|left; left].
           exfalso. destruct Hp as (Hpx & Hpy & _). simpl in *.
           destruct Hab as [[-> Hb1] | [Ha1 ->]].
           ++ assert (b = 1 ∨ b = -1) as [-> | ->] by lia;
                rewrite Z.odd_add, Hoy in Hpy; done.
           ++ assert (a = 1 ∨ a = -1) as [-> | ->] by lia;
                rewrite Z.odd_add, Hox in Hpx; done.
        -- destruct (inv_done _ _ _ Inv (x, y) Hp Hpath) as [Hin | Hall].
           ++ left. rewrite Hst in Hin. by right.
           ++ right. intros d Hd' Hn. apply Hmono. by apply Hall.
    + unfold measure. simpl. rewrite Hst. simpl.
      specialize (Hw1' Hwall). lia.
Qed.

(** The loop ends, with the invariant, once the fuel covers the measure. *)
Lemma loop_terminates fuel st :
  loop_invariant width height st → (measure st ≤ fuel)%nat →
  ∃ st', loop sh width height fuel st = Some (maze st')
    ∧ loop_invariant width height st' ∧ stack st' = [].
Proof.
  revert st. induction fuel as [|fuel IH]; intros st Inv Hm.
  - destruct (stack st) as [|current rest] eqn:Hst.
    + exists st. simpl. by rewrite Hst.
    + unfold measure in Hm. rewrite Hst in Hm. simpl in Hm. lia.
  - simpl. destruct (stack st) as [|current rest] eqn:Hst; [by exists st|].
    destruct (iteration_invariant st current rest Inv Hst)
      as (st' & -> & Inv' & Hlt).
    simpl. apply IH; [done|lia].
Qed.

(** With an empty stack every node has been carved: the walk from (1,1)
    along the top row and then down a column never meets a wall. *)
Lemma backtracker_complete st :
  loop_invariant width height st → stack st = [] →
  ∀ p, node width height p → is_path (maze st) p.
Proof.
  intros Inv Hst.
  assert (Hstep : ∀ x y dx dy, (dx, dy) ∈ directions →
    node width height (x, y) → is_path (maze st) (x, y) →
    node width height (x + dx, y + dy) → is_path (maze st) (x + dx, y + dy)).
  { intros x y dx dy Hd Hp Hpath Hn.
    destruct (inv_done _ _ _ Inv (x, y) Hp Hpath) as [Hin|Hall].
    - rewrite Hst in Hin. by apply elem_of_nil in Hin.
    - by apply (Hall (dx, dy)). }
  assert (Hrow : ∀ i : nat, node width height (1 + 2 * Z.of_nat i, 1) →
    is_path (maze st) (1 + 2 * Z.of_nat i, 1)).
  { induction i as [|i IH]; intros Hn; [apply Inv|].
    replace (1 + 2 * Z.of_nat (S i), 1)
      with (1 + 2 * Z.of_nat i + 2, 1 + 0) by (f_equal; lia).
    assert (Hprev : node width height (1 + 2 * Z.of_nat i, 1)).
    { destruct Hn as (_ & _ & Hx & Hy). unfold node. simpl in *.
      rewrite Z.odd_add_mul_2. repeat split; auto; lia. }
    apply Hstep; auto.
    - unfold directions. rewrite !elem_of_cons. auto 10.
    - replace (1 + 2 * Z.of_nat i + 2, 1 + 0)
        with (1 + 2 * Z.of_nat (S i), 1) by (f_equal; lia). done. }
  assert (Hcol : ∀ (j : nat) x, node width height (x, 1 + 2 * Z.of_nat j) →
    is_path (maze st) (x, 1 + 2 * Z.of_nat j)).
  { induction j as [|j IH]; intros x Hn.
    - destruct Hn as (Hox & Hoy & Hx & Hy). simpl in *.
      apply Z.odd_spec in Hox as [k ->].
      replace (2 * k + 1) with (1 + 2 * Z.of_nat (Z.to_nat k)) by lia.
      apply Hrow. unfold node. simpl.
      rewrite Z.odd_add_mul_2. repeat split; auto; lia.
    - replace (x, 1 + 2 * Z.of_nat (S j))
        with (x + 0, 1 + 2 * Z.of_nat j + 2) by (f_equal; lia).
      assert (Hprev : node width height (x, 1 + 2 * Z.of_nat j)).
      { destruct Hn as (Hox & _ & Hx & Hy). unfold node. simpl in *.
        rewrite Z.odd_add_mul_2. repeat split; auto; lia. }
      apply Hstep; auto.
      + unfold directions. rewrite !elem_of_cons. auto 10.
      + replace (x + 0, 1 + 2 * Z.of_nat j + 2)
          with (x, 1 + 2 * Z.of_nat (S j)) by (f_equal; lia). done. }
  intros [x y] Hn. pose proof Hn as (_ & Hoy & _ & Hy). simpl in *.
  apply Z.odd_spec in Hoy as [k Hk]. subst y.
  replace (2 * k + 1) with (1 + 2 * Z.of_nat (Z.to_nat k)) in * by lia.
  by apply Hcol.
Qed.

End maze_loop.

Section maze_result.
Import Maze.
Local Open Scope Z_scope.

Variables (sh : nat → nat) (width height : Z).

Lemma cell_replicate x y v :
  cell (replicate (Z.to_nat height) (replicate (Z.to_nat width) 1)) x y
    = Some v → v = 1.
Proof.
  unfold cell. case_bool_decide; [|done].
  destruct (replicate _ _ !! Z.to_nat y) as [row|] eqn:Hrow; [|done]. simpl.
  apply lookup_replicate in Hrow as [-> _].
  intros Hv. by apply lookup_replicate in Hv as [-> _].
Qed.

Lemma shape_replicate :
  shape width height (replicate (Z.to_nat height) (replicate (Z.to_nat width) 1)).
Proof.
  split; [by rewrite length_replicate|].
  apply Forall_replicate. by rewrite length_replicate.
Qed.

(** The state in which the loop is entered. *)
Lemma loop_entry :
  3 ≤ width → 3 ≤ height →
  ∃ m, carve (replicate (Z.to_nat height) (replicate (Z.to_nat width) 1)) 1 1
         = Some m
    ∧ loop_invariant width height (mkLoop 0 directions m [(1, 1)])
    ∧ (measure (mkLoop 0 directions m [(1%Z, 1%Z)])
       ≤ 2 * Z.to_nat width * Z.to_nat height)%nat.
Proof.
  intros Hw Hh.
  destruct (carve_spec width height _ 1 1 shape_replicate)
    as (m & Hm & Hshape & Hcell & Hwalls & _); [lia|lia|].
  exists m. split; [done|].
  assert (Hstart : is_path m (1, 1)).
  { unfold is_path. simpl. rewrite Hcell. by rewrite bool_decide_eq_true_2. }
  assert (Honly : ∀ p, is_path m p → p = (1, 1)).
  { intros [x y]. unfold is_path. simpl. rewrite Hcell.
    case_bool_decide as Hc; [intros _; f_equal; tauto|].
    intros Hv. by apply cell_replicate in Hv. }
  split.
  - constructor; simpl; auto.
    + intros x y v. rewrite Hcell.
      case_bool_decide; [intros [= <-]; by left|].
      intros Hv. right. by apply cell_replicate in Hv.
    + constructor; [|done]. split; [|done].
      unfold node. simpl. repeat split; lia.
    + intros p Hp. rewrite (Honly p Hp). by apply connected_here.
    + intros p _ Hp. left. rewrite (Honly p Hp). left.
  - unfold measure. simpl.
    assert (cell (replicate (Z.to_nat height) (replicate (Z.to_nat width) 1))
              1 1 = Some 1) as Hone.
    { destruct (cell_is_Some width height _ 1 1 shape_replicate) as [v Hv];
        [lia|lia|].
      by rewrite Hv, (cell_replicate _ _ _ Hv). }
    destruct (carve_spec width height _ 1 1 shape_replicate)
      as (m' & Hm' & _ & _ & _ & Hlt); [lia|lia|].
    rewrite Hm in Hm'. injection Hm' as <-. specialize (Hlt Hone).
    pose proof (walls_bound width height _ shape_replicate). lia.
Qed.

(** The generator returns, and what it returns can be walked from the
    start to the exit.  Odd sizes from 3 on are enough for that. *)
Lemma generateMaze_walkable :
  Z.odd width = true → Z.odd height = true → 3 ≤ width → 3 ≤ height →
  ∃ m, generateMaze sh width height = Some m
    ∧ length m = Z.to_nat height
    ∧ Forall (λ row, length row = Z.to_nat width) m
    ∧ cell m 1 1 = Some 0
    ∧ cell m (width - 2) (height - 2) = Some 0
    ∧ connected m (1, 1) (width - 2, height - 2).
Proof.
  intros How Hoh Hw Hh. unfold generateMaze.
  destruct loop_entry as (m0 & -> & Inv0 & Hfuel); [lia|lia|].
  cbv beta iota delta [mbind option_bind].
  destruct (loop_terminates sh width height _ _ Inv0 Hfuel)
    as (st & -> & Inv & Hst).
  assert (Hexit : is_path (maze st) (width - 2, height - 2)).
  { apply (backtracker_complete width height st Inv Hst).
    unfold node. simpl.
    replace (width - 2) with (width + 2 * (-1)) by lia.
    replace (height - 2) with (height + 2 * (-1)) by lia.
    rewrite !Z.odd_add_mul_2. repeat split; auto; lia. }
  destruct (carve_spec width height (maze st) (width - 2) (height - 2))
    as (m & -> & [Hlen Hrows] & Hcell & _); [apply Inv|lia|lia|].
  exists m. split; [done|].
  assert (Hmono : ∀ r, is_path (maze st) r → is_path m r).
  { intros [x y]. unfold is_path. simpl. rewrite Hcell.
    by case_bool_decide. }
  repeat split; auto.
  - apply (Hmono (1, 1)), Inv.
  - by apply (Hmono (width - 2, height - 2)).
  - eapply connected_mono; [exact Hmono|]. by apply Inv.
Qed.

(** C1. For odd [width], [height >= 5], [generateMaze] returns a grid of
    [height] rows of [width] cells in which (1,1) and (width-2, height-2)
    are path cells joined by a walk over adjacent path cells, whatever
    orders the shuffles produce. *)
Theorem generateMaze_solvable :
  Z.odd width = true → Z.odd height = true → 5 ≤ width → 5 ≤ height →
  ∃ m, generateMaze sh width height = Some m
    ∧ length m = Z.to_nat height
    ∧ Forall (λ row, length row = Z.to_nat width) m
    ∧ cell m 1 1 = Some 0
    ∧ cell m (width - 2) (height - 2) = Some 0
    ∧ connected m (1, 1) (width - 2, height - 2).
Proof.
  intros How Hoh Hw Hh. apply generateMaze_walkable; auto; lia.
Qed.

End maze_result.

Lemma generateMaze_solvable_witness :
  ∃ m, Maze.generateMaze (λ n, n) 5 7 = Some m
    ∧ length m = 7%nat
    ∧ Forall (λ row, length row = 5%nat) m
    ∧ Maze.cell m 1 1 = Some 0%Z
    ∧ Maze.cell m 3 5 = Some 0%Z
    ∧ Maze.connected m (1, 1)%Z (3, 5)%Z.
Proof.
  apply (generateMaze_solvable (λ n, n) 5 7); [reflexivity|reflexivity|lia|lia].
Defined.

(** ** Facts about rounds: start and join *)

Section round_start.
Import Maze Server.
Local Open Scope Z_scope.

(** The rooms play on 21 by 21 mazes, which [generateMaze] always delivers. *)
Lemma round_maze (sh : nat → nat) : ∃ maze, generateMaze sh 21 21 = Some maze.
Proof.
  destruct (generateMaze_walkable sh 21 21) as (m & Hm & _);
    [reflexivity|reflexivity|lia|lia|].
  by exists m.
Qed.

(** What [startRound] makes of an existing room. *)
Lemma startRound_lookup rt roomCode rooms room :
  rooms !! roomCode = Some room →
  ∃ maze, generateMaze (sort_order rt) 21 21 = Some maze
    ∧ startRound rt roomCode rooms =
        (<[roomCode :=
             mkRoom (r_id room) (reset_player <$> r_players room)
                    (r_maxPlayers room) (r_totalRounds room)
                    (r_currentRound room) playing (Some maze)
                    (Some (Date_now rt))]> rooms,
         [(to_room roomCode,
           gameStart maze (r_currentRound room)
                     (reset_player <$> r_players room) (Date_now rt)
                     roomCode)]).
Proof.
  intros Hroom. destruct (round_maze (sort_order rt)) as [maze Hmaze].
  exists maze. split; [done|]. unfold startRound. by rewrite Hroom, Hmaze.
Qed.

(** C10. [startRound] writes, in the room it starts, the status, the maze
    and the start time, and in each player the position, the finished flag
    and [finishTime]; the room's other fields, the other rooms, and every
    player's id, name, score, color and [lastFinishTime] stay as they
    were. *)
Theorem startRound_frame rt roomCode rooms room :
  rooms !! roomCode = Some room →
  ∃ room',
    (startRound rt roomCode rooms).1 = <[roomCode := room']> rooms
    ∧ r_id room' = r_id room
    ∧ r_maxPlayers room' = r_maxPlayers room
    ∧ r_totalRounds room' = r_totalRounds room
    ∧ r_currentRound room' = r_currentRound room
    ∧ length (r_players room') = length (r_players room)
    ∧ ∀ i p, r_players room !! i = Some p →
        ∃ p', r_players room' !! i = Some p'
          ∧ p_id p' = p_id p ∧ p_name p' = p_name p
          ∧ p_score p' = p_score p ∧ p_color p' = p_color p
          ∧ p_lastFinishTime p' = p_lastFinishTime p.
Proof.
  intros Hroom.
  destruct (startRound_lookup rt roomCode rooms room Hroom) as (maze & _ & ->).
  eexists. split; [done|]. simpl. repeat split; auto.
  - by rewrite length_fmap.
  - intros i p Hp. exists (reset_player p). split; [|done].
    by rewrite list_lookup_fmap, Hp.
Qed.

(** A join that passes the three tests. *)
Lemma joinRoom_accepted rt socket playerName roomCode rooms room :
  rooms !! roomCode = Some room →
  r_status room = waiting →
  num_ge (Z.of_nat (length (r_players room))) (r_maxPlayers room) = false →
  joinRoom rt socket playerName roomCode rooms =
    let room' :=
      set_players (r_players room ++ [newcomer socket playerName room]) room in
    let joined :=
      (to_room roomCode,
       playerJoined (r_players room') roomCode (r_maxPlayers room)) in
    if num_eq (Z.of_nat (length (r_players room'))) (r_maxPlayers room)
    then ((startRound rt roomCode (<[roomCode := room']> rooms)).1,
          joined :: (startRound rt roomCode (<[roomCode := room']> rooms)).2)
    else (<[roomCode := room']> rooms, [joined]).
Proof.
  intros Hroom Hwait Hfull. unfold joinRoom.
  rewrite Hroom, Hwait, Hfull. cbv zeta.
  rewrite bool_decide_eq_true_2 by done. cbn [negb].
  change (r_maxPlayers (set_players _ room)) with (r_maxPlayers room).
  fold (newcomer socket playerName room).
  destruct (num_eq _ _); [|done]. by destruct (startRound _ _ _).
Qed.

(** The next round starts with the scores and the last finish times of the
    round before. *)
Lemma requestNextRound_carries rt roomCode rooms room :
  rooms !! roomCode = Some room →
  r_status room = round_over →
  num_lt (r_currentRound room) (r_totalRounds room) = true →
  ∃ room',
    (requestNextRound rt roomCode rooms).1 !! roomCode = Some room'
    ∧ r_status room' = playing
    ∧ r_currentRound room' = r_currentRound room + 1
    ∧ p_score <$> r_players room' = p_score <$> r_players room
    ∧ p_lastFinishTime <$> r_players room'
      = p_lastFinishTime <$> r_players room.
Proof.
  intros Hroom Hover Hmore. unfold requestNextRound.
  rewrite Hroom, Hover, Hmore. rewrite bool_decide_eq_true_2 by done.
  cbn [negb].
  match goal with |- context [startRound rt roomCode ?rs] =>
    destruct (startRound_lookup rt roomCode rs
                (set_currentRound (r_currentRound room + 1) room))
      as (maze & _ & ->); [by rewrite lookup_insert_eq|]
  end.
  cbn [fst]. rewrite lookup_insert_eq. eexists. split; [done|].
  cbn [r_status r_currentRound r_players set_currentRound].
  repeat split; auto; rewrite <- list_fmap_compose; by apply list_fmap_ext.
Qed.

(** C6. A join that fills the room starts the round by itself: the room is
    playing on a freshly generated maze, the start time is the clock's, and
    every player, the new one included, stands on (1,1). *)
Theorem joinRoom_autostart rt socket playerName roomCode rooms room :
  rooms !! roomCode = Some room →
  r_status room = waiting →
  r_maxPlayers room = Some (Z.of_nat (length (r_players room)) + 1) →
  ∃ room' maze sent,
    joinRoom rt socket playerName roomCode rooms
      = (<[roomCode := room']> rooms,
         [(to_room roomCode, sent);
          (to_room roomCode,
           gameStart maze (r_currentRound room) (r_players room')
                     (Date_now rt) roomCode)])
    ∧ r_status room' = playing
    ∧ r_maze room' = Some maze
    ∧ generateMaze (sort_order rt) 21 21 = Some maze
    ∧ r_startTime room' = Some (Date_now rt)
    ∧ r_maxPlayers room' = Some (Z.of_nat (length (r_players room')))
    ∧ (∃ joined, r_players room' = (reset_player <$> r_players room) ++ [joined]
                 ∧ p_id joined = socket ∧ p_name joined = playerName)
    ∧ Forall (λ p, p_x p = Some 1 ∧ p_y p = Some 1) (r_players room').
Proof.
  intros Hroom Hwait Hmax.
  rewrite (joinRoom_accepted _ _ _ _ _ _ Hroom Hwait)
    by (rewrite Hmax; apply bool_decide_eq_false_2; lia).
  cbv zeta. cbn [r_players set_players]. rewrite Hmax.
  unfold num_eq. rewrite bool_decide_eq_true_2
    by (rewrite length_app; simpl; lia).
  match goal with |- context [startRound rt roomCode ?rs] =>
    destruct (startRound_lookup rt roomCode rs
                (set_players (r_players room ++ [newcomer socket playerName room])
                             room))
      as (maze & Hmaze & ->); [by rewrite lookup_insert_eq|]
  end.
  cbn [fst snd r_players set_players r_id r_maxPlayers r_totalRounds
       r_currentRound].
  rewrite insert_insert_eq, fmap_app.
  eexists (mkRoom _ _ _ _ _ _ _ _), maze, _. split; [reflexivity|].
  cbn [r_status r_maze r_startTime r_maxPlayers r_players].
  repeat split; auto.
  - rewrite Hmax, length_app, length_fmap. simpl. f_equal. lia.
  - by eexists.
  - apply Forall_app. split.
    + apply Forall_fmap. by apply Forall_true.
    + by repeat constructor.
Qed.

(** C5, as the code has it.  A join into a room that already has
    [maxPlayers] players changes nothing and sends the joining client one
    error: "Room is full" while the room is waiting, and "Game already in
    progress" otherwise, because the status is tested first. *)
Theorem joinRoom_full rt socket playerName roomCode rooms room :
  rooms !! roomCode = Some room →
  r_maxPlayers room = Some (Z.of_nat (length (r_players room))) →
  joinRoom rt socket playerName roomCode rooms
    = (rooms,
       [(to_sender,
         error (if bool_decide (r_status room = waiting)
                then "Room is full" else "Game already in progress"))]).
Proof.
  intros Hroom Hmax. unfold joinRoom. rewrite Hroom.
  case_bool_decide; simpl; [|done].
  rewrite Hmax. simpl. by rewrite bool_decide_eq_true_2 by lia.
Qed.

End round_start.

(** ** Facts about the stable sort *)

Section stable_sort.
Import Server.
Context {A : Type} (comparator : A → A → option Q) (key : A → Q).

Lemma place_length a (l : list A) :
  length (place comparator a l) = S (length l).
Proof.
  induction l as [|b l IH]; simpl; [done|].
  destruct (sorts_after comparator a b); simpl; [by rewrite IH|done].
Qed.

Lemma sort_length (l : list A) : length (sort comparator l) = length l.
Proof.
  induction l as [|a l IH]; simpl; [done|].
  fold (sort comparator l). by rewrite place_length, IH.
Qed.

Lemma sorts_after_key a b :
  comparator a b = Some (key a - key b)%Q →
  sorts_after comparator a b = true ↔ (key b < key a)%Q.
Proof.
  intros Hc. unfold sorts_after. rewrite Hc.
  rewrite negb_true_iff, <- not_true_iff_false, Qle_bool_iff.
  split; intros H; lra.
Qed.

Lemma place_perm a (l : list A) : place comparator a l ≡ₚ a :: l.
Proof.
  induction l as [|b l IH]; simpl; [done|].
  destruct (sorts_after comparator a b); [|done].
  rewrite IH. apply perm_swap.
Qed.

Lemma sort_perm (l : list A) : sort comparator l ≡ₚ l.
Proof.
  induction l as [|a l IH]; simpl; [done|].
  fold (sort comparator l). by rewrite place_perm, IH.
Qed.

(** Under a comparator that is the difference of keys the result is in
    ascending order of the keys. *)
Lemma sort_sorted (l : list A) :
  (∀ b c, b ∈ l → c ∈ l → comparator b c = Some (key b - key c)%Q) →
  StronglySorted (λ a b, (key a <= key b)%Q) (sort comparator l).
Proof.
  induction l as [|x l IH]; intros Hkey; simpl; [constructor|].
  fold (sort comparator l).
  assert (Hl : StronglySorted (λ a b, (key a <= key b)%Q) (sort comparator l)).
  { apply IH. intros b c Hb Hc. apply Hkey; by right. }
  assert (Hx : ∀ b, b ∈ sort comparator l →
               sorts_after comparator x b = true ↔ (key b < key x)%Q).
  { intros b Hb. apply sorts_after_key, Hkey; [left|right].
    by rewrite <- (sort_perm l). }
  clear IH Hkey. induction Hl as [|b s Hs IHs Hall]; simpl.
  - repeat constructor.
  - pose proof (Hx b ltac:(left)) as Hxb.
    destruct (sorts_after comparator x b).
    + constructor.
      * apply IHs. intros c Hc. apply Hx. by right.
      * rewrite place_perm. constructor; [|done].
        assert (key b < key x)%Q by (by apply Hxb). lra.
    + assert (¬ (key b < key x)%Q) by (intros ?; by apply Hxb in H).
      constructor; [by constructor|]. constructor; [lra|].
      eapply Forall_impl; [exact Hall|]. intros c Hc. simpl in Hc. lra.
Qed.

(** When the comparator is the difference of keys, the head of the sorted
    list is the first element of the list among those of least key. *)
Lemma sort_head_first_least (l : list A) a rest :
  (∀ b c, b ∈ l → c ∈ l → comparator b c = Some (key b - key c)%Q) →
  sort comparator l = a :: rest →
  ∃ k, l !! k = Some a
    ∧ (∀ j b, l !! j = Some b → (key a <= key b)%Q)
    ∧ (∀ j b, (j < k)%nat → l !! j = Some b → (key a < key b)%Q).
Proof.
  revert a rest. induction l as [|x l IH]; intros a rest Hkey Hsort; [done|].
  simpl in Hsort. fold (sort comparator l) in Hsort.
  destruct (sort comparator l) as [|a0 rest0] eqn:Hl.
  - assert (l = []) as ->.
    { apply length_zero_iff_nil. by rewrite <- sort_length, Hl. }
    simpl in Hsort. simplify_eq. exists 0%nat. split; [done|]. split.
    + intros [|j] b Hb; simplify_eq/=. lra.
    + intros j b Hj. lia.
  - destruct (IH a0 rest0) as (k & Hk & Hleast & Hfirst); [|done|].
    { intros b c Hb Hc. apply Hkey; by right. }
    assert (Ha0 : a0 ∈ l) by (eapply list_elem_of_lookup_2; eauto).
    pose proof (sorts_after_key x a0 (Hkey x a0 ltac:(left) ltac:(by right)))
      as Hafter.
    simpl in Hsort. destruct (sorts_after comparator x a0).
    + simplify_eq. assert (key a < key x)%Q by (by apply Hafter).
      exists (S k). split; [done|]. split.
      * intros [|j] b Hb; simplify_eq/=; [lra|]. eauto.
      * intros [|j] b Hj Hb; simplify_eq/=; [done|]. eapply Hfirst; eauto. lia.
    + simplify_eq.
      assert (¬ (key a0 < key a)%Q) by (intros ?; by apply Hafter in H).
      exists 0%nat. split; [done|]. split.
      * intros [|j] b Hb; simplify_eq/=; [lra|].
        pose proof (Hleast j b Hb). lra.
      * intros j b Hj. lia.
Qed.

End stable_sort.

(** ** Facts about the end of a round *)

Section round_end.
Import Maze Server.
Local Open Scope Z_scope.

(** [Math.ceil(n / 2)] is the least integer whose double reaches [n]. *)
Lemma Math_ceil_half_spec n c :
  Math_ceil_half (Some n) = Some c → n ≤ 2 * c < n + 2.
Proof.
  unfold Math_ceil_half. simpl. intros [= <-].
  unfold Qceiling, Qfloor, Qdiv, Qmult, Qinv, Qopp, inject_Z. simpl.
  change (Z.pos (1 * 2)) with 2. rewrite Z.mul_1_r.
  pose proof (Z.div_mod (- n) 2 ltac:(lia)).
  pose proof (Z.mod_pos_bound (- n) 2 ltac:(lia)). lia.
Qed.

(** A finish signal that is not dropped. *)
Lemma playerWon_recorded rt socket roomCode rooms room i player :
  rooms !! roomCode = Some room →
  r_status room = playing →
  find_player socket (r_players room) = Some (i, player) →
  truthy (p_finished player) = false →
  playerWon rt socket roomCode rooms =
    let players := crossed rt i player room in
    if all_finished players then
      match sort (λ a b, by_lastFinishTime a.2 b.2) (imap pair players) with
      | [] => (<[roomCode := set_status round_over (set_players players room)]>
                 rooms, [])
      | (w, roundWinner) :: _ =>
          let roundWinner := set_score (p_score roundWinner + 1) roundWinner in
          let players := <[w := roundWinner]> players in
          let isGrandWinner :=
            num_ge (p_score roundWinner) (Math_ceil_half (r_totalRounds room))
            || num_eq (r_currentRound room) (r_totalRounds room) in
          (<[roomCode :=
               mkRoom (r_id room) players (r_maxPlayers room)
                      (r_totalRounds room) (r_currentRound room)
                      (if isGrandWinner then game_over else round_over)
                      (r_maze room) (r_startTime room)]> rooms,
           [(to_room roomCode,
             roundResult roundWinner players (r_currentRound room)
                         (r_totalRounds room) isGrandWinner)])
      end
    else
      (<[roomCode := set_players players room]> rooms,
       [(to_room roomCode,
         playerFinished (p_id player)
           (elapsed (Date_now rt) (r_startTime room)) players)]).
Proof.
  intros Hroom Hplaying Hfind Hnot. unfold playerWon.
  rewrite Hroom, Hplaying, Hfind, Hnot.
  rewrite bool_decide_eq_true_2 by done. cbv zeta.
  cbn [negb r_players set_players set_status r_totalRounds r_currentRound
       r_id r_maxPlayers r_maze r_startTime r_status].
  fold (crossed rt i player room).
  fold (all_finished (crossed rt i player room)).
  destruct (all_finished _); [|done].
  destruct (sort _ _) as [|[w roundWinner] rest]; [done|].
  by destruct (_ || _).
Qed.

(** The sorted copy of a non-empty player list has a head. *)
Lemma round_has_winner rt i player room :
  (i < length (r_players room))%nat →
  ∃ w roundWinner rest,
    sort (λ a b : nat * Player, by_lastFinishTime a.2 b.2)
         (imap pair (crossed rt i player room)) = (w, roundWinner) :: rest.
Proof.
  intros Hi.
  destruct (sort _ _) as [|[w roundWinner] rest] eqn:Hsort; [|by eauto].
  apply (f_equal length) in Hsort.
  rewrite sort_length, length_imap in Hsort. unfold crossed in Hsort.
  rewrite length_insert in Hsort. simpl in Hsort. lia.
Qed.

Lemma find_player_Some socket players i player :
  find_player socket players = Some (i, player) →
  players !! i = Some player ∧ p_id player = socket
  ∧ ∀ j p, (j < i)%nat → players !! j = Some p → p_id p ≠ socket.
Proof.
  unfold find_player. intros H. apply list_find_Some in H as (? & ? & ?).
  repeat split; auto. intros j p Hj Hp. by eapply H1.
Qed.

Lemma round_winner_lookup rt i player room w roundWinner rest :
  sort (λ a b : nat * Player, by_lastFinishTime a.2 b.2)
       (imap pair (crossed rt i player room)) = (w, roundWinner) :: rest →
  crossed rt i player room !! w = Some roundWinner.
Proof.
  intros Hsort.
  assert (Hin : (w, roundWinner) ∈ imap pair (crossed rt i player room)).
  { rewrite <- (sort_perm (λ a b : nat * Player, by_lastFinishTime a.2 b.2)).
    rewrite Hsort. left. }
  apply list_elem_of_lookup_1 in Hin as [k Hk].
  rewrite list_lookup_imap in Hk.
  destruct (crossed rt i player room !! k) as [p|] eqn:Hp; simplify_eq/=. done.
Qed.

(** The flag computed from the winner's new score, spelled out. *)
Lemma isGrandWinner_spec score currentRound totalRounds :
  num_ge score (Math_ceil_half totalRounds) || num_eq currentRound totalRounds
    = true ↔
  ∃ total winsNeeded,
    totalRounds = Some total
    ∧ total ≤ 2 * winsNeeded < total + 2
    ∧ (winsNeeded ≤ score ∨ currentRound = total).
Proof.
  destruct totalRounds as [total|].
  - destruct (Math_ceil_half (Some total)) as [c|] eqn:Hc; [|done].
    pose proof (Math_ceil_half_spec total c Hc) as Hbound.
    unfold num_ge, num_eq. rewrite orb_true_iff, !bool_decide_eq_true. split.
    + intros H. exists total, c. auto.
    + intros (total' & winsNeeded & [= <-] & Hb & H).
      assert (winsNeeded = c) as -> by lia. done.
  - simpl. split; [done|]. by intros (? & ? & ? & _).
Qed.

(** C3. When the last player finishes, the flag sent with the round result is
    true exactly when the winner's score, after the increment, has reached
    the least integer whose double is at least [totalRounds], or the current
    round is the last; the room is then [game_over], and [round_over]
    otherwise.  So a third win out of five rounds ends the match, and so does
    the last round whatever the scores. *)
Theorem playerWon_match_winner rt socket roomCode rooms room i player :
  rooms !! roomCode = Some room →
  r_status room = playing →
  find_player socket (r_players room) = Some (i, player) →
  truthy (p_finished player) = false →
  all_finished (crossed rt i player room) = true →
  ∃ room' winner flag,
    playerWon rt socket roomCode rooms
      = (<[roomCode := room']> rooms,
         [(to_room roomCode,
           roundResult winner (r_players room') (r_currentRound room)
                       (r_totalRounds room) flag)])
    ∧ winner ∈ r_players room'
    ∧ (flag = true ↔
       ∃ total winsNeeded,
         r_totalRounds room = Some total
         ∧ total ≤ 2 * winsNeeded < total + 2
         ∧ (winsNeeded ≤ p_score winner ∨ r_currentRound room = total))
    ∧ r_status room' = (if flag then game_over else round_over)
    ∧ (r_totalRounds room = Some 5 → p_score winner = 3 →
       r_status room' = game_over)
    ∧ (r_totalRounds room = Some (r_currentRound room) →
       r_status room' = game_over).
Proof.
  intros Hroom Hplaying Hfind Hnot Hall.
  rewrite (playerWon_recorded _ _ _ _ _ _ _ Hroom Hplaying Hfind Hnot).
  cbv zeta. rewrite Hall.
  apply find_player_Some in Hfind as (Hi & _ & _).
  apply lookup_lt_Some in Hi.
  destruct (round_has_winner rt i player room Hi)
    as (w & roundWinner & rest & Hsort).
  rewrite Hsort.
  pose proof (round_winner_lookup _ _ _ _ _ _ _ Hsort) as Hw.
  apply lookup_lt_Some in Hw.
  set (winner := set_score (p_score roundWinner + 1) roundWinner).
  set (flag := num_ge (p_score winner) (Math_ceil_half (r_totalRounds room))
               || num_eq (r_currentRound room) (r_totalRounds room)).
  eexists (mkRoom _ _ _ _ _ _ _ _), winner, flag. split; [reflexivity|].
  cbn [r_players r_status]. split; [|split; [|split; [done|split]]].
  - eapply list_elem_of_lookup_2. by apply list_lookup_insert_eq.
  - apply isGrandWinner_spec.
  - intros Htotal Hscore.
    assert (flag = true) as ->; [|done].
    apply isGrandWinner_spec. exists 5, 3. split; [done|]. lia.
  - intros Htotal.
    assert (flag = true) as ->; [|done].
    unfold flag. rewrite Htotal. unfold num_eq.
    rewrite (bool_decide_eq_true_2 (r_currentRound room = r_currentRound room))
      by done.
    apply orb_true_r.
Qed.

(** Once everybody has crossed, every player has a finish time, provided
    those who had crossed before had one and the round had a start time. *)
Lemma crossed_times rt i player room start :
  r_startTime room = Some start →
  (∀ p, p ∈ r_players room → truthy (p_finished p) = true →
        is_Some (p_lastFinishTime p)) →
  all_finished (crossed rt i player room) = true →
  ∀ j p, crossed rt i player room !! j = Some p → is_Some (p_lastFinishTime p).
Proof.
  intros Hstart Htimes Hall j p Hp.
  unfold all_finished in Hall. rewrite forallb_forall in Hall.
  assert (Hfin : truthy (p_finished p) = true).
  { apply Hall. apply list_elem_of_In. eapply list_elem_of_lookup_2; eauto. }
  unfold crossed in Hp. destruct (decide (i = j)) as [->|Hne].
  - destruct (decide (j < length (r_players room))%nat).
    + rewrite list_lookup_insert_eq in Hp by done. simplify_eq.
      rewrite Hstart. by eexists.
    + rewrite list_insert_ge in Hp by lia. apply Htimes; [|done].
      eapply list_elem_of_lookup_2; eauto.
  - rewrite list_lookup_insert_ne in Hp by done. apply Htimes; [|done].
    eapply list_elem_of_lookup_2; eauto.
Qed.

(** When the last player finishes in a room whose finish times are in order,
    the round goes to the first player of least finish time. *)
Lemma round_winner_least rt socket roomCode rooms room i player start :
  rooms !! roomCode = Some room →
  r_status room = playing →
  find_player socket (r_players room) = Some (i, player) →
  truthy (p_finished player) = false →
  r_startTime room = Some start →
  (∀ p, p ∈ r_players room → truthy (p_finished p) = true →
        is_Some (p_lastFinishTime p)) →
  all_finished (crossed rt i player room) = true →
  ∃ w winner time room' flag,
    playerWon rt socket roomCode rooms
      = (<[roomCode := room']> rooms,
         [(to_room roomCode,
           roundResult (set_score (p_score winner + 1) winner)
                       (r_players room') (r_currentRound room)
                       (r_totalRounds room) flag)])
    ∧ crossed rt i player room !! w = Some winner
    ∧ p_lastFinishTime winner = Some time
    ∧ (∀ j p t, crossed rt i player room !! j = Some p →
                p_lastFinishTime p = Some t → (time <= t)%Q)
    ∧ (∀ j p t, (j < w)%nat → crossed rt i player room !! j = Some p →
                p_lastFinishTime p = Some t → (time < t)%Q)
    ∧ r_players room'
      = <[w := set_score (p_score winner + 1) winner]> (crossed rt i player room).
Proof.
  intros Hroom Hplaying Hfind Hnot Hstart Htimes Hall.
  rewrite (playerWon_recorded _ _ _ _ _ _ _ Hroom Hplaying Hfind Hnot).
  cbv zeta. rewrite Hall.
  apply find_player_Some in Hfind as (Hi & _ & _).
  apply lookup_lt_Some in Hi.
  destruct (round_has_winner rt i player room Hi)
    as (w & winner & rest & Hsort).
  rewrite Hsort.
  pose proof (round_winner_lookup _ _ _ _ _ _ _ Hsort) as Hw.
  pose proof (crossed_times rt i player room start Hstart Htimes Hall) as Hall_t.
  destruct (Hall_t w winner Hw) as [time Htime].
  set (key := λ a : nat * Player, default 0%Q (p_lastFinishTime a.2)).
  destruct (sort_head_first_least
              (λ a b : nat * Player, by_lastFinishTime a.2 b.2) key
              (imap pair (crossed rt i player room)) (w, winner) rest)
    as (k & Hk & Hleast & Hfirst); [|done|].
  { intros [jb b] [jc c] Hb Hc.
    apply list_elem_of_lookup_1 in Hb as [kb Hb].
    apply list_elem_of_lookup_1 in Hc as [kc Hc].
    rewrite list_lookup_imap in Hb, Hc.
    destruct (crossed rt i player room !! kb) as [b'|] eqn:Hb'; simplify_eq/=.
    destruct (crossed rt i player room !! kc) as [c'|] eqn:Hc'; simplify_eq/=.
    destruct (Hall_t _ _ Hb') as [tb Htb]. destruct (Hall_t _ _ Hc') as [tc Htc].
    unfold by_lastFinishTime, key. simpl. by rewrite Htb, Htc. }
  rewrite list_lookup_imap in Hk.
  destruct (crossed rt i player room !! k) as [pk|] eqn:Hpk; simplify_eq/=.
  eexists w, winner, time, (mkRoom _ _ _ _ _ _ _ _), _.
  split; [reflexivity|]. cbn [r_players].
  split; [done|]. split; [done|]. split; [|split; [|done]].
  - intros j p t Hp Ht.
    specialize (Hleast j (j, p)). rewrite list_lookup_imap, Hp in Hleast.
    specialize (Hleast eq_refl). unfold key in Hleast. simpl in Hleast.
    by rewrite Htime, Ht in Hleast.
  - intros j p t Hj Hp Ht.
    specialize (Hfirst j (j, p) Hj). rewrite list_lookup_imap, Hp in Hfirst.
    specialize (Hfirst eq_refl). unfold key in Hfirst. simpl in Hfirst.
    by rewrite Htime, Ht in Hfirst.
Qed.

(** A finish signal for a room that is not playing is dropped. *)
Lemma playerWon_not_playing rt socket roomCode rooms room :
  rooms !! roomCode = Some room → r_status room ≠ playing →
  playerWon rt socket roomCode rooms = (rooms, []).
Proof.
  intros Hroom Hstatus. unfold playerWon. rewrite Hroom.
  by rewrite bool_decide_eq_false_2.
Qed.

(** A finish signal of a player who has finished is dropped. *)
Lemma playerWon_already_finished rt socket roomCode rooms room i player :
  rooms !! roomCode = Some room →
  find_player socket (r_players room) = Some (i, player) →
  truthy (p_finished player) = true →
  playerWon rt socket roomCode rooms = (rooms, []).
Proof.
  intros Hroom Hfind Hfin. unfold playerWon. rewrite Hroom, Hfind, Hfin.
  by destruct (negb _).
Qed.

(** Marking the player found leaves him the one found. *)
Lemma find_player_crossed rt socket room i player :
  find_player socket (r_players room) = Some (i, player) →
  find_player socket (crossed rt i player room)
    = Some (i, mark_finished (elapsed (Date_now rt) (r_startTime room)) player).
Proof.
  intros Hfind. apply find_player_Some in Hfind as (Hi & Hid & Hfirst).
  unfold find_player, crossed. apply list_find_Some. split; [|split].
  - apply list_lookup_insert_eq. by eapply lookup_lt_Some.
  - done.
  - intros j p Hp Hj. rewrite list_lookup_insert_ne in Hp by lia. eauto.
Qed.

(** C4. The [playerWon] handler changes nothing and sends nothing when the
    room is not playing, or when the player it finds has already finished;
    hence a second finish signal from the same socket for the same room,
    whatever the clock shows by then, leaves the state of the first as it
    is. *)
Theorem playerWon_idempotent rt rt' socket roomCode rooms :
  (∀ room, rooms !! roomCode = Some room → r_status room ≠ playing →
     playerWon rt socket roomCode rooms = (rooms, []))
  ∧ (∀ room i player,
       rooms !! roomCode = Some room →
       find_player socket (r_players room) = Some (i, player) →
       p_finished player = Some true →
       playerWon rt socket roomCode rooms = (rooms, []))
  ∧ playerWon rt' socket roomCode (playerWon rt socket roomCode rooms).1
    = ((playerWon rt socket roomCode rooms).1, []).
Proof.
  split; [|split].
  - intros room. apply playerWon_not_playing.
  - intros room i player Hroom Hfind Hfin.
    eapply playerWon_already_finished; eauto. by rewrite Hfin.
  - destruct (rooms !! roomCode) as [room|] eqn:Hroom.
    2: { unfold playerWon at 2 3. rewrite Hroom. simpl.
         unfold playerWon. by rewrite Hroom. }
    destruct (decide (r_status room = playing)) as [Hplaying|Hstatus].
    2: { rewrite !(playerWon_not_playing rt _ _ _ _ Hroom Hstatus). simpl.
         by apply (playerWon_not_playing rt' _ _ _ room). }
    destruct (find_player socket (r_players room)) as [[i player]|] eqn:Hfind.
    2: { assert (∀ r, playerWon r socket roomCode rooms = (rooms, [])) as Hdrop.
         { intros r. unfold playerWon. rewrite Hroom, Hfind.
           by destruct (negb _). }
         rewrite !(Hdrop rt). simpl. apply Hdrop. }
    destruct (truthy (p_finished player)) eqn:Hfin.
    { rewrite !(playerWon_already_finished rt _ _ _ _ _ _ Hroom Hfind Hfin).
      simpl. by eapply playerWon_already_finished. }
    rewrite !(playerWon_recorded rt _ _ _ _ _ _ Hroom Hplaying Hfind Hfin).
    cbv zeta. destruct (all_finished _).
    + destruct (sort _ _) as [|[w roundWinner] rest]; cbn [fst].
      * eapply playerWon_not_playing; [apply lookup_insert_eq|done].
      * eapply playerWon_not_playing; [apply lookup_insert_eq|].
        cbn [r_status]. by destruct (_ || _).
    + cbn [fst]. eapply playerWon_already_finished.
      * apply lookup_insert_eq.
      * cbn [r_players set_players]. by apply find_player_crossed.
      * done.
Qed.

End round_end.

(** ** Facts about room codes *)

Section room_codes.
Import Server.

Lemma get_chars (s : string) (n : nat) (c : ascii) :
  String.get n s = Some c → c ∈ chars s.
Proof.
  revert n. induction s as [|a s IH]; intros [|n] H; simplify_eq/=.
  - left.
  - right. eauto.
Qed.

Lemma get_is_Some (s : string) (n : nat) :
  (n < String.length s)%nat → is_Some (String.get n s).
Proof.
  revert n. induction s as [|a s IH]; intros [|n] H; simpl in *;
    try lia; [by eexists|].
  apply IH. lia.
Qed.

(** A result of [Math.random()] selects one character of the alphabet. *)
Lemma pick_char (r : Q) :
  (0 <= r < 1)%Q →
  ∃ c, pick r = String c EmptyString ∧ c ∈ chars characters.
Proof.
  intros [Hlo Hhi]. unfold pick, charAt.
  set (n := Qfloor (r * inject_Z (Z.of_nat (String.length characters)))).
  assert (Hn : (0 ≤ n < 32)%Z).
  { unfold n. change (inject_Z (Z.of_nat (String.length characters)))
      with (inject_Z 32).
    split.
    - change 0%Z with (Qfloor 0). apply Qfloor_resp_le.
      change (inject_Z 32) with (32#1)%Q. lra.
    - pose proof (Qfloor_le (r * inject_Z 32)) as Hle.
      rewrite Zlt_Qlt. change (inject_Z 32) with (32#1)%Q in *. lra. }
  rewrite bool_decide_eq_true_2 by lia.
  destruct (get_is_Some characters (Z.to_nat n)) as [c Hc].
  { change (String.length characters) with 32%nat. lia. }
  rewrite Hc. exists c. split; [done|]. by eapply get_chars.
Qed.

Lemma draw_code_chars (random : nat → Q) (calls : nat) :
  (∀ n, (0 <= random n < 1)%Q) →
  ∃ c0 c1 c2 c3,
    draw_code random calls
      = String c0 (String c1 (String c2 (String c3 EmptyString)))
    ∧ Forall (λ c, c ∈ chars characters) [c0; c1; c2; c3].
Proof.
  intros Hrandom. unfold draw_code. cbn [seq foldl].
  destruct (pick_char _ (Hrandom (calls + 0)%nat)) as (c0 & -> & H0).
  destruct (pick_char _ (Hrandom (calls + 1)%nat)) as (c1 & -> & H1).
  destruct (pick_char _ (Hrandom (calls + 2)%nat)) as (c2 & -> & H2).
  destruct (pick_char _ (Hrandom (calls + 3)%nat)) as (c3 & -> & H3).
  exists c0, c1, c2, c3. split; [done|].
  do 4 (constructor; [done|]). constructor.
Qed.

(** What [generateRoomCode] returns is a free code of four characters of the
    alphabet. *)
Lemma generateRoomCode_sound depth random calls (rooms : gmap string Room) code :
  (∀ n, (0 <= random n < 1)%Q) →
  generateRoomCode depth random calls rooms = Some code →
  String.length code = 4%nat
  ∧ Forall (λ c, c ∈ chars characters) (chars code)
  ∧ rooms !! code = None.
Proof.
  intros Hrandom. revert calls.
  induction depth as [|depth IH]; intros calls Hcode; [done|].
  simpl in Hcode.
  destruct (rooms !! draw_code random calls) eqn:Hfree; [by eapply IH|].
  simplify_eq.
  destruct (draw_code_chars random calls Hrandom)
    as (c0 & c1 & c2 & c3 & Heq & Hchars).
  rewrite Heq in *. done.
Qed.

(** It returns as soon as an attempt is free, if the stack allows that many
    nested calls. *)
Lemma generateRoomCode_returns depth random calls (rooms : gmap string Room) k :
  (k < depth)%nat →
  rooms !! draw_code random (calls + 4 * k) = None →
  is_Some (generateRoomCode depth random calls rooms).
Proof.
  revert calls k. induction depth as [|depth IH]; intros calls k Hk Hfree;
    [lia|].
  simpl. destruct (rooms !! draw_code random calls) eqn:Hfirst; [|by eexists].
  destruct k as [|k].
  - replace (calls + 4 * 0)%nat with calls in Hfree by lia. congruence.
  - apply (IH _ k); [lia|].
    by replace (calls + 4 + 4 * k)%nat with (calls + 4 * S k)%nat by lia.
Qed.

(** C9. The alphabet has 32 characters and none of I, O, 0 and 1.  When the
    results of [Math.random()] lie in [0, 1), a code that [createRoom] hands out
    has four characters of the alphabet and was the code of no room of the
    table; and [createRoom] does hand one out when one of the attempts the
    stack has room for hits a free code. *)
Theorem createRoom_code rt socket playerName maxPlayers totalRounds
    (rooms : gmap string Room) :
  (∀ n, (0 <= Math_random rt n < 1)%Q) →
  length (chars characters) = 32%nat
  ∧ Forall (λ c, c ∉ chars characters) (chars "IO01")
  ∧ (∀ rooms' audience roomCode isHost room,
       createRoom rt socket playerName maxPlayers totalRounds rooms
         = (rooms', [(audience, roomCreated roomCode isHost room)]) →
       String.length roomCode = 4%nat
       ∧ Forall (λ c, c ∈ chars characters) (chars roomCode)
       ∧ rooms !! roomCode = None
       ∧ rooms' = <[roomCode := room]> rooms
       ∧ r_id room = roomCode)
  ∧ (∀ k, (k < stack_depth rt)%nat →
       rooms !! draw_code (Math_random rt) (4 * k) = None →
       ∃ roomCode room,
         createRoom rt socket playerName maxPlayers totalRounds rooms
           = (<[roomCode := room]> rooms,
              [(to_sender, roomCreated roomCode true room)])).
Proof.
  intros Hrandom. split; [done|]. split; [|split].
  - repeat constructor; intros Hin; vm_compute in Hin;
      repeat (apply elem_of_cons in Hin as [Hin|Hin]; [done|]);
      by apply elem_of_nil in Hin.
  - intros rooms' audience roomCode isHost room. unfold createRoom.
    destruct (generateRoomCode _ _ _ _) as [code|] eqn:Hcode; [|done].
    intros [= <- <- <- <- <-].
    destruct (generateRoomCode_sound _ _ _ _ _ Hrandom Hcode) as (? & ? & ?).
    done.
  - intros k Hk Hfree. unfold createRoom.
    destruct (generateRoomCode_returns (stack_depth rt) (Math_random rt) 0
                rooms k Hk Hfree) as [code ->].
    by eexists _, _.
Qed.

End room_codes.

(** ** Facts about sequences of events *)

Section lifecycle.
Import Maze Server.
Local Open Scope Z_scope.

Lemma evolves_refl ev code room : evolves ev code room room.
Proof. split; [split; [done|left; lia]|by left]. Qed.

Ltac insert_cases H code roomCode :=
  destruct (decide (code = roomCode)) as [->|?];
  [rewrite lookup_insert_eq in H|rewrite lookup_insert_ne in H by done];
  simplify_eq.

Lemma startRound_evolves rt roomCode rooms code room room' :
  rooms !! code = Some room →
  (startRound rt roomCode rooms).1 !! code = Some room' →
  r_maxPlayers room' = r_maxPlayers room
  ∧ length (r_players room') = length (r_players room)
  ∧ (r_status room' = r_status room
     ∨ (code = roomCode ∧ r_status room' = playing)).
Proof.
  intros Hroom H.
  destruct (rooms !! roomCode) as [started|] eqn:Hstarted.
  - destruct (startRound_lookup rt roomCode rooms started Hstarted)
      as (maze & _ & Heq).
    rewrite Heq in H. cbn [fst] in H. insert_cases H code roomCode.
    + split; [done|]. split; [|by right]. cbn [r_players].
      by rewrite length_fmap.
    + split; [done|]. split; [done|by left].
  - unfold startRound in H. rewrite Hstarted in H. simpl in H. simplify_eq.
    split; [done|]. split; [done|by left].
Qed.

Lemma createRoom_step rt socket playerName maxPlayers totalRounds rooms
    code room' :
  (createRoom rt socket playerName maxPlayers totalRounds rooms).1 !! code
    = Some room' →
  rooms !! code = Some room'
  ∨ (rooms !! code = None ∧ r_maxPlayers room' = maxPlayers
     ∧ length (r_players room') = 1%nat ∧ r_status room' = waiting).
Proof.
  unfold createRoom.
  destruct (generateRoomCode _ _ _ _) as [roomCode|] eqn:Hcode; [|by left].
  cbn [fst]. intros H. insert_cases H code roomCode; [|by left].
  right. split; [|done].
  clear -Hcode. revert Hcode. generalize 0%nat.
  induction (stack_depth rt) as [|depth IH]; intros calls Hcode; [done|].
  simpl in Hcode.
  destruct (rooms !! draw_code (Math_random rt) calls) eqn:Hfree; [eauto|].
  by simplify_eq.
Qed.

Lemma joinRoom_step rt socket playerName roomCode rooms code room room' :
  rooms !! code = Some room →
  (joinRoom rt socket playerName roomCode rooms).1 !! code = Some room' →
  evolves (ev_joinRoom playerName roomCode) code room room'.
Proof.
  intros Hroom H.
  destruct (rooms !! roomCode) as [joined|] eqn:Hjoined.
  2: { unfold joinRoom in H. rewrite Hjoined in H.
       destruct (bool_decide _) in H; simpl in H; simplify_eq;
         apply evolves_refl. }
  destruct (decide (r_status joined = waiting)) as [Hwait|Hwait].
  2: { unfold joinRoom in H. rewrite Hjoined in H.
       rewrite bool_decide_eq_false_2 in H by done. simpl in H. simplify_eq.
       apply evolves_refl. }
  destruct (num_ge (Z.of_nat (length (r_players joined))) (r_maxPlayers joined))
    eqn:Hfull.
  { unfold joinRoom in H. rewrite Hjoined, Hfull in H.
    rewrite bool_decide_eq_true_2 in H by done. simpl in H. simplify_eq.
    apply evolves_refl. }
  rewrite (joinRoom_accepted _ _ _ _ _ _ Hjoined Hwait Hfull) in H.
  cbv zeta in H.
  set (room1 := set_players
                  (r_players joined ++ [newcomer socket playerName joined])
                  joined) in *.
  assert (Hgrow : grows_within joined room1).
  { split; [done|]. right. split; [|done]. cbn [room1 r_players set_players].
    rewrite length_app. simpl. lia. }
  destruct (num_eq _ _).
  - cbn [fst] in H. destruct (decide (code = roomCode)) as [->|Hne].
    + simplify_eq.
      destruct (startRound_evolves rt
                  roomCode (<[roomCode := room1]> rooms) roomCode room1 room')
        as (Hmax & Hlen & Hstatus); [by rewrite lookup_insert_eq|done|].
      destruct Hgrow as [Hmax1 Hlen1].
      split.
      * split; [congruence|]. rewrite Hlen. done.
      * cbn [room1 set_players r_status] in Hstatus.
        destruct Hstatus as [->|[_ ->]]; [by left|].
        right. left. rewrite Hwait. eauto.
    + destruct (startRound_evolves rt
                  roomCode (<[roomCode := room1]> rooms) code room room')
        as (Hmax & Hlen & Hstatus); [by rewrite lookup_insert_ne|done|].
      split; [split; [done|left; lia]|].
      destruct Hstatus as [->|[? _]]; [by left|done].
  - cbn [fst] in H. insert_cases H code roomCode; [|apply evolves_refl].
    split; [done|]. by left.
Qed.

Lemma playerMove_step socket roomCode position rooms code room room' :
  rooms !! code = Some room →
  (playerMove socket roomCode position rooms).1 !! code = Some room' →
  evolves (ev_playerMove roomCode position) code room room'.
Proof.
  intros Hroom H. unfold playerMove in H.
  destruct (rooms !! roomCode) as [moved|] eqn:Hmoved;
    [|simpl in H; simplify_eq; apply evolves_refl].
  destruct (negb _); [simpl in H; simplify_eq; apply evolves_refl|].
  cbn [fst] in H.
  destruct (find_player socket (r_players moved)) as [[i player]|];
    [|simplify_eq; apply evolves_refl].
  insert_cases H code roomCode; [|apply evolves_refl].
  split; [|by left]. split; [done|]. left. cbn [r_players set_players].
  by rewrite length_insert.
Qed.

Lemma playerWon_step rt socket roomCode rooms code room room' :
  rooms !! code = Some room →
  (playerWon rt socket roomCode rooms).1 !! code = Some room' →
  evolves (ev_playerWon roomCode) code room room'.
Proof.
  intros Hroom H.
  destruct (rooms !! roomCode) as [won|] eqn:Hwon.
  2: { unfold playerWon in H. rewrite Hwon in H. simpl in H. simplify_eq.
       apply evolves_refl. }
  destruct (decide (r_status won = playing)) as [Hplaying|Hstatus].
  2: { rewrite (playerWon_not_playing rt _ _ _ _ Hwon Hstatus) in H.
       simpl in H. simplify_eq. apply evolves_refl. }
  destruct (find_player socket (r_players won)) as [[i player]|] eqn:Hfind.
  2: { unfold playerWon in H. rewrite Hwon, Hfind in H.
       destruct (negb _); simpl in H; simplify_eq; apply evolves_refl. }
  destruct (truthy (p_finished player)) eqn:Hfin.
  { rewrite (playerWon_already_finished rt _ _ _ _ _ _ Hwon Hfind Hfin) in H.
    simpl in H. simplify_eq. apply evolves_refl. }
  rewrite (playerWon_recorded rt _ _ _ _ _ _ Hwon Hplaying Hfind Hfin) in H.
  cbv zeta in H.
  assert (Hlen : length (crossed rt i player won) = length (r_players won))
    by (unfold crossed; by rewrite length_insert).
  destruct (all_finished _).
  - destruct (sort _ _) as [|[w roundWinner] rest]; cbn [fst] in H;
      insert_cases H code roomCode; try apply evolves_refl.
    + split; [split; [done|left; cbn [r_players set_players set_status]; lia]|].
      right. right. left. cbn [r_status set_status]. auto.
    + split.
      * split; [done|]. left. cbn [r_players]. rewrite length_insert. lia.
      * right. right. left. cbn [r_status].
        split; [done|]. split; [|done]. destruct (_ || _); auto.
  - cbn [fst] in H. insert_cases H code roomCode; [|apply evolves_refl].
    split; [|by left]. split; [done|]. left. cbn [r_players set_players]. lia.
Qed.

Lemma requestNextRound_step rt roomCode rooms code room room' :
  rooms !! code = Some room →
  (requestNextRound rt roomCode rooms).1 !! code = Some room' →
  evolves (ev_requestNextRound roomCode) code room room'.
Proof.
  intros Hroom H. unfold requestNextRound in H.
  destruct (rooms !! roomCode) as [next|] eqn:Hnext;
    [|simpl in H; simplify_eq; apply evolves_refl].
  destruct (decide (r_status next = round_over)) as [Hover|Hstatus].
  2: { rewrite bool_decide_eq_false_2 in H by done. simpl in H. simplify_eq.
       apply evolves_refl. }
  rewrite bool_decide_eq_true_2 in H by done. cbn [negb] in H.
  destruct (num_lt _ _); [|simpl in H; simplify_eq; apply evolves_refl].
  destruct (decide (code = roomCode)) as [->|Hne].
  - simplify_eq.
    destruct (startRound_evolves rt roomCode
                (<[roomCode := set_currentRound (r_currentRound room + 1) room]>
                   rooms)
                roomCode (set_currentRound (r_currentRound room + 1) room) room')
      as (Hmax & Hlen & Hstatus); [by rewrite lookup_insert_eq|done|].
    split; [split; [done|left; cbn [r_players set_currentRound] in Hlen; lia]|].
    cbn [r_status set_currentRound] in Hstatus.
    destruct Hstatus as [->|[_ ->]]; [by left|]. right. right. right. left. auto.
  - destruct (startRound_evolves rt roomCode
                (<[roomCode := set_currentRound (r_currentRound next + 1) next]>
                   rooms)
                code room room')
      as (Hmax & Hlen & Hstatus); [by rewrite lookup_insert_ne|done|].
    split; [split; [done|left; lia]|].
    destruct Hstatus as [->|[? _]]; [by left|done].
Qed.

Lemma requestPlayAgain_step roomCode rooms code room room' :
  rooms !! code = Some room →
  (requestPlayAgain roomCode rooms).1 !! code = Some room' →
  evolves (ev_requestPlayAgain roomCode) code room room'.
Proof.
  intros Hroom H. unfold requestPlayAgain in H.
  destruct (rooms !! roomCode) as [again|] eqn:Hagain;
    [|simpl in H; simplify_eq; apply evolves_refl].
  cbn [fst] in H. insert_cases H code roomCode; [|apply evolves_refl].
  split.
  - split; [done|]. left.
    cbn [r_players set_players set_status set_currentRound].
    by rewrite length_fmap.
  - right. right. right. right. done.
Qed.

Lemma disconnect_from_step socket codes rooms code room room' :
  rooms !! code = Some room →
  (disconnect_from socket codes rooms).1 !! code = Some room' →
  evolves ev_disconnect code room room'.
Proof.
  intros Hroom. induction codes as [|c codes IH]; simpl; intros H.
  - simplify_eq. apply evolves_refl.
  - destruct (rooms !! c) as [left|] eqn:Hleft; [|by apply IH].
    destruct (find_player socket (r_players left)) as [[i player]|] eqn:Hfind;
      [|by apply IH].
    apply find_player_Some in Hfind as (Hi & _ & _).
    case_bool_decide; cbn [fst] in H.
    + destruct (decide (code = c)) as [->|Hne].
      * by rewrite lookup_delete_eq in H.
      * rewrite lookup_delete_ne in H by done. simplify_eq. apply evolves_refl.
    + insert_cases H code c; [|apply evolves_refl].
      split; [|by left]. split; [done|]. left. cbn [r_players set_players].
      rewrite length_delete by eauto. lia.
Qed.

(** Only [createRoom] adds a key to the table. *)
Lemma startRound_keys rt roomCode rooms code :
  is_Some ((startRound rt roomCode rooms).1 !! code) → is_Some (rooms !! code).
Proof.
  unfold startRound. intros Hres. repeat case_match; cbn [fst] in Hres; try done;
    (destruct (decide (code = roomCode)) as [->|?];
     [by eexists|by rewrite lookup_insert_ne in Hres by done]).
Qed.

Lemma disconnect_from_keys socket codes rooms code :
  is_Some ((disconnect_from socket codes rooms).1 !! code) →
  is_Some (rooms !! code).
Proof.
  induction codes as [|c codes IH]; simpl; [done|].
  destruct (rooms !! c) as [left|] eqn:Hleft; [|done].
  destruct (find_player socket (r_players left)) as [[i player]|]; [|done].
  case_bool_decide; cbn [fst]; intros Hres.
  - destruct (decide (code = c)) as [->|?]; [by eexists|].
    by rewrite lookup_delete_ne in Hres by done.
  - destruct (decide (code = c)) as [->|?]; [by eexists|].
    by rewrite lookup_insert_ne in Hres by done.
Qed.

Lemma handle_keys rt socket ev rooms code :
  is_Some ((handle rt socket ev rooms).1 !! code) →
  is_Some (rooms !! code) ∨ ∃ n m t, ev = ev_createRoom n m t.
Proof.
  destruct ev as [n m t|playerName roomCode|roomCode position|roomCode
                  |roomCode|roomCode|]; simpl; [by eauto|..]; intros Hres; left.
  - unfold joinRoom in Hres. repeat case_match; cbn [fst] in Hres; try done.
    + match goal with Hs : startRound _ _ _ = _ |- _ =>
        apply (f_equal fst) in Hs; cbn [fst] in Hs; rewrite <- Hs in Hres end.
      apply startRound_keys in Hres.
      destruct (decide (code = roomCode)) as [->|?]; [by eexists|].
      by rewrite lookup_insert_ne in Hres by done.
    + destruct (decide (code = roomCode)) as [->|?]; [by eexists|].
      by rewrite lookup_insert_ne in Hres by done.
  - unfold playerMove in Hres. repeat case_match; cbn [fst] in Hres; try done.
    destruct (decide (code = roomCode)) as [->|?]; [by eexists|].
    by rewrite lookup_insert_ne in Hres by done.
  - unfold playerWon in Hres. repeat case_match; cbn [fst] in Hres; try done;
      (destruct (decide (code = roomCode)) as [->|?]; [by eexists|];
       by rewrite lookup_insert_ne in Hres by done).
  - unfold requestNextRound in Hres. repeat case_match; cbn [fst] in Hres; try done.
    apply startRound_keys in Hres.
    destruct (decide (code = roomCode)) as [->|?]; [by eexists|].
    by rewrite lookup_insert_ne in Hres by done.
  - unfold requestPlayAgain in Hres. repeat case_match; cbn [fst] in Hres; try done.
    destruct (decide (code = roomCode)) as [->|?]; [by eexists|].
    by rewrite lookup_insert_ne in Hres by done.
  - by eapply disconnect_from_keys.
Qed.

(** One event, seen from one room code: the room was there and has evolved,
    or it has just been created. *)
Lemma handle_step rt socket ev rooms code room' :
  (handle rt socket ev rooms).1 !! code = Some room' →
  (∃ room, rooms !! code = Some room ∧ evolves ev code room room')
  ∨ (rooms !! code = None
     ∧ ∃ playerName maxPlayers totalRounds,
         ev = ev_createRoom playerName maxPlayers totalRounds
         ∧ r_maxPlayers room' = maxPlayers
         ∧ length (r_players room') = 1%nat
         ∧ r_status room' = waiting).
Proof.
  intros H. destruct (rooms !! code) as [room|] eqn:Hroom.
  - left. exists room. split; [done|].
    destruct ev as [n m t|playerName roomCode|roomCode position|roomCode
                    |roomCode|roomCode|]; simpl in H.
    + apply createRoom_step in H as [H|[H _]]; [|congruence].
      simplify_eq. apply evolves_refl.
    + by eapply joinRoom_step.
    + by eapply playerMove_step.
    + by eapply playerWon_step.
    + by eapply requestNextRound_step.
    + by eapply requestPlayAgain_step.
    + by eapply disconnect_from_step.
  - right. split; [done|].
    destruct (handle_keys rt socket ev rooms code) as [[? Hsome]|(n & m & t & ->)];
      [by eexists|congruence|].
    simpl in H. apply createRoom_step in H as [H|(_ & ? & ? & ?)]; [congruence|].
    by exists n, m, t.
Qed.

Lemma handle_within_capacity rt socket ev rooms :
  sane_capacity (rt, socket, ev) →
  within_capacity rooms → within_capacity (handle rt socket ev rooms).1.
Proof.
  intros Hsane Hinv code room' m Hroom' Hmax.
  apply handle_step in Hroom'
    as [(room & Hroom & [Hbound Hlen] & _)|(_ & n & mp & t & -> & Hmp & Hlen & _)].
  - rewrite Hmax in Hbound. symmetry in Hbound.
    pose proof (Hinv code room m Hroom Hbound) as Hle.
    destruct Hlen as [Hlen|[Hlen Hfree]]; [lia|].
    rewrite Hbound in Hfree. simpl in Hfree.
    apply bool_decide_eq_false in Hfree. lia.
  - unfold sane_capacity in Hsane. simpl in Hsane.
    rewrite Hmp in Hmax. specialize (Hsane m Hmax). lia.
Qed.

(** C7, as the code has it.  Starting from the empty table, after any
    sequence of events (of any kind, joins and creations among them) in which
    no room is created with a [maxPlayers] below 1, no room has more players
    than its [maxPlayers]. *)
Theorem run_within_capacity events :
  Forall sane_capacity events → within_capacity (run events ∅).
Proof.
  intros Hsane. unfold run.
  assert (Hgen : ∀ rooms : gmap string Room, within_capacity rooms →
    within_capacity
      (foldl (λ rooms e, (handle e.1.1 e.1.2 e.2 rooms).1) rooms events)).
  { induction Hsane as [|[[rt socket] ev] events He _ IH]; intros rooms Hinv;
      simpl; [done|].
    apply IH. by apply handle_within_capacity. }
  apply Hgen. intros code room m Hroom. by rewrite lookup_empty in Hroom.
Qed.

(** C8, as the code has it.  In one event a room keeps its status, or goes
    from waiting to playing on a join, from playing to round_over or (through
    round_over, in the same handler) to game_over on the last finish, from
    round_over to playing on a next-round request, or to waiting on a
    play-again request, which is honoured in every status.  So a room that is
    game_over stays so until a play-again request, and the same request takes
    a playing room straight back to waiting. *)
Theorem status_transitions rt socket ev rooms code room room' :
  rooms !! code = Some room →
  (handle rt socket ev rooms).1 !! code = Some room' →
  transition ev code (r_status room) (r_status room')
  ∧ (r_status room = game_over →
     r_status room' = game_over
     ∨ (r_status room' = waiting ∧ ev = ev_requestPlayAgain code))
  ∧ (ev = ev_requestPlayAgain code → r_status room' = waiting).
Proof.
  intros Hroom H. pose proof H as Hstep.
  apply handle_step in Hstep as [(room0 & Hroom0 & _ & Htrans)|[? _]];
    [|congruence].
  simplify_eq. split; [done|]. split.
  - intros Hover. rewrite Hover in Htrans.
    destruct Htrans as [->|[(? & _)|[(? & _)|[(? & _)|[? ?]]]]]; try done;
      auto.
  - intros ->. simpl in H. unfold requestPlayAgain in H. rewrite Hroom in H.
    cbn [fst] in H. rewrite lookup_insert_eq in H. by simplify_eq.
Qed.

End lifecycle.

(** ** Finish times in reachable states *)

Section timing.
Import Maze Server.
Local Open Scope Z_scope.

Lemma well_timed_insert (rooms : gmap string Room) code room :
  well_timed rooms → timed room → well_timed (<[code := room]> rooms).
Proof.
  intros Hinv Hroom c r Hr.
  destruct (decide (c = code)) as [->|Hne].
  - rewrite lookup_insert_eq in Hr. by simplify_eq.
  - rewrite lookup_insert_ne in Hr by done. eauto.
Qed.

Lemma well_timed_delete (rooms : gmap string Room) code :
  well_timed rooms → well_timed (delete code rooms).
Proof.
  intros Hinv c r Hr.
  destruct (decide (c = code)) as [->|Hne].
  - by rewrite lookup_delete_eq in Hr.
  - rewrite lookup_delete_ne in Hr by done. eauto.
Qed.

Lemma startRound_well_timed rt roomCode rooms :
  well_timed rooms → well_timed (startRound rt roomCode rooms).1.
Proof.
  intros Hinv. destruct (rooms !! roomCode) as [room|] eqn:Hroom.
  - destruct (startRound_lookup rt roomCode rooms room Hroom) as (maze & _ & ->).
    cbn [fst]. apply well_timed_insert; [done|]. split; cbn [r_startTime].
    + by eexists.
    + cbn [r_players]. apply Forall_fmap, Forall_true. by intros p.
  - unfold startRound. by rewrite Hroom.
Qed.

Lemma createRoom_well_timed rt socket playerName maxPlayers totalRounds rooms :
  well_timed rooms →
  well_timed (createRoom rt socket playerName maxPlayers totalRounds rooms).1.
Proof.
  intros Hinv. unfold createRoom.
  destruct (generateRoomCode _ _ _ _) as [roomCode|]; [|done].
  cbn [fst]. apply well_timed_insert; [done|]. split; [done|].
  by repeat constructor.
Qed.

Lemma joinRoom_well_timed rt socket playerName roomCode rooms :
  well_timed rooms → well_timed (joinRoom rt socket playerName roomCode rooms).1.
Proof.
  intros Hinv.
  destruct (rooms !! roomCode) as [room|] eqn:Hroom.
  2: { unfold joinRoom. rewrite Hroom. by destruct (bool_decide _). }
  destruct (decide (r_status room = waiting)) as [Hwait|Hwait].
  2: { unfold joinRoom. rewrite Hroom.
       by rewrite bool_decide_eq_false_2 by done. }
  destruct (num_ge (Z.of_nat (length (r_players room))) (r_maxPlayers room))
    eqn:Hfull.
  { unfold joinRoom. rewrite Hroom, Hfull.
    by rewrite bool_decide_eq_true_2 by done. }
  rewrite (joinRoom_accepted _ _ _ _ _ _ Hroom Hwait Hfull). cbv zeta.
  assert (Hjoined : well_timed
    (<[roomCode := set_players
                     (r_players room ++ [newcomer socket playerName room]) room]>
       rooms)).
  { apply well_timed_insert; [done|]. destruct (Hinv _ _ Hroom) as [_ Hps].
    split; cbn [r_status r_players set_players].
    - by rewrite Hwait.
    - apply Forall_app. split; [done|]. by repeat constructor. }
  destruct (num_eq _ _); cbn [fst]; [|done].
  by apply startRound_well_timed.
Qed.

Lemma playerMove_well_timed socket roomCode position rooms :
  well_timed rooms → well_timed (playerMove socket roomCode position rooms).1.
Proof.
  intros Hinv. unfold playerMove.
  destruct (rooms !! roomCode) as [room|] eqn:Hroom; [|done].
  destruct (negb _); [done|]. cbn [fst].
  destruct (find_player socket (r_players room)) as [[i player]|] eqn:Hfind;
    [|done].
  apply find_player_Some in Hfind as (Hi & _ & _).
  destruct (Hinv _ _ Hroom) as [Hstart Hps].
  apply well_timed_insert; [done|]. split; [done|].
  cbn [r_players set_players]. apply Forall_insert; [done|].
  rewrite Forall_lookup in Hps. apply (Hps i player Hi).
Qed.

Lemma playerWon_well_timed rt socket roomCode rooms :
  well_timed rooms → well_timed (playerWon rt socket roomCode rooms).1.
Proof.
  intros Hinv.
  destruct (rooms !! roomCode) as [room|] eqn:Hroom.
  2: { unfold playerWon. by rewrite Hroom. }
  destruct (decide (r_status room = playing)) as [Hplaying|Hstatus].
  2: { by rewrite (playerWon_not_playing rt _ _ _ _ Hroom Hstatus). }
  destruct (find_player socket (r_players room)) as [[i player]|] eqn:Hfind.
  2: { unfold playerWon. rewrite Hroom, Hfind. by destruct (negb _). }
  destruct (truthy (p_finished player)) eqn:Hfin.
  { by rewrite (playerWon_already_finished rt _ _ _ _ _ _ Hroom Hfind Hfin). }
  rewrite (playerWon_recorded rt _ _ _ _ _ _ Hroom Hplaying Hfind Hfin).
  cbv zeta.
  destruct (Hinv _ _ Hroom) as [Hstart Hps].
  destruct (Hstart Hplaying) as [start Hstarted].
  assert (Hcrossed : Forall (λ p, truthy (p_finished p) = true →
                                  is_Some (p_lastFinishTime p))
                            (crossed rt i player room)).
  { unfold crossed. apply Forall_insert; [done|]. intros _.
    cbn [p_lastFinishTime mark_finished]. rewrite Hstarted. by eexists. }
  destruct (all_finished _).
  - destruct (sort _ _) as [|[w roundWinner] rest] eqn:Hsort; cbn [fst];
      (apply well_timed_insert; [done|]).
    + split; [by cbn [r_status set_status]|].
      by cbn [r_players set_status set_players].
    + split; [cbn [r_status]; by destruct (_ || _)|].
      cbn [r_players]. apply Forall_insert; [done|].
      apply round_winner_lookup in Hsort.
      rewrite Forall_lookup in Hcrossed. apply (Hcrossed w roundWinner Hsort).
  - cbn [fst]. apply well_timed_insert; [done|]. split; [|done].
    intros _. by eexists.
Qed.

Lemma requestNextRound_well_timed rt roomCode rooms :
  well_timed rooms → well_timed (requestNextRound rt roomCode rooms).1.
Proof.
  intros Hinv. unfold requestNextRound.
  destruct (rooms !! roomCode) as [room|] eqn:Hroom; [|done].
  destruct (negb _); [done|]. destruct (num_lt _ _); [|done].
  apply startRound_well_timed, well_timed_insert; [done|].
  by destruct (Hinv _ _ Hroom).
Qed.

Lemma requestPlayAgain_well_timed roomCode rooms :
  well_timed rooms → well_timed (requestPlayAgain roomCode rooms).1.
Proof.
  intros Hinv. unfold requestPlayAgain.
  destruct (rooms !! roomCode) as [room|] eqn:Hroom; [|done].
  cbn [fst]. apply well_timed_insert; [done|].
  destruct (Hinv _ _ Hroom) as [_ Hps]. split; [done|].
  cbn [r_players set_players set_status set_currentRound].
  by apply Forall_fmap.
Qed.

Lemma disconnect_from_well_timed socket codes rooms :
  well_timed rooms → well_timed (disconnect_from socket codes rooms).1.
Proof.
  intros Hinv. induction codes as [|c codes IH]; simpl; [done|].
  destruct (rooms !! c) as [room|] eqn:Hroom; [|done].
  destruct (find_player socket (r_players room)) as [[i player]|]; [|done].
  case_bool_decide; cbn [fst].
  - by apply well_timed_delete.
  - apply well_timed_insert; [done|].
    destruct (Hinv _ _ Hroom) as [Hstart Hps]. split; [done|].
    cbn [r_players set_players]. by apply Forall_delete.
Qed.

Lemma handle_well_timed rt socket ev rooms :
  well_timed rooms → well_timed (handle rt socket ev rooms).1.
Proof.
  destruct ev; simpl.
  - apply createRoom_well_timed.
  - apply joinRoom_well_timed.
  - apply playerMove_well_timed.
  - apply playerWon_well_timed.
  - apply requestNextRound_well_timed.
  - apply requestPlayAgain_well_timed.
  - apply disconnect_from_well_timed.
Qed.

(** Whatever the clients have sent since the server started, the playing
    rooms have a start time and the players who have finished a finish
    time. *)
Lemma run_well_timed events : well_timed (run events ∅).
Proof.
  unfold run.
  assert (Hgen : ∀ rooms : gmap string Room, well_timed rooms →
    well_timed
      (foldl (λ rooms e, (handle e.1.1 e.1.2 e.2 rooms).1) rooms events)).
  { induction events as [|[[rt socket] ev] events IH]; intros rooms Hinv;
      simpl; [done|].
    apply IH. by apply handle_well_timed. }
  apply Hgen. intros code room Hroom. by rewrite lookup_empty in Hroom.
Qed.

(** C2. In any state the server can be in, when a finish signal makes every
    player of the room finished, the round goes to the player with the least
    finish time, to the one listed first when several share it; the players
    of the room are afterwards as they were on crossing the line except that
    this winner's score is one higher: the winner stored and sent has the old
    score plus one, every other score and every other field of every player
    is as it was. *)
Theorem playerWon_round_winner events rt socket roomCode room i player :
  run events ∅ !! roomCode = Some room →
  r_status room = playing →
  find_player socket (r_players room) = Some (i, player) →
  truthy (p_finished player) = false →
  all_finished (crossed rt i player room) = true →
  ∃ w winner time room' flag,
    playerWon rt socket roomCode (run events ∅)
      = (<[roomCode := room']> (run events ∅),
         [(to_room roomCode,
           roundResult (set_score (p_score winner + 1) winner)
                       (r_players room') (r_currentRound room)
                       (r_totalRounds room) flag)])
    ∧ crossed rt i player room !! w = Some winner
    ∧ p_lastFinishTime winner = Some time
    ∧ (∀ j p t, crossed rt i player room !! j = Some p →
                p_lastFinishTime p = Some t → (time <= t)%Q)
    ∧ (∀ j p t, (j < w)%nat → crossed rt i player room !! j = Some p →
                p_lastFinishTime p = Some t → (time < t)%Q)
    ∧ r_players room'
      = <[w := set_score (p_score winner + 1) winner]> (crossed rt i player room)
    ∧ r_players room' !! w = Some (set_score (p_score winner + 1) winner)
    ∧ p_score (set_score (p_score winner + 1) winner) = p_score winner + 1
    ∧ p_score <$> r_players room'
      = <[w := p_score winner + 1]> (p_score <$> crossed rt i player room)
    ∧ (λ p, (p_id p, p_name p, p_color p, p_x p, p_y p, p_finished p,
             p_lastFinishTime p, p_finishTime p)) <$> r_players room'
      = (λ p, (p_id p, p_name p, p_color p, p_x p, p_y p, p_finished p,
               p_lastFinishTime p, p_finishTime p))
          <$> crossed rt i player room.
Proof.
  intros Hroom Hplaying Hfind Hnot Hall.
  destruct (run_well_timed events roomCode room Hroom) as [Hstart Hps].
  destruct (Hstart Hplaying) as [start Hstarted].
  destruct (round_winner_least rt socket roomCode (run events ∅) room i player
              start Hroom Hplaying Hfind Hnot Hstarted)
    as (w & winner & time & room' & flag & Hsent & Hw & Htime & Hleast
        & Hfirst & Hplayers); [|done|].
  { intros p Hp. rewrite Forall_forall in Hps. by apply Hps. }
  exists w, winner, time, room', flag.
  do 6 (split; [done|]). rewrite Hplayers. split; [|split; [done|split]].
  - apply list_lookup_insert_eq. by eapply lookup_lt_Some.
  - by rewrite list_fmap_insert.
  - rewrite list_fmap_insert. apply list_insert_id.
    by rewrite list_lookup_fmap, Hw.
Qed.

End timing.

(** ** The theorems at work on the three-player match *)

Section at_work.
Import Maze Server Scenario.
Local Open Scope Z_scope.

(** The spec's example: finish times 5.0 s, 3.2 s and 3.2 s in list order give
    the round to the second player, whose third win out of five rounds ends
    the match in round 3. *)
Example second_of_three_wins :
  (λ r, (r_status r, p_score <$> r_players r))
    <$> (playerWon (runtime 6000) "s1" "AAAA" racing).1 !! "AAAA"
  = Some (game_over, [0; 3; 1]).
Proof. vm_compute. reflexivity. Qed.

Lemma playerWon_round_winner_witness :
  ∃ w winner time room' flag,
    playerWon (runtime 6000) "s1" "AAAA" (run first_home ∅)
      = (<["AAAA"%string := room']> (run first_home ∅),
         [(to_room "AAAA",
           roundResult (set_score (p_score winner + 1) winner)
                       (r_players room') (r_currentRound first_home_room)
                       (r_totalRounds first_home_room) flag)])
    ∧ crossed (runtime 6000) 0 first_home_ann first_home_room !! w
      = Some winner
    ∧ p_lastFinishTime winner = Some time
    ∧ (∀ j p t,
         crossed (runtime 6000) 0 first_home_ann first_home_room !! j = Some p →
         p_lastFinishTime p = Some t → (time <= t)%Q)
    ∧ (∀ j p t, (j < w)%nat →
         crossed (runtime 6000) 0 first_home_ann first_home_room !! j = Some p →
         p_lastFinishTime p = Some t → (time < t)%Q)
    ∧ r_players room'
      = <[w := set_score (p_score winner + 1) winner]>
          (crossed (runtime 6000) 0 first_home_ann first_home_room)
    ∧ r_players room' !! w = Some (set_score (p_score winner + 1) winner)
    ∧ p_score (set_score (p_score winner + 1) winner) = p_score winner + 1
    ∧ p_score <$> r_players room'
      = <[w := p_score winner + 1]>
          (p_score <$> crossed (runtime 6000) 0 first_home_ann first_home_room)
    ∧ (λ p, (p_id p, p_name p, p_color p, p_x p, p_y p, p_finished p,
             p_lastFinishTime p, p_finishTime p)) <$> r_players room'
      = (λ p, (p_id p, p_name p, p_color p, p_x p, p_y p, p_finished p,
               p_lastFinishTime p, p_finishTime p))
          <$> crossed (runtime 6000) 0 first_home_ann first_home_room.
Proof.
  apply (playerWon_round_winner first_home (runtime 6000) "s1" "AAAA"
           first_home_room 0%nat first_home_ann);
    vm_compute; reflexivity.
Defined.

Lemma playerWon_match_winner_witness :
  ∃ room' winner flag,
    playerWon (runtime 6000) "s1" "AAAA" racing
      = (<["AAAA"%string := room']> racing,
         [(to_room "AAAA",
           roundResult winner (r_players room') (r_currentRound race)
                       (r_totalRounds race) flag)])
    ∧ winner ∈ r_players room'
    ∧ (flag = true ↔
       ∃ total winsNeeded,
         r_totalRounds race = Some total
         ∧ total ≤ 2 * winsNeeded < total + 2
         ∧ (winsNeeded ≤ p_score winner ∨ r_currentRound race = total))
    ∧ r_status room' = (if flag then game_over else round_over)
    ∧ (r_totalRounds race = Some 5 → p_score winner = 3 →
       r_status room' = game_over)
    ∧ (r_totalRounds race = Some (r_currentRound race) →
       r_status room' = game_over).
Proof.
  apply (playerWon_match_winner (runtime 6000) "s1" "AAAA" racing race 0%nat
           ann); reflexivity.
Defined.

Lemma startRound_frame_witness :
  ∃ room',
    (startRound (runtime 9000) "AAAA" racing).1 = <["AAAA"%string := room']> racing
    ∧ r_id room' = r_id race
    ∧ r_maxPlayers room' = r_maxPlayers race
    ∧ r_totalRounds room' = r_totalRounds race
    ∧ r_currentRound room' = r_currentRound race
    ∧ length (r_players room') = length (r_players race)
    ∧ ∀ i p, r_players race !! i = Some p →
        ∃ p', r_players room' !! i = Some p'
          ∧ p_id p' = p_id p ∧ p_name p' = p_name p
          ∧ p_score p' = p_score p ∧ p_color p' = p_color p
          ∧ p_lastFinishTime p' = p_lastFinishTime p.
Proof.
  apply (startRound_frame (runtime 9000) "AAAA" racing race). reflexivity.
Defined.

Lemma joinRoom_autostart_witness :
  ∃ room' maze sent,
    joinRoom (runtime 1000) "s2" "Bob" "AAAA" lobby
      = (<["AAAA"%string := room']> lobby,
         [(to_room "AAAA", sent);
          (to_room "AAAA", gameStart maze 1 (r_players room') 1000 "AAAA")])
    ∧ r_status room' = playing
    ∧ r_maze room' = Some maze
    ∧ generateMaze (sort_order (runtime 1000)) 21 21 = Some maze
    ∧ r_startTime room' = Some 1000
    ∧ r_maxPlayers room' = Some (Z.of_nat (length (r_players room')))
    ∧ (∃ joined,
         r_players room'
           = (reset_player
                <$> [mkPlayer "s1" "Ann" 0 "#FF4136" None None None None None])
             ++ [joined]
         ∧ p_id joined = "s2"%string ∧ p_name joined = "Bob"%string)
    ∧ Forall (λ p, p_x p = Some 1 ∧ p_y p = Some 1) (r_players room').
Proof.
  apply (joinRoom_autostart (runtime 1000) "s2" "Bob" "AAAA" lobby
           (mkRoom "AAAA"
              [mkPlayer "s1" "Ann" 0 "#FF4136" None None None None None]
              (Some 2) (Some 3) 1 waiting None None)); reflexivity.
Defined.

Lemma joinRoom_full_witness :
  joinRoom (runtime 7000) "s4" "Dee" "AAAA" racing
    = (racing, [(to_sender, error "Game already in progress")]).
Proof.
  apply (joinRoom_full (runtime 7000) "s4" "Dee" "AAAA" racing race);
    reflexivity.
Defined.

(** C5 fails as stated: after Ann's room for two has been filled by Bob it
    holds [maxPlayers] players, and a further join is answered with "Game
    already in progress", not with "Room is full". *)
Lemma joinRoom_full_counterexample :
  (λ r, (r_maxPlayers r, length (r_players r))) <$> run opening ∅ !! "AAAA"
    = Some (Some 2, 2%nat)
  ∧ (joinRoom (runtime 2000) "s3" "Cy" "AAAA" (run opening ∅)).2
    = [(to_sender, error "Game already in progress")]
  ∧ (joinRoom (runtime 2000) "s3" "Cy" "AAAA" (run opening ∅)).2
    ≠ [(to_sender, error "Room is full")].
Proof.
  split; [vm_compute; reflexivity|]. split; [vm_compute; reflexivity|].
  vm_compute. discriminate.
Qed.

Lemma run_within_capacity_witness : within_capacity (run opening ∅).
Proof.
  apply (run_within_capacity opening).
  repeat constructor; simpl; intros m [= <-]; lia.
Defined.

(** C7 fails as stated: a room created with [maxPlayers] 0 holds its creator,
    one player more than that. *)
Lemma run_within_capacity_counterexample :
  ¬ within_capacity (run empty_room ∅)
  ∧ (λ r, (r_maxPlayers r, length (r_players r))) <$> run empty_room ∅ !! "AAAA"
    = Some (Some 0, 1%nat).
Proof.
  split; [|vm_compute; reflexivity].
  intros Hcap.
  specialize (Hcap "AAAA"%string
                (mkRoom "AAAA"
                   [mkPlayer "s1" "Ann" 0 "#FF4136" None None None None None]
                   (Some 0) (Some 3) 1 waiting None None) 0).
  simpl in Hcap. assert (1 ≤ 0) as Habs; [|lia].
  apply Hcap; [vm_compute|]; reflexivity.
Qed.

Lemma status_transitions_witness :
  transition (ev_playerWon "AAAA") "AAAA" playing game_over
  ∧ (playing = game_over →
     game_over = game_over
     ∨ (game_over = waiting ∧ ev_playerWon "AAAA" = ev_requestPlayAgain "AAAA"))
  ∧ (ev_playerWon "AAAA" = ev_requestPlayAgain "AAAA" → game_over = waiting).
Proof.
  apply (status_transitions (runtime 6000) "s1" (ev_playerWon "AAAA") racing
           "AAAA" race
           (mkRoom "AAAA"
              [mark_finished (Some (5000 # 1000)%Q) ann; set_score 3 bob; cy]
              (Some 3) (Some 5) 3 game_over None (Some 1000)));
    vm_compute; reflexivity.
Defined.

(** C8 fails as stated: a play-again request takes the room that Bob's join
    has set playing straight back to waiting. *)
Lemma status_transitions_counterexample :
  r_status <$> run opening ∅ !! "AAAA" = Some playing
  ∧ r_status
      <$> (handle (runtime 2000) "s2" (ev_requestPlayAgain "AAAA")
             (run opening ∅)).1 !! "AAAA"
    = Some waiting.
Proof. split; vm_compute; reflexivity. Qed.

Lemma createRoom_code_witness :
  length (chars characters) = 32%nat
  ∧ Forall (λ c, c ∉ chars characters) (chars "IO01")
  ∧ (∀ rooms' audience roomCode isHost room,
       createRoom (runtime 0) "s9" "Eve" (Some 2) (Some 3) ∅
         = (rooms', [(audience, roomCreated roomCode isHost room)]) →
       String.length roomCode = 4%nat
       ∧ Forall (λ c, c ∈ chars characters) (chars roomCode)
       ∧ (∅ : Rooms) !! roomCode = None
       ∧ rooms' = <[roomCode := room]> ∅
       ∧ r_id room = roomCode)
  ∧ (∀ k, (k < stack_depth (runtime 0))%nat →
       (∅ : Rooms) !! draw_code (Math_random (runtime 0)) (4 * k) = None →
       ∃ roomCode room,
         createRoom (runtime 0) "s9" "Eve" (Some 2) (Some 3) ∅
           = (<[roomCode := room]> ∅,
              [(to_sender, roomCreated roomCode true room)])).
Proof.
  apply (createRoom_code (runtime 0) "s9" "Eve" (Some 2) (Some 3) ∅).
  intros n. simpl. split; [apply Qle_refl|reflexivity].
Defined.

End at_work.


(** ** One event, room by room *)

Section changes.
Import Maze Server Changes.
Local Open Scope Z_scope.

Ltac at_key H code roomCode :=
  destruct (decide (code = roomCode)) as [->|?];
  [rewrite lookup_insert_eq in H|rewrite lookup_insert_ne in H by done];
  simplify_eq.

Lemma startRound_started rt roomCode rooms room :
  rooms !! roomCode = Some room →
  ∃ maze, generateMaze (sort_order rt) 21 21 = Some maze
    ∧ (startRound rt roomCode rooms).1
      = <[roomCode := started rt maze room]> rooms.
Proof.
  intros Hroom.
  destruct (startRound_lookup rt roomCode rooms room Hroom) as (maze & Hm & ->).
  by exists maze.
Qed.

Lemma joinRoom_change rt socket playerName roomCode rooms code room room' :
  rooms !! code = Some room →
  (joinRoom rt socket playerName roomCode rooms).1 !! code = Some room' →
  room' = room ∨ change rt socket (ev_joinRoom playerName roomCode) code room room'.
Proof.
  intros Hroom H.
  destruct (rooms !! roomCode) as [joined|] eqn:Hjoined.
  2: { unfold joinRoom in H. rewrite Hjoined in H.
       destruct (bool_decide _) in H; simpl in H; left; congruence. }
  destruct (decide (r_status joined = waiting)) as [Hwait|Hwait].
  2: { unfold joinRoom in H. rewrite Hjoined in H.
       rewrite bool_decide_eq_false_2 in H by done. simpl in H. left.
       congruence. }
  destruct (num_ge (Z.of_nat (length (r_players joined))) (r_maxPlayers joined))
    eqn:Hfull.
  { unfold joinRoom in H. rewrite Hjoined, Hfull in H.
    rewrite bool_decide_eq_true_2 in H by done. simpl in H. left. congruence. }
  rewrite (joinRoom_accepted _ _ _ _ _ _ Hjoined Hwait Hfull) in H.
  cbv zeta in H. cbn [r_players set_players] in H.
  fold (seated socket playerName joined) in H.
  destruct (num_eq _ _) eqn:Hnow; cbn [fst] in H.
  - destruct (startRound_started rt roomCode
                (<[roomCode := seated socket playerName joined]> rooms)
                (seated socket playerName joined))
      as (maze & Hmaze & Heq); [by rewrite lookup_insert_eq|].
    rewrite Heq, insert_insert_eq in H. at_key H code roomCode; [|by left].
    right. by apply change_fill.
  - at_key H code roomCode; [|by left]. right. by apply change_seat.
Qed.

Lemma playerMove_change rt socket roomCode position rooms code room room' :
  rooms !! code = Some room →
  (playerMove socket roomCode position rooms).1 !! code = Some room' →
  room' = room
  ∨ change rt socket (ev_playerMove roomCode position) code room room'.
Proof.
  intros Hroom H. unfold playerMove in H.
  destruct (rooms !! roomCode) as [moved|] eqn:Hmoved;
    [|simpl in H; left; congruence].
  destruct (decide (r_status moved = playing)) as [Hplaying|Hstatus].
  2: { rewrite bool_decide_eq_false_2 in H by done. simpl in H. left.
       congruence. }
  rewrite bool_decide_eq_true_2 in H by done. cbn [negb fst] in H.
  destruct (find_player socket (r_players moved)) as [[i player]|] eqn:Hfind;
    [|left; congruence].
  at_key H code roomCode; [|by left]. right. by apply change_move.
Qed.

Lemma playerWon_change rt socket roomCode rooms code room room' :
  rooms !! code = Some room →
  (playerWon rt socket roomCode rooms).1 !! code = Some room' →
  room' = room ∨ change rt socket (ev_playerWon roomCode) code room room'.
Proof.
  intros Hroom H.
  destruct (rooms !! roomCode) as [won|] eqn:Hwon.
  2: { unfold playerWon in H. rewrite Hwon in H. simpl in H. left.
       congruence. }
  destruct (decide (r_status won = playing)) as [Hplaying|Hstatus].
  2: { rewrite (playerWon_not_playing rt _ _ _ _ Hwon Hstatus) in H.
       simpl in H. left. congruence. }
  destruct (find_player socket (r_players won)) as [[i player]|] eqn:Hfind.
  2: { unfold playerWon in H. rewrite Hwon, Hfind in H.
       destruct (negb _); simpl in H; left; congruence. }
  destruct (truthy (p_finished player)) eqn:Hfin.
  { rewrite (playerWon_already_finished rt _ _ _ _ _ _ Hwon Hfind Hfin) in H.
    simpl in H. left. congruence. }
  rewrite (playerWon_recorded rt _ _ _ _ _ _ Hwon Hplaying Hfind Hfin) in H.
  cbv zeta in H.
  destruct (all_finished _) eqn:Hall.
  - pose proof Hfind as Hi. apply find_player_Some in Hi as (Hi & _ & _).
    apply lookup_lt_Some in Hi.
    destruct (round_has_winner rt i player won Hi)
      as (w & roundWinner & rest & Hsort).
    rewrite Hsort in H. cbn [fst] in H. at_key H code roomCode; [|by left].
    right. by eapply change_close.
  - cbn [fst] in H. at_key H code roomCode; [|by left].
    right. by apply change_finish.
Qed.

Lemma requestNextRound_change rt socket roomCode rooms code room room' :
  rooms !! code = Some room →
  (requestNextRound rt roomCode rooms).1 !! code = Some room' →
  room' = room ∨ change rt socket (ev_requestNextRound roomCode) code room room'.
Proof.
  intros Hroom H. unfold requestNextRound in H.
  destruct (rooms !! roomCode) as [next|] eqn:Hnext;
    [|simpl in H; left; congruence].
  destruct (decide (r_status next = round_over)) as [Hover|Hstatus].
  2: { rewrite bool_decide_eq_false_2 in H by done. simpl in H. left.
       congruence. }
  rewrite bool_decide_eq_true_2 in H by done. cbn [negb] in H.
  destruct (num_lt _ _) eqn:Hmore; [|simpl in H; left; congruence].
  destruct (startRound_started rt roomCode
              (<[roomCode := set_currentRound (r_currentRound next + 1) next]>
                 rooms)
              (set_currentRound (r_currentRound next + 1) next))
    as (maze & Hmaze & Heq); [by rewrite lookup_insert_eq|].
  rewrite Heq, insert_insert_eq in H. at_key H code roomCode; [|by left].
  right. by apply change_next.
Qed.

Lemma requestPlayAgain_change rt socket roomCode rooms code room room' :
  rooms !! code = Some room →
  (requestPlayAgain roomCode rooms).1 !! code = Some room' →
  room' = room ∨ change rt socket (ev_requestPlayAgain roomCode) code room room'.
Proof.
  intros Hroom H. unfold requestPlayAgain in H.
  destruct (rooms !! roomCode) as [again|] eqn:Hagain;
    [|simpl in H; left; congruence].
  cbn [fst] in H. at_key H code roomCode; [|by left].
  right. apply change_again.
Qed.

Lemma disconnect_from_change rt socket codes rooms code room room' :
  rooms !! code = Some room →
  (disconnect_from socket codes rooms).1 !! code = Some room' →
  room' = room ∨ change rt socket ev_disconnect code room room'.
Proof.
  intros Hroom. induction codes as [|c codes IH]; simpl; intros H.
  - left. congruence.
  - destruct (rooms !! c) as [gone|] eqn:Hgone; [|by apply IH].
    destruct (find_player socket (r_players gone)) as [[i player]|] eqn:Hfind;
      [|by apply IH].
    case_bool_decide as Hempty; cbn [fst] in H.
    + destruct (decide (code = c)) as [->|Hne].
      * by rewrite lookup_delete_eq in H.
      * rewrite lookup_delete_ne in H by done. left. congruence.
    + at_key H code c; [|by left]. right. by eapply change_leave.
Qed.

(** Every event leaves a room of the table as it is, changes it in one of the
    ways of [change], or removes it; a room that was not there has just been
    created. *)
Lemma handle_change rt socket ev rooms code room' :
  (handle rt socket ev rooms).1 !! code = Some room' →
  (∃ room, rooms !! code = Some room
     ∧ (room' = room ∨ change rt socket ev code room room'))
  ∨ (rooms !! code = None
     ∧ ∃ playerName maxPlayers totalRounds,
         ev = ev_createRoom playerName maxPlayers totalRounds
         ∧ room' = fresh_room code socket playerName maxPlayers totalRounds).
Proof.
  intros H. destruct (rooms !! code) as [room|] eqn:Hroom.
  - left. exists room. split; [done|].
    destruct ev as [n m t|playerName roomCode|roomCode position|roomCode
                    |roomCode|roomCode|]; simpl in H.
    + left. unfold createRoom in H.
      destruct (generateRoomCode _ _ _ _) as [roomCode|] eqn:Hcode;
        [|simpl in H; congruence].
      cbn [fst] in H.
      assert (rooms !! roomCode = None) as Hfree.
      { clear -Hcode. revert Hcode. generalize 0%nat.
        induction (stack_depth rt) as [|depth IH]; intros calls Hcode; [done|].
        simpl in Hcode.
        destruct (rooms !! draw_code (Math_random rt) calls) eqn:Hfree;
          [eauto|]. by simplify_eq. }
      rewrite lookup_insert_ne in H by congruence. congruence.
    + by eapply joinRoom_change.
    + by eapply playerMove_change.
    + by eapply playerWon_change.
    + by eapply requestNextRound_change.
    + by eapply requestPlayAgain_change.
    + by eapply disconnect_from_change.
  - right. split; [done|].
    destruct (handle_keys rt socket ev rooms code) as [[? Hsome]|(n & m & t & ->)];
      [by eexists|congruence|].
    exists n, m, t. split; [done|]. simpl in H. unfold createRoom in H.
    destruct (generateRoomCode _ _ _ _) as [roomCode|]; [|simpl in H; congruence].
    cbn [fst] in H. at_key H code roomCode. done.
Qed.

(** A property of rooms that a new room has and that no change destroys holds
    of every room of every table the server can reach, for the events that
    [ok] admits. *)
Lemma run_invariant (ok : Runtime * string * Event → Prop)
    (Q : string → Room → Prop) :
  (∀ rt socket playerName maxPlayers totalRounds code,
     ok (rt, socket, ev_createRoom playerName maxPlayers totalRounds) →
     Q code (fresh_room code socket playerName maxPlayers totalRounds)) →
  (∀ rt socket ev code room room',
     ok (rt, socket, ev) → Q code room → change rt socket ev code room room' →
     Q code room') →
  ∀ events, Forall ok events →
  ∀ code room, run events ∅ !! code = Some room → Q code room.
Proof.
  intros Hnew Hkeep events Hok. unfold run.
  assert (Hgen : ∀ rooms : gmap string Room,
    (∀ code room, rooms !! code = Some room → Q code room) →
    ∀ code room,
      foldl (λ rooms e, (handle e.1.1 e.1.2 e.2 rooms).1) rooms events !! code
        = Some room → Q code room).
  { induction Hok as [|[[rt socket] ev] events He _ IH]; intros rooms Hinv;
      simpl; [done|].
    apply IH. intros code room' Hroom'.
    apply handle_change in Hroom'
      as [(room & Hroom & [->|Hch])|(_ & n & m & t & -> & ->)]; eauto. }
  apply Hgen. intros code room Hroom. by rewrite lookup_empty in Hroom.
Qed.

End changes.


(** ** What holds of every room the server can reach *)

Section reachable_rooms.
Import Maze Server Changes Rules.
Local Open Scope Z_scope.

Lemma total_score_app (l k : list Player) :
  total_score (l ++ k) = total_score l + total_score k.
Proof. induction l as [|p l IH]; simpl; [done|]. rewrite IH. lia. Qed.

Lemma total_score_fmap (f : Player → Player) (l : list Player) :
  (∀ p, p_score (f p) = p_score p) → total_score (f <$> l) = total_score l.
Proof.
  intros Hf. induction l as [|p l IH]; csimpl; [done|]. by rewrite Hf, IH.
Qed.

Lemma total_score_insert (l : list Player) (i : nat) p p' :
  l !! i = Some p →
  total_score (<[i := p']> l) = total_score l - p_score p + p_score p'.
Proof.
  revert i. induction l as [|q l IH]; intros [|i] Hi; simplify_eq/=; [lia|].
  rewrite (IH i Hi). lia.
Qed.

Lemma total_score_delete (l : list Player) (i : nat) p :
  l !! i = Some p → total_score (delete i l) = total_score l - p_score p.
Proof.
  revert i. induction l as [|q l IH]; intros [|i] Hi; simplify_eq/=; [lia|].
  rewrite (IH i Hi). lia.
Qed.

Lemma total_score_zero (l : list Player) : total_score (set_score 0 <$> l) = 0.
Proof. induction l as [|p l IH]; csimpl; [done|]. by rewrite IH. Qed.

Lemma crossed_lookup rt i player room :
  r_players room !! i = Some player →
  crossed rt i player room !! i
    = Some (mark_finished (elapsed (Date_now rt) (r_startTime room)) player).
Proof.
  intros Hi. unfold crossed. apply list_lookup_insert_eq.
  by eapply lookup_lt_Some.
Qed.

Lemma total_score_crossed rt i player room :
  r_players room !! i = Some player →
  total_score (crossed rt i player room) = total_score (r_players room).
Proof.
  intros Hi. unfold crossed. rewrite (total_score_insert _ _ _ _ Hi).
  simpl. lia.
Qed.

Lemma scores_crossed rt i player room :
  r_players room !! i = Some player →
  Forall (λ p, 0 ≤ p_score p) (r_players room) →
  Forall (λ p, 0 ≤ p_score p) (crossed rt i player room).
Proof.
  intros Hi Hall. unfold crossed. apply Forall_insert; [done|].
  rewrite Forall_lookup in Hall. apply (Hall i player Hi).
Qed.

(** X1. Every room of a reachable table is stored under its own id and has
    at least one player. *)
Theorem run_rooms_keyed events code room :
  run events ∅ !! code = Some room →
  r_id room = code ∧ r_players room ≠ [].
Proof.
  intros Hroom.
  assert (r_id room = code ∧ (0 < length (r_players room))%nat) as [Hid Hlen].
  2: { split; [done|]. intros Heq. rewrite Heq in Hlen. simpl in Hlen. lia. }
  revert code room Hroom.
  apply (run_invariant (λ _, True)
           (λ code room, r_id room = code
                         ∧ (0 < length (r_players room))%nat)).
  - intros. simpl. split; [done|lia].
  - intros rt socket ev code room room' _ [Hid Hne] Hch.
    destruct Hch; unfold crossed;
      cbn [r_id r_players seated started set_players set_status
           set_currentRound round_closed lobby_reset];
      (split; [done|]);
      rewrite ?length_fmap, ?length_app, ?length_insert; simpl; lia.
  - by apply Forall_true.
Qed.

(** X2. When no room is created for fewer than one round, the current round
    of every reachable room lies between 1 and its [totalRounds]. *)
Theorem run_round_bounds events code room :
  Forall sane_rounds events →
  run events ∅ !! code = Some room →
  1 ≤ r_currentRound room
  ∧ ∀ t, r_totalRounds room = Some t → r_currentRound room ≤ t.
Proof.
  intros Hsane Hroom.
  cut (1 ≤ r_currentRound room
       ∧ ∀ t, r_totalRounds room = Some t → 1 ≤ t ∧ r_currentRound room ≤ t).
  { intros [H1 Ht]. split; [done|]. intros t Htotal. by apply Ht. }
  revert code room Hroom.
  apply (run_invariant sane_rounds
           (λ _ room, 1 ≤ r_currentRound room
                      ∧ ∀ t, r_totalRounds room = Some t →
                             1 ≤ t ∧ r_currentRound room ≤ t));
    [| |exact Hsane].
  - intros rt socket n m t code Hok. simpl. split; [lia|].
    intros t' ->. split; by apply Hok.
  - intros rt socket ev code room room' _ [H1 Ht] Hch.
    destruct Hch as [| | | | |code room maze Hover Hmore Hmaze|code room|];
      cbn [r_totalRounds r_currentRound seated started set_players
           set_status set_currentRound round_closed lobby_reset];
      try (split; [done|]; done).
    + split; [lia|]. intros t Htotal. destruct (Ht t Htotal) as [? ?].
      split; [done|]. rewrite Htotal in Hmore. simpl in Hmore.
      apply bool_decide_eq_true in Hmore. lia.
    + split; [lia|]. intros t Htotal. destruct (Ht t Htotal). lia.
Qed.

(** X3. In every reachable room the scores are not negative and add up to at
    most the number of rounds the room has played to the end since the scores
    were last zero. *)
Theorem run_scores events code room :
  run events ∅ !! code = Some room →
  Forall (λ p, 0 ≤ p_score p) (r_players room)
  ∧ total_score (r_players room) ≤ rounds_done room.
Proof.
  revert code room.
  apply (run_invariant (λ _, True)
           (λ _ room, Forall (λ p, 0 ≤ p_score p) (r_players room)
                      ∧ total_score (r_players room) ≤ rounds_done room)).
  - intros. unfold rounds_done. simpl. split; [by repeat constructor|lia].
  - intros rt socket ev code room room' _ [Hpos Hsum] Hch.
    unfold rounds_done in *.
    destruct Hch as [n code room Hwait|n code room maze Hwait|code pos room i
                     player Hplay Hfind|code room i player Hplay Hfind
                    |code room i player w roundWinner rest Hplay Hfind Hfin
                       Hall Hsort
                    |code room maze Hover|code room|code room i player Hfind];
      cbn [r_players r_status r_currentRound seated started set_players
           set_status set_currentRound round_closed lobby_reset].
    + rewrite Hwait in *. split.
      * apply Forall_app. split; [done|]. by repeat constructor.
      * rewrite total_score_app. simpl. lia.
    + rewrite Hwait in *. split.
      * apply Forall_fmap. apply Forall_app.
        split; [|by repeat constructor].
        eapply Forall_impl; [exact Hpos|]. done.
      * rewrite total_score_fmap by done. rewrite total_score_app. simpl. lia.
    + apply find_player_Some in Hfind as (Hi & _ & _). split.
      * apply Forall_insert; [done|]. rewrite Forall_lookup in Hpos.
        apply (Hpos i player Hi).
      * rewrite (total_score_insert _ _ _ _ Hi). simpl. lia.
    + apply find_player_Some in Hfind as (Hi & _ & _). split.
      * by apply scores_crossed.
      * by rewrite total_score_crossed.
    + apply find_player_Some in Hfind as (Hi & _ & _).
      apply round_winner_lookup in Hsort.
      pose proof (scores_crossed rt i player room Hi Hpos) as Hpos'.
      split.
      * apply Forall_insert; [done|]. rewrite Forall_lookup in Hpos'.
        pose proof (Hpos' w roundWinner Hsort). simpl in *. lia.
      * rewrite (total_score_insert _ _ _ _ Hsort). simpl.
        rewrite total_score_crossed by done. rewrite Hplay in Hsum.
        destruct (_ || _); lia.
    + rewrite Hover in *. split.
      * apply Forall_fmap. eapply Forall_impl; [exact Hpos|]. done.
      * rewrite total_score_fmap by done. lia.
    + split.
      * apply Forall_fmap, Forall_true. by intros p.
      * rewrite total_score_zero. lia.
    + apply find_player_Some in Hfind as (Hi & _ & _). split.
      * by apply Forall_delete.
      * rewrite (total_score_delete _ _ _ Hi). rewrite Forall_lookup in Hpos.
        pose proof (Hpos i player Hi). simpl in *. lia.
  - by apply Forall_true.
Qed.

Lemma fmap_insert_same {B} (f : Player → B) (l : list Player) i p p' :
  l !! i = Some p → f p' = f p → f <$> <[i := p']> l = f <$> l.
Proof.
  intros Hi Hf. rewrite list_fmap_insert. apply list_insert_id.
  rewrite list_lookup_fmap, Hi. simpl. congruence.
Qed.

Lemma fmap_crossed {B} (f : Player → B) rt i player room :
  r_players room !! i = Some player →
  (∀ t, f (mark_finished t player) = f player) →
  f <$> crossed rt i player room = f <$> r_players room.
Proof. intros Hi Hf. unfold crossed. by eapply fmap_insert_same. Qed.

Lemma colors_NoDup : NoDup colors.
Proof. apply (bool_decide_unpack _). vm_compute. exact I. Qed.

(** X4. As long as no connection is lost, the players of every reachable
    room wear the palette colours in list order, starting over after the
    tenth; so the players of a room of at most ten have colours that differ
    from one another. *)
Theorem run_colours events code room :
  Forall no_departure events →
  run events ∅ !! code = Some room →
  (∀ i p, r_players room !! i = Some p →
          colors !! (i mod 10)%nat = Some (p_color p))
  ∧ ((length (r_players room) ≤ 10)%nat → NoDup (p_color <$> r_players room)).
Proof.
  intros Hstay Hroom.
  cut (∀ i c, (p_color <$> r_players room) !! i = Some c →
              colors !! (i mod 10)%nat = Some c).
  { intros Hcol. split.
    - intros i p Hp. apply Hcol. by rewrite list_lookup_fmap, Hp.
    - intros Hlen. apply NoDup_alt. intros i j c Hi Hj.
      pose proof (lookup_lt_Some _ _ _ Hi) as Hi'.
      pose proof (lookup_lt_Some _ _ _ Hj) as Hj'.
      rewrite length_fmap in Hi', Hj'.
      apply Hcol in Hi. apply Hcol in Hj.
      rewrite Nat.mod_small in Hi, Hj by lia.
      pose proof colors_NoDup as Hnd. rewrite NoDup_alt in Hnd. eauto. }
  revert code room Hroom.
  apply (run_invariant no_departure
           (λ _ room, ∀ i c, (p_color <$> r_players room) !! i = Some c →
                             colors !! (i mod 10)%nat = Some c));
    [| |exact Hstay].
  - intros rt socket n m t code _ [|i] c Hc; [|done]. by injection Hc as <-.
  - intros rt socket ev code room room' Hok Hcol Hch.
    assert (Hseat : ∀ n i c,
      (p_color <$> r_players room ++ [newcomer socket n room]) !! i = Some c →
      colors !! (i mod 10)%nat = Some c).
    { intros n i c. rewrite fmap_app. intros Hc.
      apply lookup_app_Some in Hc as [Hc|[Hi Hc]]; [by apply Hcol|].
      rewrite length_fmap in Hi, Hc.
      apply list_lookup_singleton_Some in Hc as [Hk <-].
      assert (i = length (r_players room)) as -> by lia.
      unfold newcomer. cbn [p_color].
      change (length colors) with 10%nat.
      destruct (lookup_lt_is_Some_2 colors (length (r_players room) mod 10))
        as [c Hc]; [|by rewrite Hc].
      change (length colors) with 10%nat. apply Nat.mod_upper_bound. lia. }
    destruct Hch as [n code room Hwait|n code room maze Hwait|code pos room i
                     player Hplay Hfind|code room i player Hplay Hfind
                    |code room i player w roundWinner rest Hplay Hfind Hfin
                       Hall Hsort
                    |code room maze Hover|code room|code room i player Hfind];
      cbn [r_players seated started set_players set_status set_currentRound
           round_closed lobby_reset].
    + apply Hseat.
    + rewrite <- list_fmap_compose.
      rewrite (list_fmap_ext (p_color ∘ reset_player) p_color) by done.
      apply Hseat.
    + apply find_player_Some in Hfind as (Hi & _ & _).
      by rewrite (fmap_insert_same p_color _ _ _ _ Hi).
    + apply find_player_Some in Hfind as (Hi & _ & _).
      by rewrite (fmap_crossed p_color rt _ _ _ Hi).
    + apply find_player_Some in Hfind as (Hi & _ & _).
      apply round_winner_lookup in Hsort.
      rewrite (fmap_insert_same p_color _ _ _ _ Hsort) by done.
      by rewrite (fmap_crossed p_color rt _ _ _ Hi).
    + rewrite <- list_fmap_compose.
      by rewrite (list_fmap_ext (p_color ∘ reset_player) p_color).
    + rewrite <- list_fmap_compose.
      by rewrite (list_fmap_ext (p_color ∘ set_score 0) p_color).
    + by destruct Hok.
Qed.

Lemma all_finished_Forall (l : list Player) :
  all_finished l = true ↔ Forall (λ p, truthy (p_finished p) = true) l.
Proof.
  unfold all_finished. rewrite forallb_forall, Forall_forall.
  split; intros H p Hp; apply H; by apply list_elem_of_In.
Qed.

(** X5. A reachable room is [round_over] or [game_over] only with every one
    of its players finished. *)
Theorem run_round_over_finished events code room :
  run events ∅ !! code = Some room →
  r_status room = round_over ∨ r_status room = game_over →
  all_finished (r_players room) = true.
Proof.
  revert code room.
  apply (run_invariant (λ _, True)
           (λ _ room, r_status room = round_over ∨ r_status room = game_over →
                      all_finished (r_players room) = true)).
  - intros. simpl in *. by destruct H0.
  - intros rt socket ev code room room' _ Hinv Hch.
    destruct Hch as [n code room Hwait|n code room maze Hwait|code pos room i
                     player Hplay Hfind|code room i player Hplay Hfind
                    |code room i player w roundWinner rest Hplay Hfind Hfin
                       Hall Hsort
                    |code room maze Hover|code room|code room i player Hfind];
      cbn [r_players r_status seated started set_players set_status
           set_currentRound round_closed lobby_reset];
      try (rewrite ?Hwait, ?Hplay; by intros [?|?]).
    + intros _. apply round_winner_lookup in Hsort.
      apply all_finished_Forall. apply all_finished_Forall in Hall.
      apply Forall_insert; [done|]. rewrite Forall_lookup in Hall.
      apply (Hall w roundWinner Hsort).
    + intros Hst. specialize (Hinv Hst).
      apply all_finished_Forall. apply all_finished_Forall in Hinv.
      by apply Forall_delete.
  - by apply Forall_true.
Qed.

End reachable_rooms.

(** ** Lobbies that cannot start and rounds that cannot end *)

Section dead_ends.
Import Maze Server Changes Rules.
Local Open Scope Z_scope.

Lemma startRound_survives rt roomCode (rooms : gmap string Room) code :
  is_Some (rooms !! code) → is_Some ((startRound rt roomCode rooms).1 !! code).
Proof.
  intros Hsome. unfold startRound. repeat case_match; cbn [fst]; try done;
    rewrite lookup_insert_is_Some; destruct (decide (roomCode = code)); auto.
Qed.

Lemma insert_survives (rooms : gmap string Room) k v code :
  is_Some (rooms !! code) → is_Some (<[k := v]> rooms !! code).
Proof.
  intros Hsome. rewrite lookup_insert_is_Some.
  destruct (decide (k = code)); auto.
Qed.

(** Only a disconnect removes a room from the table. *)
Lemma handle_survives rt socket ev (rooms : gmap string Room) code :
  ev ≠ ev_disconnect →
  is_Some (rooms !! code) → is_Some ((handle rt socket ev rooms).1 !! code).
Proof.
  intros Hev Hsome.
  destruct ev as [n m t|playerName roomCode|roomCode position|roomCode
                  |roomCode|roomCode|]; simpl; [| | | | | |done].
  - unfold createRoom. case_match; cbn [fst]; [|done].
    by apply insert_survives.
  - unfold joinRoom. repeat case_match; cbn [fst]; try done.
    + match goal with Hs : startRound _ _ _ = _ |- _ =>
        apply (f_equal fst) in Hs; cbn [fst] in Hs; rewrite <- Hs end.
      by apply startRound_survives, insert_survives.
    + by apply insert_survives.
  - unfold playerMove. repeat case_match; cbn [fst]; try done.
    by apply insert_survives.
  - unfold playerWon. repeat case_match; cbn [fst]; try done;
      by apply insert_survives.
  - unfold requestNextRound. repeat case_match; cbn [fst]; try done.
    by apply startRound_survives, insert_survives.
  - unfold requestPlayAgain. repeat case_match; cbn [fst]; try done.
    by apply insert_survives.
Qed.

(** Without [createRoom] no key is added to the table. *)
Lemma run_absent events (rooms : gmap string Room) code :
  Forall no_creation events →
  rooms !! code = None → run events rooms !! code = None.
Proof.
  intros Hok. revert rooms. unfold run.
  induction Hok as [|[[rt socket] ev] events He _ IH]; intros rooms Hnone;
    simpl; [done|].
  apply IH. apply eq_None_not_Some. intros Hsome.
  apply handle_keys in Hsome as [Hsome|(n & m & t & ->)].
  - rewrite Hnone in Hsome. by destruct Hsome.
  - done.
Qed.

Lemma full_lobby_step rt socket ev code room room' :
  ev ≠ ev_disconnect → full_lobby room →
  change rt socket ev code room room' →
  full_lobby room' ∧ roster room' = roster room.
Proof.
  intros Hev [Hwait Hfull] Hch.
  destruct Hch as [n code room Hwait' Hfree|n code room maze Hwait' Hfree
                  |code pos room i player Hplay|code room i player Hplay
                  |code room i player w roundWinner rest Hplay
                  |code room maze Hover|code room|code room i player Hfind];
    try congruence.
  unfold full_lobby, roster, lobby_reset.
  cbn [r_status r_players r_maxPlayers set_status set_players
       set_currentRound].
  rewrite length_fmap. split; [done|].
  rewrite <- list_fmap_compose. by apply list_fmap_ext.
Qed.

(** X6. A lobby with no seat left, as a play-again request leaves a full
    room, never starts a round by itself: whatever the clients send, as long
    as nobody disconnects the room stays waiting with the same players, and
    every join is refused with "Room is full". *)
Theorem full_lobby_stays events (rooms : gmap string Room) code room :
  Forall no_departure events →
  rooms !! code = Some room →
  full_lobby room →
  ∃ room',
    run events rooms !! code = Some room'
    ∧ full_lobby room'
    ∧ roster room' = roster room
    ∧ ∀ rt socket playerName,
        joinRoom rt socket playerName code (run events rooms)
          = (run events rooms, [(to_sender, error "Room is full")]).
Proof.
  intros Hstay. revert rooms room. unfold run.
  induction Hstay as [|[[rt socket] ev] events He _ IH];
    intros rooms room Hroom Hfull; simpl.
  - exists room. split; [done|]. split; [done|]. split; [done|].
    intros rt socket playerName. destruct Hfull as [Hwait Hfull].
    unfold joinRoom. rewrite Hroom, Hwait, Hfull.
    by rewrite bool_decide_eq_true_2.
  - destruct (handle_survives rt socket ev rooms code He) as [room1 Hroom1];
      [by eexists|].
    pose proof Hroom1 as Hch.
    apply handle_change in Hch as [(room0 & Hroom0 & Hch)|[Hnone _]];
      [|congruence].
    simplify_eq. destruct Hch as [->|Hch].
    + by apply IH.
    + destruct (full_lobby_step _ _ _ _ _ _ He Hfull Hch) as [Hfull1 Hroster].
      destruct (IH _ _ Hroom1 Hfull1) as (room' & Hr' & Hf' & Hro' & Hj').
      exists room'. split; [done|]. split; [done|]. split; [|done].
      by rewrite Hro'.
Qed.

Lemma stalled_step rt socket ev code room room' :
  ev ≠ ev_requestPlayAgain code → stalled room →
  change rt socket ev code room room' → stalled room'.
Proof.
  intros Hev [Hplay Hall] Hch.
  assert (Hdone : ∀ i player, find_player socket (r_players room)
                    = Some (i, player) → truthy (p_finished player) = true).
  { intros i player Hfind. apply find_player_Some in Hfind as (Hi & _ & _).
    apply all_finished_Forall in Hall. rewrite Forall_lookup in Hall.
    apply (Hall i player Hi). }
  destruct Hch as [n code room Hwait'|n code room maze Hwait'
                  |code pos room i player _ Hfind|code room i player _ Hfind Hfin
                  |code room i player w roundWinner rest _ Hfind Hfin
                  |code room maze Hover|code room|code room i player Hfind];
    try congruence;
    try (rewrite (Hdone _ _ Hfind) in Hfin; discriminate).
  - split; [done|]. cbn [r_players set_players].
    pose proof (Hdone _ _ Hfind) as Hfin.
    apply find_player_Some in Hfind as (Hi & _ & _).
    apply all_finished_Forall. apply all_finished_Forall in Hall.
    by apply Forall_insert.
  - split; [done|]. cbn [r_players set_players].
    apply all_finished_Forall. apply all_finished_Forall in Hall.
    by apply Forall_delete.
Qed.

Lemma stalled_run events (rooms : gmap string Room) code room room' :
  Forall (λ e, e.2 ≠ ev_requestPlayAgain code ∧ no_creation e) events →
  rooms !! code = Some room →
  stalled room →
  run events rooms !! code = Some room' →
  stalled room'.
Proof.
  intros Hok. revert rooms room. unfold run.
  induction Hok as [|[[rt socket] ev] events [He Hnew] Hrest IH];
    intros rooms room Hroom Hstalled; simpl.
  - intros Hroom'. by simplify_eq.
  - simpl in He.
    destruct ((handle rt socket ev rooms).1 !! code) as [room1|] eqn:Hroom1.
    + pose proof Hroom1 as Hch.
      apply handle_change in Hch as [(room0 & Hroom0 & Hch)|[Hnone _]];
        [|congruence].
      simplify_eq. apply (IH _ room1 Hroom1). destruct Hch as [->|Hch]; [done|].
      by eapply stalled_step.
    + intros Hroom'.
      assert (Hcreate : Forall no_creation events).
      { eapply Forall_impl; [exact Hrest|]. by intros e [_ ?]. }
      pose proof (run_absent events _ code Hcreate Hroom1) as Hnone.
      unfold run in Hnone. congruence.
Qed.

(** In a stalled room a finish signal and a request for the next round are
    dropped. *)
Lemma stalled_silent rt socket (rooms : gmap string Room) code room :
  rooms !! code = Some room → stalled room →
  playerWon rt socket code rooms = (rooms, [])
  ∧ requestNextRound rt code rooms = (rooms, []).
Proof.
  intros Hroom [Hstatus Hall]. split.
  - destruct (find_player socket (r_players room)) as [[i player]|] eqn:Hfind.
    + apply (playerWon_already_finished rt socket code rooms room i player);
        [done|done|].
      apply all_finished_Forall in Hall. rewrite Forall_forall in Hall.
      apply Hall. apply find_player_Some in Hfind as (Hi & _).
      by eapply list_elem_of_lookup_2.
    + unfold playerWon. rewrite Hroom, Hfind. by destruct (negb _).
  - unfold requestNextRound. rewrite Hroom, Hstatus.
    by rewrite bool_decide_eq_false_2.
Qed.

(** X7. A round in which every remaining player has finished, as the
    disconnect of the last one still running leaves it, never ends: until a
    play-again request for the room (no room being created meanwhile) the
    room, while it exists, is playing with everybody finished, and every
    finish signal and every request for the next round is dropped without
    an answer. *)
Theorem stalled_stays events (rooms : gmap string Room) code room room' :
  Forall (λ e, e.2 ≠ ev_requestPlayAgain code ∧ no_creation e) events →
  rooms !! code = Some room →
  stalled room →
  run events rooms !! code = Some room' →
  stalled room'
  ∧ ∀ rt socket,
      playerWon rt socket code (run events rooms) = (run events rooms, [])
      ∧ requestNextRound rt code (run events rooms) = (run events rooms, []).
Proof.
  intros Hok Hroom Hstalled Hroom'.
  pose proof (stalled_run events rooms code room room' Hok Hroom Hstalled Hroom')
    as Hstalled'.
  split; [done|]. intros rt socket. by eapply stalled_silent.
Qed.

End dead_ends.

(** ** Who sits in a room, and what is dropped *)

Section rosters.
Import Maze Server Changes Rules.
Local Open Scope Z_scope.

Lemma fmap_delete {B} (f : Player → B) (l : list Player) (i : nat) :
  f <$> delete i l = delete i (f <$> l).
Proof.
  revert i. induction l as [|p l IH]; intros [|i]; csimpl; try done.
  by rewrite IH.
Qed.

(** X8. No event changes the id, the [maxPlayers] or the [totalRounds] of a
    room, nor the connection, name or colour of a player, nor the order of
    the players: the list of a room stays as it is, gets the joining socket
    appended, or loses one entry of the disconnecting socket. *)
Theorem handle_roster rt socket ev (rooms : gmap string Room) code room room' :
  rooms !! code = Some room →
  (handle rt socket ev rooms).1 !! code = Some room' →
  r_id room' = r_id room
  ∧ r_maxPlayers room' = r_maxPlayers room
  ∧ r_totalRounds room' = r_totalRounds room
  ∧ (badges room' = badges room
     ∨ (∃ playerName colour,
          ev = ev_joinRoom playerName code
          ∧ badges room' = badges room ++ [(socket, playerName, colour)])
     ∨ (∃ i playerName colour,
          ev = ev_disconnect
          ∧ badges room !! i = Some (socket, playerName, colour)
          ∧ badges room' = delete i (badges room))).
Proof.
  intros Hroom Hroom'.
  apply handle_change in Hroom' as [(room0 & Hroom0 & Hch)|[Hnone _]];
    [|congruence].
  simplify_eq. destruct Hch as [->|Hch]; [by auto|].
  unfold badges.
  destruct Hch as [n code room Hwait|n code room maze Hwait|code pos room i
                   player Hplay Hfind|code room i player Hplay Hfind
                  |code room i player w roundWinner rest Hplay Hfind Hfin
                     Hall Hsort
                  |code room maze Hover|code room|code room i player Hfind];
    cbn [r_id r_maxPlayers r_totalRounds r_players seated started set_players
         set_status set_currentRound round_closed lobby_reset];
    (split; [done|]); (split; [done|]); (split; [done|]).
  - right. left. eexists n, _. split; [done|]. by rewrite fmap_app.
  - right. left. eexists n, _. split; [done|].
    rewrite <- list_fmap_compose.
    rewrite (list_fmap_ext (badge ∘ reset_player) badge) by done.
    by rewrite fmap_app.
  - left. apply find_player_Some in Hfind as (Hi & _ & _).
    by rewrite (fmap_insert_same badge _ _ _ _ Hi).
  - left. apply find_player_Some in Hfind as (Hi & _ & _).
    by rewrite (fmap_crossed badge rt _ _ _ Hi).
  - left. apply find_player_Some in Hfind as (Hi & _ & _).
    apply round_winner_lookup in Hsort.
    rewrite (fmap_insert_same badge _ _ _ _ Hsort) by done.
    by rewrite (fmap_crossed badge rt _ _ _ Hi).
  - left. rewrite <- list_fmap_compose.
    by rewrite (list_fmap_ext (badge ∘ reset_player) badge).
  - left. rewrite <- list_fmap_compose.
    by rewrite (list_fmap_ext (badge ∘ set_score 0) badge).
  - right. right. apply find_player_Some in Hfind as (Hi & Hid & _).
    exists i, (p_name player), (p_color player). split; [done|]. split.
    + rewrite list_lookup_fmap, Hi. simpl. unfold badge. by rewrite Hid.
    + apply fmap_delete.
Qed.

Lemma disconnect_from_nobody socket codes (rooms : gmap string Room) :
  (∀ c r, c ∈ codes → rooms !! c = Some r →
          find_player socket (r_players r) = None) →
  disconnect_from socket codes rooms = (rooms, []).
Proof.
  induction codes as [|c codes IH]; intros Hnone; simpl; [done|].
  destruct (rooms !! c) as [r|] eqn:Hr.
  - rewrite (Hnone c r) by (done || left). apply IH.
    intros c' r' Hc'. apply Hnone. by right.
  - apply IH. intros c' r' Hc'. apply Hnone. by right.
Qed.

(** X9. A disconnect takes the socket out of one room only, the first in the
    order of the keys that lists it, and there it removes the first entry of
    the socket; the room is told the remaining players, and is deleted when
    none remains.  Every other room, also one that lists the socket too,
    stays as it is; and in a table where no room lists the socket nothing
    changes and nobody is told. *)
Theorem disconnect_first rt socket (rooms : gmap string Room)
    before code after room i player :
  key_order rt = before ++ code :: after →
  (∀ c r, c ∈ before → rooms !! c = Some r →
          find_player socket (r_players r) = None) →
  rooms !! code = Some room →
  find_player socket (r_players room) = Some (i, player) →
  disconnect rt socket rooms
    = (if bool_decide (length (delete i (r_players room)) = 0%nat)
       then delete code rooms
       else <[code := set_players (delete i (r_players room)) room]> rooms,
       [(to_room code, playerLeft (delete i (r_players room)))])
  ∧ (∀ c, c ≠ code → (disconnect rt socket rooms).1 !! c = rooms !! c)
  ∧ (∀ others : gmap string Room,
       (∀ c r, c ∈ key_order rt → others !! c = Some r →
               find_player socket (r_players r) = None) →
       disconnect rt socket others = (others, [])).
Proof.
  intros Horder Hbefore Hroom Hfind. unfold disconnect. rewrite Horder.
  assert (Heq : disconnect_from socket (before ++ code :: after) rooms
    = (if bool_decide (length (delete i (r_players room)) = 0%nat)
       then delete code rooms
       else <[code := set_players (delete i (r_players room)) room]> rooms,
       [(to_room code, playerLeft (delete i (r_players room)))])).
  { clear Horder. induction before as [|c before IH]; simpl.
    - rewrite Hroom, Hfind. cbn [r_players set_players]. by case_bool_decide.
    - destruct (rooms !! c) as [r|] eqn:Hr.
      + rewrite (Hbefore c r) by (done || left). apply IH.
        intros c' r' Hc'. apply Hbefore. by right.
      + apply IH. intros c' r' Hc'. apply Hbefore. by right. }
  rewrite Heq. split; [done|]. split.
  - intros c Hc. cbn [fst]. case_bool_decide.
    + by rewrite lookup_delete_ne.
    + by rewrite lookup_insert_ne.
  - intros others Hnobody. by apply disconnect_from_nobody.
Qed.

Lemma lobby_reset_idem room : lobby_reset (lobby_reset room) = lobby_reset room.
Proof.
  unfold lobby_reset, set_status, set_players, set_currentRound.
  cbn [r_id r_players r_maxPlayers r_totalRounds r_currentRound r_status
       r_maze r_startTime].
  f_equal. rewrite <- list_fmap_compose. by apply list_fmap_ext.
Qed.

(** X10. A play-again request puts an existing room back to waiting in round
    1 with every score at 0, whatever its status was, and tells the room its
    players; positions, finished flags, finish times, maze and start time
    stay as the last round left them, and a second request changes nothing
    more. *)
Theorem requestPlayAgain_resets roomCode (rooms : gmap string Room) room :
  rooms !! roomCode = Some room →
  ∃ room',
    requestPlayAgain roomCode rooms
      = (<[roomCode := room']> rooms,
         [(to_room roomCode, resetToLobby (r_players room'))])
    ∧ r_status room' = waiting
    ∧ r_currentRound room' = 1
    ∧ Forall (λ p, p_score p = 0) (r_players room')
    ∧ (λ p, (badge p, p_x p, p_y p, p_finished p, p_lastFinishTime p,
             p_finishTime p)) <$> r_players room'
      = (λ p, (badge p, p_x p, p_y p, p_finished p, p_lastFinishTime p,
               p_finishTime p)) <$> r_players room
    ∧ (r_id room', r_maxPlayers room', r_totalRounds room', r_maze room',
       r_startTime room')
      = (r_id room, r_maxPlayers room, r_totalRounds room, r_maze room,
         r_startTime room)
    ∧ (requestPlayAgain roomCode (requestPlayAgain roomCode rooms).1).1
      = (requestPlayAgain roomCode rooms).1.
Proof.
  intros Hroom. exists (lobby_reset room).
  assert (Heq : ∀ (table : gmap string Room) r, table !! roomCode = Some r →
    requestPlayAgain roomCode table
      = (<[roomCode := lobby_reset r]> table,
         [(to_room roomCode, resetToLobby (r_players (lobby_reset r)))])).
  { intros table r Hr. unfold requestPlayAgain. by rewrite Hr. }
  rewrite (Heq rooms room Hroom). cbn [fst].
  split; [done|]. split; [done|]. split; [done|].
  split; [|split; [|split; [done|]]].
  - unfold lobby_reset. cbn [r_players set_status set_players].
    apply Forall_fmap, Forall_true. by intros p.
  - unfold lobby_reset. cbn [r_players set_status set_players].
    rewrite <- list_fmap_compose. by apply list_fmap_ext.
  - rewrite (Heq _ (lobby_reset room)) by apply lookup_insert_eq.
    cbn [fst]. by rewrite insert_insert_eq, lobby_reset_idem.
Qed.

Lemma startRound_isolated rt roomCode (rooms : gmap string Room) :
  (∀ c, c ≠ roomCode → (startRound rt roomCode rooms).1 !! c = rooms !! c)
  ∧ Forall (addressed_within roomCode) (startRound rt roomCode rooms).2.
Proof.
  unfold startRound. destruct (rooms !! roomCode) as [room|]; [|by split].
  destruct (generateMaze _ _ _) as [maze|]; cbn [fst snd]; split;
    try (intros c Hc; by rewrite lookup_insert_ne); [|by constructor].
  constructor; [|by constructor]. unfold addressed_within. simpl. auto.
Qed.

Ltac addressed :=
  repeat match goal with
  | |- Forall _ [] => apply Forall_nil
  | |- Forall _ (_ :: _) =>
      apply List.Forall_cons; [unfold addressed_within; simpl; auto|]
  end.

(** X11. An event that names a room code concerns that room only: the other
    rooms of the table stay as they are, and what is sent goes to the sender
    or to the room of that code.  If no room has the code, the table stays
    as it is and nothing is sent, except that a join is answered with one
    error: "Room not found", or "Game already in progress" when the code is
    the name of a member that every object inherits.  A play-again request
    under such a name is left out of this last part: there the handler does
    not return at [if (!room)]. *)
Theorem handle_isolated rt socket ev (rooms : gmap string Room) roomCode :
  event_code ev = Some roomCode →
  (∀ c, c ≠ roomCode → (handle rt socket ev rooms).1 !! c = rooms !! c)
  ∧ Forall (addressed_within roomCode) (handle rt socket ev rooms).2
  ∧ (rooms !! roomCode = None →
     (roomCode ∈ Object_prototype → ev ≠ ev_requestPlayAgain roomCode) →
     (handle rt socket ev rooms).1 = rooms
     ∧ (handle rt socket ev rooms).2
       = match ev with
         | ev_joinRoom _ _ =>
             [(to_sender,
               error (if bool_decide (roomCode ∈ Object_prototype)
                      then "Game already in progress"
                      else "Room not found"))]
         | _ => []
         end).
Proof.
  intros Hcode.
  destruct ev as [n m t|playerName code|code position|code|code|code|];
    simpl in Hcode; simplify_eq; simpl.
  - split; [|split].
    + intros c Hc. unfold joinRoom. repeat case_match; cbn [fst]; try done.
      * match goal with Hs : startRound _ _ _ = _ |- _ =>
          apply (f_equal fst) in Hs; cbn [fst] in Hs; rewrite <- Hs end.
        destruct (startRound_isolated rt roomCode
                    (<[roomCode := set_players
                         (r_players r ++
                          [mkPlayer socket playerName 0
                             (default EmptyString
                                (colors !! (length (r_players r)
                                            mod length colors)%nat))
                             None None None None None]) r]> rooms)) as [Hiso _].
        rewrite Hiso by done. by rewrite lookup_insert_ne.
      * by rewrite lookup_insert_ne.
    + unfold joinRoom. repeat case_match; cbn [snd];
        try (by addressed).
      match goal with Hs : startRound _ _ _ = _ |- _ =>
        apply (f_equal snd) in Hs; cbn [snd] in Hs; rewrite <- Hs end.
      apply List.Forall_cons; [unfold addressed_within; simpl; auto|].
      apply startRound_isolated.
    + intros Hnone _. unfold joinRoom. rewrite Hnone.
      by destruct (bool_decide _).
  - split; [|split].
    + intros c Hc. unfold playerMove. repeat case_match; cbn [fst]; try done;
        simplify_eq; by rewrite ?lookup_insert_ne.
    + unfold playerMove. repeat case_match; cbn [snd];
        by addressed.
    + intros Hnone _. unfold playerMove. rewrite Hnone. auto.
  - split; [|split].
    + intros c Hc. unfold playerWon. repeat case_match; cbn [fst]; try done;
        by rewrite lookup_insert_ne.
    + unfold playerWon. repeat case_match; cbn [snd];
        by addressed.
    + intros Hnone _. unfold playerWon. rewrite Hnone. auto.
  - split; [|split].
    + intros c Hc. unfold requestNextRound.
      repeat case_match; cbn [fst]; try done.
      destruct (startRound_isolated rt roomCode
                  (<[roomCode := set_currentRound (r_currentRound r + 1) r]>
                     rooms)) as [Hiso _].
      rewrite Hiso by done. by rewrite lookup_insert_ne.
    + unfold requestNextRound. repeat case_match; cbn [snd];
        try (by constructor). apply startRound_isolated.
    + intros Hnone _. unfold requestNextRound. rewrite Hnone. auto.
  - split; [|split].
    + intros c Hc. unfold requestPlayAgain.
      repeat case_match; cbn [fst]; try done. by rewrite lookup_insert_ne.
    + unfold requestPlayAgain. repeat case_match; cbn [snd];
        by addressed.
    + intros Hnone _. unfold requestPlayAgain. rewrite Hnone. auto.
Qed.

(** X12. A join is either refused or accepted, never both.  Refused, it
    leaves the table as it is and sends the sender one error.  Without a room
    of the code that is "Room not found", unless the code is the name of a
    member that every object inherits, when it is "Game already in
    progress"; with a room it is "Game already in progress" unless the room
    is waiting, else "Room is full" when the room has [maxPlayers] players or
    more.  Accepted, it appends the sender to the room with score 0 and tells
    the room the new list before anything else. *)
Theorem joinRoom_outcome rt socket playerName roomCode
    (rooms : gmap string Room) :
  (∃ msg,
     joinRoom rt socket playerName roomCode rooms
       = (rooms, [(to_sender, error msg)])
     ∧ ((msg = "Room not found"%string ∧ rooms !! roomCode = None
         ∧ roomCode ∉ Object_prototype)
        ∨ (msg = "Game already in progress"%string ∧ rooms !! roomCode = None
           ∧ roomCode ∈ Object_prototype)
        ∨ ∃ room, rooms !! roomCode = Some room
            ∧ ((msg = "Game already in progress"%string
                ∧ r_status room ≠ waiting)
               ∨ (msg = "Room is full"%string ∧ r_status room = waiting
                  ∧ ∃ m, r_maxPlayers room = Some m
                         ∧ m ≤ Z.of_nat (length (r_players room))))))
  ∨ (∃ room room' joined sent,
       rooms !! roomCode = Some room
       ∧ r_status room = waiting
       ∧ (∀ m, r_maxPlayers room = Some m →
               Z.of_nat (length (r_players room)) < m)
       ∧ joinRoom rt socket playerName roomCode rooms
         = (<[roomCode := room']> rooms,
            (to_room roomCode,
             playerJoined (r_players room ++ [joined]) roomCode
                          (r_maxPlayers room)) :: sent)
       ∧ p_id joined = socket ∧ p_name joined = playerName
       ∧ p_score joined = 0
       ∧ p_score <$> r_players room'
         = (p_score <$> r_players room) ++ [0]
       ∧ roster room' = roster room ++ [socket]).
Proof.
  destruct (rooms !! roomCode) as [room|] eqn:Hroom.
  2: { left. unfold joinRoom. rewrite Hroom. case_bool_decide.
       - exists "Game already in progress"%string. split; [done|].
         right. left. done.
       - exists "Room not found"%string. split; [done|]. left. done. }
  destruct (decide (r_status room = waiting)) as [Hwait|Hwait].
  2: { left. exists "Game already in progress"%string. unfold joinRoom.
       rewrite Hroom. rewrite bool_decide_eq_false_2 by done. simpl.
       split; [done|]. right. right. exists room. auto. }
  destruct (num_ge (Z.of_nat (length (r_players room))) (r_maxPlayers room))
    eqn:Hfull.
  { left. exists "Room is full"%string. unfold joinRoom.
    rewrite Hroom, Hfull. rewrite bool_decide_eq_true_2 by done. simpl.
    split; [done|]. right. right. exists room. split; [done|]. right.
    split; [done|]. split; [done|].
    destruct (r_maxPlayers room) as [m|]; [|done]. exists m. split; [done|].
    simpl in Hfull. by apply bool_decide_eq_true in Hfull. }
  right.
  rewrite (joinRoom_accepted _ _ _ _ _ _ Hroom Hwait Hfull). cbv zeta.
  cbn [r_players set_players].
  assert (Hfree : ∀ m, r_maxPlayers room = Some m →
                       Z.of_nat (length (r_players room)) < m).
  { intros m Hm. rewrite Hm in Hfull. simpl in Hfull.
    apply bool_decide_eq_false in Hfull. lia. }
  destruct (num_eq _ _) eqn:Hnow.
  - destruct (startRound_started rt roomCode
                (<[roomCode := seated socket playerName room]> rooms)
                (seated socket playerName room))
      as (maze & Hmaze & Heq); [by rewrite lookup_insert_eq|].
    fold (seated socket playerName room). rewrite Heq, insert_insert_eq.
    eexists room, _, (newcomer socket playerName room), _.
    split; [done|]. split; [done|]. split; [done|]. split; [done|].
    split; [done|]. split; [done|]. split; [done|].
    unfold roster. cbn [r_players started seated set_players].
    rewrite <- !list_fmap_compose.
    rewrite (list_fmap_ext (p_score ∘ reset_player) p_score) by done.
    rewrite (list_fmap_ext (p_id ∘ reset_player) p_id) by done.
    by rewrite !fmap_app.
  - eexists room, _, (newcomer socket playerName room), _.
    split; [done|]. split; [done|]. split; [done|]. split; [done|].
    split; [done|]. split; [done|]. split; [done|].
    unfold roster. cbn [r_players set_players]. by rewrite !fmap_app.
Qed.

End rosters.


(** ** The border of the maze, and mazes of even size *)

Section maze_walls.
Import Maze Walls.
Local Open Scope Z_scope.

Variables (sh : nat → nat) (width height : Z).

(** The loop ends in a state that has every property the iterations keep. *)
Lemma loop_keeps (P : LoopState → Prop) fuel st :
  (∀ st current rest st',
     loop_invariant width height st → P st → stack st = current :: rest →
     iteration sh width height st current rest = Some st' → P st') →
  loop_invariant width height st → (measure st ≤ fuel)%nat → P st →
  ∃ st', loop sh width height fuel st = Some (maze st')
    ∧ loop_invariant width height st' ∧ stack st' = [] ∧ P st'.
Proof.
  intros Hkeep. revert st. induction fuel as [|fuel IH]; intros st Inv Hm HP.
  - destruct (stack st) as [|current rest] eqn:Hst.
    + exists st. simpl. by rewrite Hst.
    + unfold measure in Hm. rewrite Hst in Hm. simpl in Hm. lia.
  - simpl. destruct (stack st) as [|current rest] eqn:Hst; [by exists st|].
    destruct (iteration_invariant sh width height st current rest Inv Hst)
      as (st' & Hit & Inv' & Hlt).
    rewrite Hit. simpl. apply IH; [done|lia|].
    exact (Hkeep st current rest st' Inv HP Hst Hit).
Qed.

(** The loop carves inside every box that holds the nodes. *)
Lemma iteration_boxed right bottom st current rest st' :
  (∀ p, node width height p → in_box right bottom p) →
  loop_invariant width height st → boxed right bottom st →
  stack st = current :: rest →
  iteration sh width height st current rest = Some st' →
  boxed right bottom st'.
Proof.
  intros Hnodes Inv Hbox Hst. unfold iteration.
  set (ds := shuffle (sh (shuffles st)) (dirs st)).
  assert (Hds : ds ≡ₚ directions).
  { unfold ds. rewrite shuffle_perm. apply Inv. }
  pose proof (inv_stack _ _ _ Inv) as Hstack. rewrite Hst in Hstack.
  apply Forall_cons in Hstack as [[Hnode Hcur] Hrest].
  destruct current as [cx cy].
  destruct (validNeighbors width height (maze st) (cx, cy) ds)
    as [|next tl] eqn:Hvn.
  - intros [= <-]. exact Hbox.
  - apply validNeighbors_head in Hvn as (d & Hd & -> & Hnx & Hny & Hwall).
    simpl in *.
    assert (Hdd : d ∈ directions) by (by rewrite <- Hds).
    apply directions_halves in Hdd as (a & b & -> & -> & -> & Hab).
    simpl in *.
    destruct (carve_spec width height (maze st) (cx + 2 * a) (cy + 2 * b))
      as (m1 & -> & Hshape1 & Hcell1 & _); [apply Inv | lia | lia |].
    simpl.
    destruct Hnode as (Hox & Hoy & Hcx & Hcy). simpl in *.
    destruct (carve_spec width height m1 (cx + a) (cy + b))
      as (m2 & -> & Hshape2 & Hcell2 & _); [done | lia | lia |].
    simpl. intros [= <-]. intros [x y] Hp. unfold is_path in Hp.
    simpl in Hp. rewrite Hcell2, Hcell1 in Hp.
    assert (Hnext : in_box right bottom (cx + 2 * a, cy + 2 * b)).
    { apply Hnodes. unfold node. simpl. rewrite !Z.odd_add_mul_2.
      repeat split; auto; lia. }
    assert (Hhere : in_box right bottom (cx, cy)).
    { apply Hnodes. unfold node. simpl. repeat split; auto; lia. }
    unfold in_box in *. simpl in *.
    repeat case_bool_decide; try (by apply (Hbox (x, y))); lia.
Qed.

(** The maze in which the loop is entered has one path cell. *)
Lemma loop_entry_boxed right bottom m :
  1 ≤ right → 1 ≤ bottom → 2 ≤ width → 2 ≤ height →
  carve (replicate (Z.to_nat height) (replicate (Z.to_nat width) 1)) 1 1
    = Some m →
  boxed right bottom (mkLoop 0 directions m [(1, 1)]).
Proof.
  intros Hr Hb Hw Hh Hm.
  destruct (carve_spec width height _ 1 1 (shape_replicate width height))
    as (m' & Hm' & _ & Hcell & _); [lia|lia|].
  rewrite Hm in Hm'. injection Hm' as <-.
  intros [x y] Hp. unfold is_path in Hp. simpl in Hp. rewrite Hcell in Hp.
  case_bool_decide as Hc.
  - unfold in_box. simpl. lia.
  - by apply cell_replicate in Hp.
Qed.

(** What [generateMaze] returns, in terms of the state in which the loop
    ends: the maze of that state with the exit carved. *)
Lemma generateMaze_boxed right bottom :
  3 ≤ width → 3 ≤ height → 1 ≤ right → 1 ≤ bottom →
  (∀ p, node width height p → in_box right bottom p) →
  ∃ st m,
    generateMaze sh width height = Some m
    ∧ loop_invariant width height st ∧ stack st = []
    ∧ boxed right bottom st
    ∧ shape width height m
    ∧ ∀ x y, cell m x y =
        if bool_decide (x = width - 2 ∧ y = height - 2) then Some 0
        else cell (maze st) x y.
Proof.
  intros Hw Hh Hr Hb Hnodes. unfold generateMaze.
  destruct (loop_entry width height) as (m0 & Hm0 & Inv0 & Hfuel); [lia|lia|].
  rewrite Hm0. cbv beta iota delta [mbind option_bind].
  destruct (loop_keeps (boxed right bottom) _ _
              (λ st current rest st' Inv HP Hst Hit,
                 iteration_boxed right bottom st current rest st' Hnodes Inv
                                 HP Hst Hit) Inv0 Hfuel)
    as (st & -> & Inv & Hst & Hbox).
  { apply loop_entry_boxed; auto; lia. }
  destruct (carve_spec width height (maze st) (width - 2) (height - 2))
    as (m & -> & Hshape & Hcell & _); [apply Inv|lia|lia|].
  by exists st, m.
Qed.

(** X13. For every width and height from 3 on, odd or even, the generator
    returns a grid of that size whose cells are all 0 or 1 and whose
    outermost rows and columns are all walls. *)
Theorem generateMaze_walled :
  3 ≤ width → 3 ≤ height →
  ∃ m, generateMaze sh width height = Some m
    ∧ shape width height m
    ∧ (∀ x y v, cell m x y = Some v → v = 0 ∨ v = 1)
    ∧ (∀ x y, 0 ≤ x < width → 0 ≤ y < height →
              on_border width height x y → cell m x y = Some 1).
Proof.
  intros Hw Hh.
  destruct (generateMaze_boxed (width - 2) (height - 2))
    as (st & m & Hm & Inv & Hst & Hbox & Hshape & Hcell); [lia..| |].
  { intros [x y] (_ & _ & Hx & Hy). unfold in_box. simpl in *. lia. }
  exists m. split; [done|]. split; [done|]. split.
  - intros x y v. rewrite Hcell. case_bool_decide; [intros [= <-]; by left|].
    apply Inv.
  - intros x y Hx Hy Hborder. rewrite Hcell.
    rewrite bool_decide_eq_false_2 by (unfold on_border in Hborder; lia).
    destruct (cell_is_Some width height (maze st) x y) as [v Hv];
      [apply Inv|done|done|].
    rewrite Hv. destruct (inv_bits _ _ _ Inv _ _ _ Hv) as [->| ->]; [|done].
    specialize (Hbox (x, y) Hv). unfold in_box, on_border in *. simpl in *.
    lia.
Qed.

(** A walk ends where it starts or arrives from an adjacent path cell. *)
Lemma connected_last (m : Grid) p q :
  connected m p q → p = q ∨ ∃ r, adjacent r q ∧ is_path m r.
Proof.
  intros Hconn. destruct Hconn as [p Hp|p q r Hpq Hadj Hr]; [by left|].
  right. exists q. split; [done|]. by destruct Hpq.
Qed.

(** X14. For even width and height the exit cell that the generator carves
    at the end has a wall on each side: it is a path cell no walk from (1,1)
    reaches. *)
Theorem generateMaze_even_exit_cut_off :
  Z.even width = true → Z.even height = true → 4 ≤ width → 4 ≤ height →
  ∃ m, generateMaze sh width height = Some m
    ∧ cell m 1 1 = Some 0
    ∧ cell m (width - 2) (height - 2) = Some 0
    ∧ (∀ q, adjacent q (width - 2, height - 2) → ¬ is_path m q)
    ∧ ¬ connected m (1, 1) (width - 2, height - 2).
Proof.
  intros Hew Heh Hw Hh.
  assert (Hodd : ∀ n x, Z.even n = true → Z.odd x = true → x < n - 1 →
                        x ≤ n - 3).
  { intros n x Hn Hx Hlt. destruct (decide (x = n - 2)) as [->|]; [|lia].
    replace (n - 2) with (n + 2 * (-1)) in Hx by lia.
    rewrite Z.odd_add_mul_2, <- Z.negb_even, Hn in Hx. done. }
  destruct (generateMaze_boxed (width - 3) (height - 3))
    as (st & m & Hm & Inv & Hst & Hbox & Hshape & Hcell); [lia..| |].
  { intros [x y] (Hox & Hoy & Hx & Hy). unfold in_box. simpl in *.
    pose proof (Hodd width x Hew Hox). pose proof (Hodd height y Heh Hoy).
    lia. }
  exists m. split; [done|].
  assert (Hcut : ∀ q, adjacent q (width - 2, height - 2) → ¬ is_path m q).
  { intros [x y] Hadj Hp. unfold adjacent in Hadj. simpl in Hadj.
    unfold is_path in Hp. simpl in Hp. rewrite Hcell in Hp.
    rewrite bool_decide_eq_false_2 in Hp by lia.
    specialize (Hbox (x, y) Hp). unfold in_box in Hbox. simpl in Hbox. lia. }
  split; [|split; [|split; [done|]]].
  - rewrite Hcell. rewrite bool_decide_eq_false_2 by lia. apply Inv.
  - rewrite Hcell. by rewrite bool_decide_eq_true_2.
  - intros Hconn. apply connected_last in Hconn as [Heq|(q & Hadj & Hq)].
    + injection Heq as Heq1 Heq2. lia.
    + by apply (Hcut q Hadj).
Qed.

Lemma odd_to_nat x : 0 ≤ x → Nat.odd (Z.to_nat x) = Z.odd x.
Proof.
  intros Hx. destruct (Z.odd x) eqn:Hodd.
  - apply Z.odd_spec in Hodd as [k ->]. apply Nat.odd_spec.
    exists (Z.to_nat k). lia.
  - rewrite <- Z.negb_even in Hodd. apply negb_false_iff in Hodd.
    apply Z.even_spec in Hodd as [k ->].
    rewrite <- Nat.negb_even. apply negb_false_iff. apply Nat.even_spec.
    exists (Z.to_nat k). lia.
Qed.

Lemma row_opens_insert (row : list Z) (i : nat) (v : Z) :
  row !! i = Some v →
  row_opens (<[i := 0%Z]> row)
  = (row_opens row + (if bool_decide (v = 0%Z) then 0 else 1))%nat.
Proof.
  unfold row_opens. revert i. induction row as [|a row IH]; intros [|i] Hi;
    simplify_eq/=.
  - rewrite !filter_cons.
    case_bool_decide; subst.
    + rewrite decide_True by done. simpl. lia.
    + rewrite decide_False by done. simpl. lia.
  - rewrite !filter_cons. specialize (IH i Hi).
    destruct (decide (a = 0)); simpl; lia.
Qed.

Lemma opens_insert (m : Grid) (j : nat) (row row' : list Z) :
  m !! j = Some row →
  (opens (<[j := row']> m) + row_opens row = opens m + row_opens row')%nat.
Proof.
  unfold opens. revert j. induction m as [|a m IH]; intros [|j] Hj;
    simplify_eq/=; [lia|].
  specialize (IH j Hj). lia.
Qed.

Lemma row_open_nodes_insert (odd : bool) (row : list Z) (i : nat) (v : Z) :
  row !! i = Some v →
  row_open_nodes odd (<[i := 0%Z]> row)
  = (row_open_nodes odd row
     + (if xorb odd (Nat.odd i) && negb (bool_decide (v = 0%Z)) then 1 else 0))%nat.
Proof.
  revert i odd. induction row as [|a row IH]; intros [|i] odd Hi;
    simplify_eq/=.
  - change (Nat.odd 0) with false.
    destruct odd, (bool_decide (v = 0)); simpl; lia.
  - rewrite (IH i (negb odd) Hi). rewrite Nat.odd_succ, <- Nat.negb_odd.
    destruct odd, (Nat.odd i); simpl; lia.
Qed.

Lemma open_nodes_from_insert (odd : bool) (m : Grid) (j : nat)
    (row row' : list Z) :
  m !! j = Some row →
  (open_nodes_from odd (<[j := row']> m)
   + (if xorb odd (Nat.odd j) then row_open_nodes false row else 0)
   = open_nodes_from odd m
     + (if xorb odd (Nat.odd j) then row_open_nodes false row' else 0))%nat.
Proof.
  revert j odd. induction m as [|a m IH]; intros [|j] odd Hj; simplify_eq/=.
  - change (Nat.odd 0) with false. destruct odd; simpl; lia.
  - specialize (IH j (negb odd) Hj).
    rewrite Nat.odd_succ, <- Nat.negb_odd.
    destruct odd, (Nat.odd j); simpl in *; lia.
Qed.

(** Carving a wall opens one cell, and one node if the cell has odd
    coordinates. *)
Lemma carve_counts (m m' : Grid) x y :
  cell m x y = Some 1 → carve m x y = Some m' →
  opens m' = (opens m + 1)%nat
  ∧ open_nodes m' = (open_nodes m + if Z.odd x && Z.odd y then 1 else 0)%nat.
Proof.
  unfold cell, carve. case_bool_decide as Hxy; [|done].
  destruct (m !! Z.to_nat y) as [row|] eqn:Hrow; simpl; [|done].
  intros Hv. rewrite bool_decide_eq_true_2 by (by eapply lookup_lt_Some).
  intros [= <-]. split.
  - pose proof (opens_insert m _ row (<[Z.to_nat x := 0]> row) Hrow) as Ho.
    rewrite (row_opens_insert row _ 1 Hv) in Ho.
    rewrite bool_decide_eq_false_2 in Ho by done. lia.
  - unfold open_nodes.
    pose proof (open_nodes_from_insert false m _ row
                  (<[Z.to_nat x := 0]> row) Hrow) as Hn.
    rewrite (row_open_nodes_insert false row _ 1 Hv) in Hn.
    rewrite bool_decide_eq_false_2 in Hn by done.
    rewrite !xorb_false_l, !odd_to_nat in Hn by lia.
    destruct (Z.odd x), (Z.odd y); simpl in *; lia.
Qed.

Lemma carve_open (m : Grid) x y :
  cell m x y = Some 0 → carve m x y = Some m.
Proof.
  unfold cell, carve. case_bool_decide as Hxy; [|done].
  destruct (m !! Z.to_nat y) as [row|] eqn:Hrow; simpl; [|done].
  intros Hv. rewrite bool_decide_eq_true_2 by (by eapply lookup_lt_Some).
  f_equal. rewrite (list_insert_id row) by done. by apply list_insert_id.
Qed.

Lemma counts_replicate (n k : nat) :
  opens (replicate n (replicate k 1)) = 0%nat
  ∧ ∀ odd, open_nodes_from odd (replicate n (replicate k 1)) = 0%nat.
Proof.
  assert (Hrow : row_opens (replicate k 1) = 0%nat
                 ∧ ∀ odd, row_open_nodes odd (replicate k 1) = 0%nat).
  { induction k as [|k [IHo IHn]]; [done|]. split.
    - unfold row_opens in *. simpl. rewrite filter_cons.
      by rewrite decide_False.
    - intros odd. simpl. rewrite IHn. by destruct odd. }
  destruct Hrow as [Hro Hrn].
  induction n as [|n [IHo IHn]]; [done|]. split.
  - unfold opens in *. csimpl. rewrite Hro. by rewrite IHo.
  - intros odd. simpl. rewrite Hrn, IHn. by destruct odd.
Qed.

(** The goal is a path cell that a hypothesis names in another way. *)
Ltac same_cell :=
  match goal with
  | H : is_path ?m (?u, ?w) |- is_path ?m (?u', ?w') =>
      try (replace u' with u by lia); try (replace w' with w by lia); exact H
  end.

Lemma iteration_branching st current rest st' :
  loop_invariant width height st → branching st →
  stack st = current :: rest →
  iteration sh width height st current rest = Some st' →
  branching st'.
Proof.
  intros Inv [Hlaid Hcount] Hst. unfold iteration.
  set (ds := shuffle (sh (shuffles st)) (dirs st)).
  assert (Hds : ds ≡ₚ directions).
  { unfold ds. rewrite shuffle_perm. apply Inv. }
  pose proof (inv_stack _ _ _ Inv) as Hstack. rewrite Hst in Hstack.
  apply Forall_cons in Hstack as [[Hnode Hcur] Hrest].
  destruct current as [cx cy].
  destruct (validNeighbors width height (maze st) (cx, cy) ds)
    as [|next tl] eqn:Hvn.
  - intros [= <-]. by split.
  - apply validNeighbors_head in Hvn as (d & Hd & -> & Hnx & Hny & Hwall).
    simpl in *.
    assert (Hdd : d ∈ directions) by (by rewrite <- Hds).
    apply directions_halves in Hdd as (a & b & -> & -> & -> & Hab).
    simpl in *.
    destruct Hnode as (Hox & Hoy & Hcx & Hcy). simpl in *.
    destruct (carve_spec width height (maze st) (cx + 2 * a) (cy + 2 * b))
      as (m1 & Hm1 & Hshape1 & Hcell1 & _); [apply Inv | lia | lia |].
    rewrite Hm1. simpl.
    destruct (carve_spec width height m1 (cx + a) (cy + b))
      as (m2 & Hm2 & Hshape2 & Hcell2 & _); [done | lia | lia |].
    rewrite Hm2. simpl. intros [= <-]. cbn [maze].
    assert (Hcell : ∀ x y, cell m2 x y =
      if bool_decide ((x = cx + a ∧ y = cy + b)
                      ∨ (x = cx + 2 * a ∧ y = cy + 2 * b))
      then Some 0 else cell (maze st) x y).
    { intros x y. rewrite Hcell2, Hcell1.
      repeat case_bool_decide; try done; tauto. }
    assert (Hmono : ∀ r, is_path (maze st) r → is_path m2 r).
    { intros [x y]. unfold is_path. simpl. rewrite Hcell.
      by case_bool_decide. }
    assert (Hnot : ¬ is_path (maze st) (cx + 2 * a, cy + 2 * b)).
    { unfold is_path. simpl. congruence. }
    assert (Hnext : is_path m2 (cx + 2 * a, cy + 2 * b)).
    { unfold is_path. simpl. rewrite Hcell.
      rewrite bool_decide_eq_true_2; [done|]. by right. }
    pose proof (Hmono _ Hcur) as Hcur2.
    assert (Hpar : (Z.odd (cx + a) = false ∧ Z.odd (cy + b) = true ∧ b = 0)
                   ∨ (Z.odd (cx + a) = true ∧ Z.odd (cy + b) = false ∧ a = 0)).
    { rewrite !Z.odd_add, Hox, Hoy.
      destruct Hab as [[-> Hb1]|[Ha1 ->]]; [right|left];
        [assert (b = 1 ∨ b = -1) as [-> | ->] by lia
        |assert (a = 1 ∨ a = -1) as [-> | ->] by lia]; done. }
    assert (Hbetween : cell (maze st) (cx + a) (cy + b) = Some 1).
    { destruct (cell_is_Some width height (maze st) (cx + a) (cy + b))
        as [v Hv]; [apply Inv|lia|lia|].
      destruct (inv_bits _ _ _ Inv _ _ _ Hv) as [->| ->]; [|done].
      exfalso.
      destruct (Hlaid _ _ Hv) as [(Hx & Hy)|[(Hx & Hy & Hl & Hr)
                                            |(Hx & Hy & Hu & Hd')]].
      - destruct Hpar as [(? & ? & ?)|(? & ? & ?)]; congruence.
      - destruct Hpar as [(_ & _ & ->)|(? & ? & ?)]; [|congruence].
        assert (a = 1 ∨ a = -1) as [-> | ->] by lia; apply Hnot; same_cell.
      - destruct Hpar as [(? & ? & ?)|(_ & _ & ->)]; [congruence|].
        assert (b = 1 ∨ b = -1) as [-> | ->] by lia; apply Hnot; same_cell. }
    split.
    + intros x y Hp. unfold is_path in Hp. simpl in Hp. rewrite Hcell in Hp.
      case_bool_decide as Hc.
      * destruct Hc as [[-> ->]|[-> ->]].
        -- destruct Hpar as [(Hx & Hy & ->)|(Hx & Hy & ->)].
           ++ right. left. split; [done|]. split; [done|].
              assert (a = 1 ∨ a = -1) as [-> | ->] by lia; split; same_cell.
           ++ right. right. split; [done|]. split; [done|].
              assert (b = 1 ∨ b = -1) as [-> | ->] by lia; split; same_cell.
        -- left. by rewrite !Z.odd_add_mul_2.
      * destruct (Hlaid x y Hp) as [?|[(? & ? & ? & ?)|(? & ? & ? & ?)]];
          [by left|right; left|right; right]; repeat split; auto;
          by apply Hmono.
    + destruct (carve_counts _ _ _ _ Hwall Hm1) as [Ho1 Hn1].
      assert (Hb1 : cell m1 (cx + a) (cy + b) = Some 1).
      { rewrite Hcell1. rewrite bool_decide_eq_false_2 by lia. done. }
      destruct (carve_counts _ _ _ _ Hb1 Hm2) as [Ho2 Hn2].
      rewrite !Z.odd_add_mul_2, Hox, Hoy in Hn1. simpl in Hn1.
      assert (Z.odd (cx + a) && Z.odd (cy + b) = false) as Hfalse.
      { by destruct Hpar as [(-> & -> & _)|(-> & -> & _)]. }
      rewrite Hfalse in Hn2. cbn [maze]. lia.
Qed.

(** X15. For odd sizes from 3 on the maze has the cells and the count of a
    spanning tree of the nodes (the cells at odd coordinates inside the
    border): every node is a path cell, every other path cell is a passage
    between two path nodes, to its left and right or above and below, and
    there is one passage fewer than there are nodes. *)
Theorem generateMaze_perfect :
  Z.odd width = true → Z.odd height = true → 3 ≤ width → 3 ≤ height →
  ∃ m, generateMaze sh width height = Some m
    ∧ (∀ p, node width height p → is_path m p)
    ∧ laid_out m
    ∧ (opens m + 1 = 2 * open_nodes m)%nat.
Proof.
  intros How Hoh Hw Hh. unfold generateMaze.
  destruct (loop_entry width height) as (m0 & Hm0 & Inv0 & Hfuel); [lia|lia|].
  rewrite Hm0. cbv beta iota delta [mbind option_bind].
  destruct (loop_keeps branching _ _ iteration_branching Inv0 Hfuel)
    as (st & -> & Inv & Hst & Hlaid & Hcount).
  { pose proof (loop_entry_boxed 1 1 m0 ltac:(lia) ltac:(lia) ltac:(lia)
                  ltac:(lia) Hm0) as Hbox.
    split; cbn [maze].
    - intros x y Hp. specialize (Hbox (x, y) Hp). unfold in_box in Hbox.
      simpl in Hbox. left. by replace x with 1 by lia; replace y with 1 by lia.
    - destruct (counts_replicate (Z.to_nat height) (Z.to_nat width))
        as [Ho Hn].
      assert (cell (replicate (Z.to_nat height)
                      (replicate (Z.to_nat width) 1)) 1 1 = Some 1) as Hone.
      { destruct (cell_is_Some width height _ 1 1
                    (shape_replicate width height)) as [v Hv]; [lia|lia|].
        by rewrite Hv, (cell_replicate _ _ _ _ _ Hv). }
      destruct (carve_counts _ _ _ _ Hone Hm0) as [Ho1 Hn1].
      rewrite Ho1, Hn1, Ho. unfold open_nodes. rewrite Hn. simpl. lia. }
  assert (Hall : ∀ p, node width height p → is_path (maze st) p)
    by (by apply backtracker_complete).
  assert (Hexit : cell (maze st) (width - 2) (height - 2) = Some 0).
  { apply (Hall (width - 2, height - 2)). unfold node. simpl.
    replace (width - 2) with (width + 2 * (-1)) by lia.
    replace (height - 2) with (height + 2 * (-1)) by lia.
    rewrite !Z.odd_add_mul_2. repeat split; auto; lia. }
  rewrite (carve_open _ _ _ Hexit). by exists (maze st).
Qed.

End maze_walls.

(** ** Facts about the client *)

Section client.
Import Maze Server Client.
Local Open Scope Z_scope.

Lemma handleInput_arrive maze me key :
  handleInput maze me key = arrive maze me (target me key).
Proof. reflexivity. Qed.

(** A key takes the player at most one cell away. *)
Lemma target_near me key :
  Z.abs ((target me key).1 - me_x me) + Z.abs ((target me key).2 - me_y me) ≤ 1.
Proof.
  unfold target. cbn [fst snd].
  repeat case_bool_decide; simplify_eq; lia.
Qed.

(** What [arrive] does, by cases. *)
Lemma arrive_cases maze me next :
  (arrive maze me next = (me, [], true)
   ∧ ¬ (is_path maze next ∧ 0 ≤ next.1 < cols maze ∧ 0 ≤ next.2 < rows maze))
  ∨ (is_path maze next
     ∧ 0 ≤ next.1 < cols maze ∧ 0 ≤ next.2 < rows maze
     ∧ ((next = finish_line maze ∧ me_finished me = false
         ∧ arrive maze me next
           = (mkMe next.1 next.2 true,
              [sent_playerMove next; sent_playerWon], false))
        ∨ ((next ≠ finish_line maze ∨ me_finished me = true)
           ∧ arrive maze me next
             = (mkMe next.1 next.2 (me_finished me),
                [sent_playerMove next], true)))).
Proof.
  destruct next as [x y]. unfold arrive, is_path, finish_line. cbn [fst snd].
  case_bool_decide as Hin; [|left; split; [done|]; intros (_ & ? & ?); lia].
  case_bool_decide as Hpath; [|left; split; [done|]; by intros (? & _)].
  right. split; [done|]. split; [lia|]. split; [lia|].
  case_bool_decide as Hexit.
  - destruct (me_finished me) eqn:Hfin; simpl.
    + right. split; [by right|done].
    + left. split; [f_equal; lia|]. done.
  - right. split; [|done]. left. intros [= ? ?]. lia.
Qed.

(** X16. The client never leaves the paths of the maze: a player standing on
    a path cell stands on a path cell after every sequence of keys, each key
    takes it at most one cell away, and every position it reports to the
    server is a path cell inside the grid. *)
Theorem play_on_paths maze keys s :
  is_path maze (position s) →
  is_path maze (position (play maze keys s))
  ∧ (∀ p, sent_playerMove p ∈ outbox (play maze keys s) →
          sent_playerMove p ∈ outbox s
          ∨ (is_path maze p ∧ 0 ≤ p.1 < cols maze ∧ 0 ≤ p.2 < rows maze))
  ∧ (∀ key,
       Z.abs ((position (keydown maze s key)).1 - (position s).1)
       + Z.abs ((position (keydown maze s key)).2 - (position s).2) ≤ 1).
Proof.
  intros Hpath. split; [|split].
  - revert s Hpath. unfold play.
    induction keys as [|key keys IH]; intros s Hpath; simpl; [done|].
    apply IH. unfold keydown. destruct (listening s); [|done].
    rewrite handleInput_arrive.
    destruct (arrive_cases maze (me s) (target (me s) key))
      as [[-> _]|(Hp & _ & _ & [(_ & _ & ->)|(_ & ->)])]; done.
  - revert s Hpath. unfold play.
    induction keys as [|key keys IH]; intros s Hpath p; simpl; [by left|].
    intros Hin. apply IH in Hin.
    + destruct Hin as [Hin|Hin]; [|by right].
      unfold keydown in Hin. destruct (listening s); [|by left].
      rewrite handleInput_arrive in Hin.
      destruct (arrive_cases maze (me s) (target (me s) key))
        as [[Heq _]|(Hp & Hx & Hy & [(_ & _ & Heq)|(_ & Heq)])];
        rewrite Heq in Hin; cbn [outbox] in Hin.
      * left. by rewrite app_nil_r in Hin.
      * apply elem_of_app in Hin as [Hin|Hin]; [by left|].
        apply elem_of_cons in Hin as [[= ->]|Hin]; [by right|].
        apply elem_of_cons in Hin as [Hin|Hin]; [done|].
        by apply elem_of_nil in Hin.
      * apply elem_of_app in Hin as [Hin|Hin]; [by left|].
        apply elem_of_cons in Hin as [[= ->]|Hin]; [by right|].
        by apply elem_of_nil in Hin.
    + unfold keydown. destruct (listening s); [|done].
      rewrite handleInput_arrive.
      destruct (arrive_cases maze (me s) (target (me s) key))
        as [[-> _]|(Hp & _ & _ & [(_ & _ & ->)|(_ & ->)])]; done.
  - intros key. unfold keydown. destruct (listening s); [|simpl; lia].
    rewrite handleInput_arrive. pose proof (target_near (me s) key) as Hnear.
    destruct (arrive_cases maze (me s) (target (me s) key))
      as [[-> _]|(Hp & _ & _ & [(_ & _ & ->)|(_ & ->)])];
      unfold position; cbn [me me_x me_y fst snd]; lia.
Qed.

Lemma wins_app (l k : list Sent) : wins (l ++ k) = (wins l + wins k)%nat.
Proof. unfold wins. by rewrite filter_app, length_app. Qed.

Lemma keydown_round maze s key :
  running s ∨ home maze s →
  running (keydown maze s key) ∨ home maze (keydown maze s key).
Proof.
  intros [(Hl & Hf & Hw)|(Hl & Hf & Hw & Hp)].
  - unfold keydown. rewrite Hl. rewrite handleInput_arrive.
    destruct (arrive_cases maze (me s) (target (me s) key))
      as [[-> _]|(Hp & _ & _ & [(Hexit & _ & ->)|(_ & ->)])].
    + left. unfold running. cbn [listening me outbox].
      by rewrite app_nil_r.
    + right. unfold home, position. cbn [listening me outbox me_x me_y
                                           me_finished].
      rewrite wins_app, Hw. split; [done|]. split; [done|]. split; [done|].
      rewrite <- Hexit. by destruct (target (me s) key).
    + left. unfold running. cbn [listening me outbox me_finished].
      rewrite wins_app, Hw. done.
  - right. unfold keydown. rewrite Hl. done.
Qed.

(** X17. From the start of a round the client signals the finish at most
    once: after any keys it is either still running, with no [playerWon]
    sent, or it stands on the finish line with [playerWon] sent exactly once
    and the keys switched off, so that nothing more is sent. *)
Theorem play_wins_once maze keys :
  let s := play maze keys kickoff in
  (running s ∨ home maze s)
  ∧ (wins (outbox s) ≤ 1)%nat
  ∧ (home maze s → ∀ more, play maze more s = s).
Proof.
  intros s.
  assert (Hround : running s ∨ home maze s).
  { unfold s, play. generalize kickoff, (or_introl (home maze kickoff)
      (conj eq_refl (conj eq_refl eq_refl) : running kickoff)).
    induction keys as [|key keys IH]; intros s0 Hs0; simpl; [done|].
    apply IH. by apply keydown_round. }
  split; [done|]. split.
  - destruct Hround as [(_ & _ & ->)|(_ & _ & -> & _)]; lia.
  - intros (Hl & _) more. unfold play.
    induction more as [|key more IH]; simpl; [done|].
    unfold keydown at 2. by rewrite Hl.
Qed.

Lemma shape_sides width height (m : Grid) :
  shape width height m → 0 < width → 0 < height →
  cols m = width ∧ rows m = height.
Proof.
  intros [Hlen Hrows] Hw Hh. unfold cols, rows. split; [|lia].
  destruct m as [|row m]; [simpl in Hlen; lia|]. simpl.
  apply Forall_cons in Hrows as [Hrow _]. lia.
Qed.

Lemma play_snoc maze keys key s :
  play maze (keys ++ [key]) s = keydown maze (play maze keys s) key.
Proof. unfold play. by rewrite foldl_app. Qed.

(** A walk over path cells can be followed key by key, until the finish is
    signalled. *)
Lemma walk_keys maze q :
  (∀ p, is_path maze p → 0 ≤ p.1 < cols maze ∧ 0 ≤ p.2 < rows maze) →
  connected maze (1, 1) q →
  ∃ keys, home maze (play maze keys kickoff)
          ∨ (running (play maze keys kickoff)
             ∧ position (play maze keys kickoff) = q).
Proof.
  intros Hin Hwalk. remember (1, 1) as start eqn:Hstart.
  induction Hwalk as [p Hp|p q r Hpq IH Hadj Hr]; subst.
  - exists []. right. by split.
  - destruct (IH eq_refl) as (keys & [Hhome|[Hrun Hpos]]);
      [exists keys; by left|].
    set (s := play maze keys kickoff) in *.
    assert (∃ key, target (me s) key = r) as [key Hkey].
    { unfold position in Hpos. destruct r as [rx ry]. subst q.
      unfold adjacent in Hadj. simpl in Hadj.
      destruct (decide (ry = me_y (me s) - 1)) as [->|];
        [exists "ArrowUp"%string|
         destruct (decide (ry = me_y (me s) + 1)) as [->|];
           [exists "ArrowDown"%string|
            destruct (decide (rx = me_x (me s) - 1)) as [->|];
              [exists "ArrowLeft"%string|exists "ArrowRight"%string]]];
        unfold target; repeat case_bool_decide; simplify_eq; f_equal; lia. }
    exists (keys ++ [key]). rewrite play_snoc. fold s.
    destruct Hrun as (Hl & Hf & Hw).
    unfold keydown. rewrite Hl, handleInput_arrive, Hkey.
    destruct (arrive_cases maze (me s) r)
      as [[_ Hno]|(_ & _ & _ & [(Hexit & _ & ->)|(_ & ->)])].
    + destruct Hno. destruct (Hin r Hr). by split.
    + left. unfold home, position. cbn [listening me outbox me_x me_y
                                          me_finished].
      rewrite wins_app, Hw. repeat split; auto.
      rewrite <- Hexit. by destruct r.
    + right. split.
      * unfold running. cbn [listening me outbox me_finished].
        by rewrite wins_app, Hw.
      * unfold position. cbn [me me_x me_y]. by destruct r.
Qed.

(** X18. Every round can be won from the keyboard: on the maze that the
    generator returns for odd sizes from 3 on, whatever the shuffles, some
    sequence of keys takes the client from the start to the finish line, which
    is the exit cell of the generator, with [playerWon] sent once. *)
Theorem round_winnable sh width height maze :
  Z.odd width = true → Z.odd height = true → 3 ≤ width → 3 ≤ height →
  generateMaze sh width height = Some maze →
  finish_line maze = (width - 2, height - 2)
  ∧ ∃ keys, home maze (play maze keys kickoff).
Proof.
  intros How Hoh Hw Hh Hmaze.
  destruct (generateMaze_walkable sh width height How Hoh Hw Hh)
    as (m & Hm & Hlen & Hrows & _ & Hexit & Hwalk).
  rewrite Hmaze in Hm. injection Hm as <-.
  destruct (shape_sides width height maze) as [Hcols Hrws]; [by split|lia|lia|].
  assert (Hline : finish_line maze = (width - 2, height - 2)).
  { unfold finish_line. by rewrite Hcols, Hrws. }
  split; [done|].
  assert (Hin : ∀ p, is_path maze p →
                     0 ≤ p.1 < cols maze ∧ 0 ≤ p.2 < rows maze).
  { intros [x y] Hp. rewrite Hcols, Hrws.
    by apply (cell_inside width height maze x y 0). }
  destruct (walk_keys maze _ Hin Hwalk) as (keys & [Hhome|[Hrun Hpos]]);
    [by exists keys|].
  exists (keys ++ ["Enter"%string]). rewrite play_snoc.
  set (s := play maze keys kickoff) in *.
  destruct Hrun as (Hl & Hf & Hw0).
  assert (Htarget : target (me s) "Enter" = (width - 2, height - 2)).
  { unfold target. repeat case_bool_decide; simplify_eq. exact Hpos. }
  unfold keydown. rewrite Hl, handleInput_arrive, Htarget.
  destruct (arrive_cases maze (me s) (width - 2, height - 2))
    as [[_ Hno]|(_ & _ & _ & [(_ & _ & ->)|([Hne|Hfin] & _)])].
  - destruct Hno. split; [done|]. by apply (Hin (width - 2, height - 2)).
  - unfold home, position. cbn [listening me outbox me_x me_y me_finished].
    rewrite wins_app, Hw0. by rewrite Hline.
  - by rewrite Hline in Hne.
  - congruence.
Qed.

Lemma by_score_key (a b : Player) :
  by_score a b
  = Some (inject_Z (- p_score a) - inject_Z (- p_score b))%Q.
Proof.
  unfold by_score, Qminus, Qplus, Qopp, inject_Z. simpl. do 2 f_equal. lia.
Qed.

(** X19. The final ranking lists the same players by falling score, and the
    grand champion it names is the player of the highest score, among equals
    the one listed first. *)
Theorem ranking_champion (players : list Player) :
  ranking players ≡ₚ players
  ∧ StronglySorted (λ a b, p_score b ≤ p_score a) (ranking players)
  ∧ (players ≠ [] → is_Some (champion players))
  ∧ ∀ c, champion players = Some c →
      ∃ k, players !! k = Some c
        ∧ (∀ j p, players !! j = Some p → p_score p ≤ p_score c)
        ∧ (∀ j p, (j < k)%nat → players !! j = Some p →
                  p_score p < p_score c).
Proof.
  unfold champion, ranking.
  set (key := λ p : Player, inject_Z (- p_score p)).
  assert (Hkey : ∀ b c : Player, b ∈ players → c ∈ players →
                 by_score b c = Some (key b - key c)%Q).
  { intros b c _ _. apply by_score_key. }
  assert (Hle : ∀ a b : Player, (key a <= key b)%Q ↔ p_score b ≤ p_score a).
  { intros a b. unfold key. rewrite <- Zle_Qle. lia. }
  assert (Hlt : ∀ a b : Player, (key a < key b)%Q ↔ p_score b < p_score a).
  { intros a b. unfold key. rewrite <- Zlt_Qlt. lia. }
  split; [apply sort_perm|]. split; [|split].
  - pose proof (sort_sorted by_score key players Hkey) as Hsorted.
    induction Hsorted as [|a l _ IH Hall]; constructor; [done|].
    eapply Forall_impl; [exact Hall|]. intros b. apply Hle.
  - intros Hne. destruct (sort by_score players) as [|c rest] eqn:Hsort;
      [|by eexists].
    apply (f_equal length) in Hsort. rewrite sort_length in Hsort.
    by destruct players.
  - intros c Hc. destruct (sort by_score players) as [|c' rest] eqn:Hsort;
      simplify_eq/=.
    destruct (sort_head_first_least by_score key players c rest Hkey Hsort)
      as (k & Hk & Hleast & Hfirst).
    exists k. split; [done|]. split.
    + intros j p Hp. apply Hle. by eapply Hleast.
    + intros j p Hj Hp. apply Hlt. by eapply Hfirst.
Qed.

End client.

(** ** The further facts at work *)

Section further_at_work.
Import Maze Server Scenario Walls Changes Rules Client.
Local Open Scope Z_scope.

Lemma run_rooms_keyed_witness :
  r_id opening_room = "AAAA"%string ∧ r_players opening_room ≠ [].
Proof.
  apply (run_rooms_keyed opening "AAAA" opening_room).
  vm_compute. reflexivity.
Defined.

Lemma run_round_bounds_witness :
  1 ≤ r_currentRound round_one_room
  ∧ ∀ t, r_totalRounds round_one_room = Some t → r_currentRound round_one_room ≤ t.
Proof.
  apply (run_round_bounds round_one "AAAA" round_one_room).
  - repeat constructor; simpl; intros t [= <-]; lia.
  - vm_compute. reflexivity.
Defined.

Lemma run_scores_witness :
  Forall (λ p, 0 ≤ p_score p) (r_players round_one_room)
  ∧ total_score (r_players round_one_room) ≤ rounds_done round_one_room.
Proof.
  apply (run_scores round_one "AAAA" round_one_room).
  vm_compute. reflexivity.
Defined.

Lemma run_colours_witness :
  (∀ i p, r_players opening_room !! i = Some p →
          colors !! (i mod 10)%nat = Some (p_color p))
  ∧ ((length (r_players opening_room) ≤ 10)%nat →
     NoDup (p_color <$> r_players opening_room)).
Proof.
  apply (run_colours opening "AAAA" opening_room).
  - repeat (constructor; [discriminate|]). constructor.
  - vm_compute. reflexivity.
Defined.

Lemma run_round_over_finished_witness :
  all_finished (r_players round_one_room) = true.
Proof.
  apply (run_round_over_finished round_one "AAAA" round_one_room).
  - vm_compute. reflexivity.
  - left. vm_compute. reflexivity.
Defined.

Lemma full_lobby_stays_witness :
  ∃ room',
    run knocking rematch !! "AAAA" = Some room'
    ∧ full_lobby room'
    ∧ roster room' = roster rematch_room
    ∧ ∀ rt socket playerName,
        joinRoom rt socket playerName "AAAA" (run knocking rematch)
          = (run knocking rematch, [(to_sender, error "Room is full")]).
Proof.
  apply (full_lobby_stays knocking rematch "AAAA" rematch_room).
  - repeat (constructor; [discriminate|]). constructor.
  - vm_compute. reflexivity.
  - split; vm_compute; reflexivity.
Defined.

Lemma stalled_stays_witness :
  stalled abandoned_room
  ∧ ∀ rt socket,
      playerWon rt socket "AAAA" (run waiting_in_vain abandoned)
        = (run waiting_in_vain abandoned, [])
      ∧ requestNextRound rt "AAAA" (run waiting_in_vain abandoned)
        = (run waiting_in_vain abandoned, []).
Proof.
  apply (stalled_stays waiting_in_vain abandoned "AAAA" abandoned_room
           abandoned_room).
  - repeat (constructor; [split; [discriminate|exact I]|]). constructor.
  - vm_compute. reflexivity.
  - split; vm_compute; reflexivity.
  - vm_compute. reflexivity.
Defined.

Lemma handle_roster_witness :
  r_id abandoned_room = r_id race
  ∧ r_maxPlayers abandoned_room = r_maxPlayers race
  ∧ r_totalRounds abandoned_room = r_totalRounds race
  ∧ (badges abandoned_room = badges race
     ∨ (∃ playerName colour,
          ev_disconnect = ev_joinRoom playerName "AAAA"
          ∧ badges abandoned_room
            = badges race ++ [("s1"%string, playerName, colour)])
     ∨ (∃ i playerName colour,
          ev_disconnect = ev_disconnect
          ∧ badges race !! i = Some ("s1"%string, playerName, colour)
          ∧ badges abandoned_room = delete i (badges race))).
Proof.
  apply (handle_roster (runtime 7000) "s1" ev_disconnect racing "AAAA" race
           abandoned_room).
  - reflexivity.
  - vm_compute. reflexivity.
Defined.

Lemma disconnect_first_witness :
  disconnect (runtime 7000) "s1" racing
    = (if bool_decide (length (delete 0%nat (r_players race)) = 0%nat)
       then delete "AAAA"%string racing
       else <["AAAA"%string := set_players (delete 0%nat (r_players race)) race]>
              racing,
       [(to_room "AAAA", playerLeft (delete 0%nat (r_players race)))])
  ∧ (∀ c, c ≠ "AAAA"%string →
          (disconnect (runtime 7000) "s1" racing).1 !! c = racing !! c)
  ∧ (∀ others : gmap string Room,
       (∀ c r, c ∈ key_order (runtime 7000) → others !! c = Some r →
               find_player "s1" (r_players r) = None) →
       disconnect (runtime 7000) "s1" others = (others, [])).
Proof.
  apply (disconnect_first (runtime 7000) "s1" racing [] "AAAA" [] race 0%nat
           ann).
  - reflexivity.
  - intros c r Hc. by apply elem_of_nil in Hc.
  - reflexivity.
  - vm_compute. reflexivity.
Defined.

Lemma requestPlayAgain_resets_witness :
  ∃ room',
    requestPlayAgain "AAAA" racing
      = (<["AAAA"%string := room']> racing,
         [(to_room "AAAA", resetToLobby (r_players room'))])
    ∧ r_status room' = waiting
    ∧ r_currentRound room' = 1
    ∧ Forall (λ p, p_score p = 0) (r_players room')
    ∧ (λ p, (badge p, p_x p, p_y p, p_finished p, p_lastFinishTime p,
             p_finishTime p)) <$> r_players room'
      = (λ p, (badge p, p_x p, p_y p, p_finished p, p_lastFinishTime p,
               p_finishTime p)) <$> r_players race
    ∧ (r_id room', r_maxPlayers room', r_totalRounds room', r_maze room',
       r_startTime room')
      = (r_id race, r_maxPlayers race, r_totalRounds race, r_maze race,
         r_startTime race)
    ∧ (requestPlayAgain "AAAA" (requestPlayAgain "AAAA" racing).1).1
      = (requestPlayAgain "AAAA" racing).1.
Proof.
  apply (requestPlayAgain_resets "AAAA" racing race). reflexivity.
Defined.

Lemma handle_isolated_witness :
  (∀ c, c ≠ "constructor"%string →
        (handle (runtime 7000) "s4" (ev_joinRoom "Dee" "constructor") racing).1
          !! c
          = racing !! c)
  ∧ Forall (addressed_within "constructor")
           (handle (runtime 7000) "s4" (ev_joinRoom "Dee" "constructor")
                   racing).2
  ∧ (racing !! "constructor"%string = None →
     ("constructor"%string ∈ Object_prototype →
      ev_joinRoom "Dee" "constructor" ≠ ev_requestPlayAgain "constructor") →
     (handle (runtime 7000) "s4" (ev_joinRoom "Dee" "constructor") racing).1
       = racing
     ∧ (handle (runtime 7000) "s4" (ev_joinRoom "Dee" "constructor") racing).2
       = [(to_sender, error "Game already in progress")]).
Proof.
  apply (handle_isolated (runtime 7000) "s4" (ev_joinRoom "Dee" "constructor")
           racing "constructor").
  reflexivity.
Defined.

Lemma generateMaze_walled_witness :
  ∃ m, generateMaze (λ n, n) 6 4 = Some m
    ∧ shape 6 4 m
    ∧ (∀ x y v, cell m x y = Some v → v = 0 ∨ v = 1)
    ∧ (∀ x y, 0 ≤ x < 6 → 0 ≤ y < 4 →
              on_border 6 4 x y → cell m x y = Some 1).
Proof. apply (generateMaze_walled (λ n, n) 6 4); lia. Defined.

Lemma generateMaze_even_exit_cut_off_witness :
  ∃ m, generateMaze (λ n, n) 6 4 = Some m
    ∧ cell m 1 1 = Some 0
    ∧ cell m (6 - 2) (4 - 2) = Some 0
    ∧ (∀ q, adjacent q (6 - 2, 4 - 2) → ¬ is_path m q)
    ∧ ¬ connected m (1, 1) (6 - 2, 4 - 2).
Proof.
  apply (generateMaze_even_exit_cut_off (λ n, n) 6 4);
    [reflexivity|reflexivity|lia|lia].
Defined.

Lemma generateMaze_perfect_witness :
  ∃ m, generateMaze (λ n, n) 21 21 = Some m
    ∧ (∀ p, node 21 21 p → is_path m p)
    ∧ laid_out m
    ∧ (opens m + 1 = 2 * open_nodes m)%nat.
Proof.
  apply (generateMaze_perfect (λ n, n) 21 21);
    [reflexivity|reflexivity|lia|lia].
Defined.

Lemma play_on_paths_witness :
  is_path corridor
    (position (play corridor ["ArrowRight"; "ArrowUp"; "ArrowRight"]%string
                    kickoff))
  ∧ (∀ p, sent_playerMove p
            ∈ outbox (play corridor ["ArrowRight"; "ArrowUp"; "ArrowRight"]%string
                           kickoff) →
          sent_playerMove p ∈ outbox kickoff
          ∨ (is_path corridor p ∧ 0 ≤ p.1 < cols corridor
             ∧ 0 ≤ p.2 < rows corridor))
  ∧ (∀ key,
       Z.abs ((position (keydown corridor kickoff key)).1 - (position kickoff).1)
       + Z.abs ((position (keydown corridor kickoff key)).2
                - (position kickoff).2) ≤ 1).
Proof.
  apply (play_on_paths corridor ["ArrowRight"; "ArrowUp"; "ArrowRight"]%string
           kickoff).
  reflexivity.
Defined.

Lemma round_winnable_witness :
  finish_line maze_of_five = (5 - 2, 5 - 2)
  ∧ ∃ keys, home maze_of_five (play maze_of_five keys kickoff).
Proof.
  apply (round_winnable (λ n, n) 5 5 maze_of_five);
    [reflexivity|reflexivity|lia|lia|].
  vm_compute. reflexivity.
Defined.

End further_at_work.
